(** * Commit-aware repository cache: a shallow embedding

    The definitions below follow [repositoryCache.js] (getLatestCommitSha,
    getCachedData, setCachedData, getCachedCommitSha, getCommitChanges,
    applyChangesToCache, searchCachedData, calculateMatchScore,
    fetchAndCacheFolderData, searchCachedDataEnhanced) and the
    [loadContents] / [loadContentsDirectly] pair of the file browser view.

    Conventions
    - JavaScript strings are [string]s; [toLowerCase] folds the ASCII
      letters, every other character is left as it is.
    - [Date.now()] is a [Z] (milliseconds); the clock is a field of the
      world, and the environment moves it between calls.
    - An exception is an explicit outcome of the monad [M]; [try_catch]
      is the source's [try { .. } catch { .. }].
    - [memoryCache] and [localStorage] are iterated by the source, so they
      are association lists in insertion order; [commitCache] is only
      looked up, so it is a [gmap].
    - The host is a function of the request; every [fetch] is recorded in
      the log of the world.
    - A continuation given to [setTimeout] waits in the store until the
      event loop runs it ([run_timers]); the code runs on one thread, so
      a function of the source is one uninterrupted run of the monad. *)

From Stdlib Require Import ZArith Bool Ascii String Lia.
From Stdlib Require Import Sorting.Sorted Sorting.Permutation.
From Stdlib Require Import Numbers.DecimalString Numbers.DecimalZ.
From Stdlib Require Structures.OrdersEx.
From stdpp Require Import base option list gmap strings.

Local Open Scope Z_scope.
Local Open Scope string_scope.
Local Open Scope list_scope.

(** ** JavaScript string primitives *)

Module Js.

(** [s.startsWith(t)] *)
Definition startsWith (s t : string) : bool := String.prefix t s.

(** [s.includes(t)]: [t] occurs in [s] at some offset. *)
Fixpoint includes (s t : string) : bool :=
  String.prefix t s ||
  match s with
  | EmptyString => false
  | String _ s' => includes s' t
  end.

(** [s.substring(n)] for [0 <= n]: the suffix from offset [n]. *)
Fixpoint substring_from (n : nat) (s : string) : string :=
  match n, s with
  | O, _ => s
  | S _, EmptyString => EmptyString
  | S n', String _ s' => substring_from n' s'
  end.

(** [s.split(sep)] for a one-character separator: never empty. *)
Fixpoint split (sep : ascii) (s : string) : list string :=
  match s with
  | EmptyString => [EmptyString]
  | String c s' =>
      if Ascii.eqb c sep then EmptyString :: split sep s'
      else match split sep s' with
           | [] => [String c EmptyString]
           | seg :: segs => String c seg :: segs
           end
  end.

(** [arr.pop()] on the array of segments: the last one. *)
Definition pop (segs : list string) : string := List.last segs EmptyString.

Definition slash : ascii := "/"%char.

Definition lower_char (c : ascii) : ascii :=
  let n := nat_of_ascii c in
  if (65 <=? n)%nat && (n <=? 90)%nat then ascii_of_nat (n + 32) else c.

(** [s.toLowerCase()] *)
Fixpoint toLowerCase (s : string) : string :=
  match s with
  | EmptyString => EmptyString
  | String c s' => String (lower_char c) (toLowerCase s')
  end.

(** [`${n}`] / [n.toString()] for an integral number. *)
Definition number_toString (n : Z) : string :=
  NilEmpty.string_of_int (Z.to_int n).

(** A JavaScript string is truthy when it is not empty. *)
Definition truthy (s : string) : bool := negb (String.eqb s "").

Fixpoint drop_leading (c : ascii) (s : string) : string :=
  match s with
  | String c' s' => if Ascii.eqb c' c then drop_leading c s' else s
  | EmptyString => EmptyString
  end.

Fixpoint rev_string (acc s : string) : string :=
  match s with
  | EmptyString => acc
  | String c s' => rev_string (String c acc) s'
  end.

Definition drop_trailing (c : ascii) (s : string) : string :=
  rev_string "" (drop_leading c (rev_string "" s)).

(** [path.replace(/^\/+|\/+$/g, '')] *)
Definition strip_slashes (s : string) : string :=
  drop_trailing slash (drop_leading slash s).

Definition is_space (c : ascii) : bool :=
  let n := nat_of_ascii c in
  (n =? 32)%nat || ((9 <=? n)%nat && (n <=? 13)%nat).

(** [s.trim()] is truthy: some character is not white space. *)
Fixpoint trim_truthy (s : string) : bool :=
  match s with
  | EmptyString => false
  | String c s' => negb (is_space c) || trim_truthy s'
  end.

End Js.

(** ** Search relevance *)

(** [calculateMatchScore(itemName, searchTerm, path)] *)
Definition calculateMatchScore (itemName searchTerm path : string) : Z :=
  let normalizedName := Js.toLowerCase itemName in
  let normalizedSearch := Js.toLowerCase searchTerm in
  let score :=
    if String.eqb normalizedName normalizedSearch then 100
    else if Js.startsWith normalizedName normalizedSearch then 50
    else if Js.includes normalizedName normalizedSearch then 25
    else 0 in
  let pathDepth :=
    if Js.truthy path then Z.of_nat (length (Js.split Js.slash path)) else 0 in
  let score := score + Z.max 0 (10 - pathDepth) in
  if Js.includes itemName searchTerm then score + 5 else score.

(** ** Data model *)

(** One element of a listing: [{ id, name, type, size, path, download_url,
    repository, sha, created_at, updated_at }].  Folder elements carry no
    size, download_url or sha; an element rebuilt from a diff carries no
    download_url and a null repository.  The two date fields hold the
    instant whose ISO rendering the source stores. *)
Inductive entry_type := TFile | TDir.

Record entry := {
  id : string;
  name : string;
  type : entry_type;
  size : option Z;
  path : string;
  download_url : option string;
  repository : option string;
  sha : option string;
  created_at : Z;
  updated_at : Z
}.

(** The value kept under a listing key. *)
Record cache_data := {
  version : string;
  timestamp : Z;
  lastFetched : Z;
  commitSha : string;
  cd_path : string;
  files : list entry;
  folders : list entry;
  repoName : string
}.

(** The value kept under a repository's commit key. *)
Record commit_data := {
  c_version : string;
  c_timestamp : Z;
  c_commitSha : string
}.

(** One element of a compare result.  The refresh marker
    [{ status: 'refresh-needed' }] has no filename and no sha. *)
Record change := {
  filename : option string;
  status : string;
  ch_sha : option string;
  additions : Z;
  deletions : Z
}.

Record changes := {
  ch_files : list change;
  ch_commits : list string
}.

Definition CACHE_PREFIX : string := "gitea_repo_cache_".
Definition CACHE_VERSION : string := "1.0".
Definition MAX_CACHE_AGE : Z := 24 * 60 * 60 * 1000.

(** ** The remote content host *)

(** What [JSON.parse] / [response.json()] yields: the text is not JSON
    (the call throws), it is the literal [null], or it is a value. *)
Inductive parsed (B : Type) := NotJson | JsonNull | Json (b : B).
Arguments NotJson {B}.
Arguments JsonNull {B}.
Arguments Json {B} b.

Record response (B : Type) := {
  http_status : Z;
  body : parsed B
}.
Arguments http_status {B} r.
Arguments body {B} r.

(** [response.ok]: the status is in the range 200-299. *)
Definition ok {B} (r : response B) : bool :=
  (200 <=? http_status r)%Z && (http_status r <=? 299)%Z.

(** [fetch] rejects (network failure, abort) or resolves to a response. *)
Inductive fetch_outcome (B : Type) := NetworkError | Resolved (r : response B).
Arguments NetworkError {B}.
Arguments Resolved {B} r.

Inductive item_type := ItFile | ItDir | ItOther.

(** An element of [GET /contents/{path}]. *)
Record remote_item := {
  it_name : string;
  it_type : item_type;
  it_size : Z;
  it_path : string;
  it_sha : string
}.

(** [GET /contents/{path}] answers an array for a directory and a single
    object for a file. *)
Inductive contents_body := Items (l : list remote_item) | Single (i : remote_item).

Record repo_info := {
  default_branch : option string;
  repo_empty : bool
}.

Record compare_body := {
  cmp_files : option (list change);
  cmp_commits : option (list string)
}.

(** An element of the recursive tree listing; the search reads
    [name], [type] and [path] of it. *)
Record tree_item := {
  tr_name : option string;
  tr_type : item_type;
  tr_path : string
}.

(** The host, one function per endpoint.  The branch endpoint's value is
    the [commit.id] of the body when it has one. *)
Record remote_host := {
  get_branch : string -> string -> fetch_outcome (option string);
  get_commits : string -> string -> fetch_outcome (list string);
  get_repo : string -> fetch_outcome repo_info;
  get_contents : string -> string -> fetch_outcome contents_body;
  get_compare : string -> string -> string -> fetch_outcome compare_body;
  get_tree : string -> fetch_outcome (option (list tree_item))
}.

(** The requests a run issues, in order. *)
Inductive request :=
| ReqBranch (repo branch : string)
| ReqCommits (repo branch : string)
| ReqRepo (repo : string)
| ReqContents (repo dir : string)
| ReqCompare (repo from to : string)
| ReqTree (repo : string).

(** ** The two store tiers *)

(** Insertion-ordered maps with string keys: [Map] and [Storage]. *)
Module Assoc.
Section Assoc.
Context {V : Type}.

Fixpoint get (k : string) (m : list (string * V)) : option V :=
  match m with
  | [] => None
  | (k', v) :: m' => if String.eqb k' k then Some v else get k m'
  end.

Definition has (k : string) (m : list (string * V)) : bool :=
  match get k m with Some _ => true | None => false end.

(** An existing key keeps its place, a new key goes last. *)
Fixpoint set (k : string) (v : V) (m : list (string * V)) : list (string * V) :=
  match m with
  | [] => [(k, v)]
  | (k', v') :: m' =>
      if String.eqb k' k then (k, v) :: m' else (k', v') :: set k v m'
  end.

Fixpoint remove (k : string) (m : list (string * V)) : list (string * V) :=
  match m with
  | [] => []
  | (k', v') :: m' =>
      if String.eqb k' k then remove k m' else (k', v') :: remove k m'
  end.

Definition keys (m : list (string * V)) : list string := map fst m.
End Assoc.
End Assoc.

(** A durable value: text that does not parse, a listing record or a
    commit record. *)
Inductive stored := Garbage | ListingJson (d : cache_data) | CommitJson (c : commit_data).

(** The zero-delay continuation scheduled by [setCachedData]. *)
Inductive task :=
| DurableWrite (cacheKey : string) (cacheData : cache_data)
               (repo : string) (commit : string).

Record store := {
  memoryCache : list (string * cache_data);
  commitCache : gmap string commit_data;
  localStorage : list (string * stored);
  timers : list task
}.

(** What the run cannot change: the clock reading, the host, the
    collation of the JavaScript engine ([a.localeCompare(b)]), whether the
    durable tier throws on a read or on a write, and the configuration. *)
Record env := {
  now : Z;
  host : remote_host;
  localeCompare : string -> string -> Z;
  storage_get_throws : bool;
  storage_set_throws : bool;
  giteaHost : string;
  giteaToken : string
}.

(** The part of the view [loadContents] reads and writes. *)
Record view := {
  files_value : list entry;
  folders_value : list entry;
  loading : bool;
  currentFolder : option string;
  currentWorkspace : option string
}.

Record world := {
  w_env : env;
  w_store : store;
  w_log : list request;
  w_view : view
}.

Definition with_store (w : world) (s : store) : world :=
  {| w_env := w_env w; w_store := s; w_log := w_log w; w_view := w_view w |}.

Definition with_log (w : world) (l : list request) : world :=
  {| w_env := w_env w; w_store := w_store w; w_log := l; w_view := w_view w |}.

Definition with_view (w : world) (v : view) : world :=
  {| w_env := w_env w; w_store := w_store w; w_log := w_log w; w_view := v |}.

Definition with_env (w : world) (e : env) : world :=
  {| w_env := e; w_store := w_store w; w_log := w_log w; w_view := w_view w |}.

Definition set_memoryCache (s : store) (m : list (string * cache_data)) : store :=
  {| memoryCache := m; commitCache := commitCache s;
     localStorage := localStorage s; timers := timers s |}.

Definition set_commitCache (s : store) (m : gmap string commit_data) : store :=
  {| memoryCache := memoryCache s; commitCache := m;
     localStorage := localStorage s; timers := timers s |}.

Definition set_localStorage (s : store) (m : list (string * stored)) : store :=
  {| memoryCache := memoryCache s; commitCache := commitCache s;
     localStorage := m; timers := timers s |}.

Definition set_timers (s : store) (t : list task) : store :=
  {| memoryCache := memoryCache s; commitCache := commitCache s;
     localStorage := localStorage s; timers := t |}.

(** ** A state and exception monad *)

Inductive outcome (A : Type) := Ret (a : A) (w : world) | Throw (w : world).
Arguments Ret {A} a w.
Arguments Throw {A} w.

Definition M (A : Type) : Type := world -> outcome A.

Definition ret {A} (a : A) : M A := fun w => Ret a w.

Definition bind {A B} (m : M A) (k : A -> M B) : M B :=
  fun w => match m w with
           | Ret a w' => k a w'
           | Throw w' => Throw w'
           end.

Definition throw {A} : M A := fun w => Throw w.

(** [try { m } catch { h }] *)
Definition try_catch {A} (m : M A) (h : M A) : M A :=
  fun w => match m w with
           | Ret a w' => Ret a w'
           | Throw w' => h w'
           end.

Declare Scope js_scope.
Delimit Scope js_scope with js.
Notation "x <- m ;; k" := (bind m (fun x => k))
  (at level 100, m at next level, right associativity) : js_scope.
Notation "m ;;; k" := (bind m (fun _ => k))
  (at level 100, right associativity) : js_scope.
Local Open Scope js_scope.

Definition final_world {A} (o : outcome A) : world :=
  match o with Ret _ w => w | Throw w => w end.

Definition returned {A} (o : outcome A) : option A :=
  match o with Ret a _ => Some a | Throw _ => None end.

Definition get_store : M store := fun w => Ret (w_store w) w.
Definition put_store (s : store) : M unit := fun w => Ret tt (with_store w s).
Definition get_view : M view := fun w => Ret (w_view w) w.
Definition put_view (v : view) : M unit := fun w => Ret tt (with_view w v).
Definition get_env : M env := fun w => Ret (w_env w) w.

(** [Date.now()] *)
Definition Date_now : M Z := fun w => Ret (now (w_env w)) w.

(** [await fetch(url, ..)]: the request is recorded, then the promise
    rejects or resolves. *)
Definition fetch {B} (req : request) (endpoint : remote_host -> fetch_outcome B)
  : M (response B) :=
  fun w =>
    let w' := with_log w (w_log w ++ [req]) in
    match endpoint (host (w_env w)) with
    | NetworkError => Throw w'
    | Resolved r => Ret r w'
    end.

(** [await response.json()]: [None] is the literal [null]. *)
Definition json {B} (r : response B) : M (option B) :=
  match body r with
  | NotJson => throw
  | JsonNull => ret None
  | Json b => ret (Some b)
  end.

(** A property read on [null] is a [TypeError]. *)
Definition deref {B} (o : option B) : M B :=
  match o with
  | None => throw
  | Some b => ret b
  end.

(** Run [k] only when [m] returned nothing. *)
Definition or_else {A} (m : M (option A)) (k : M (option A)) : M (option A) :=
  r <- m ;;
  match r with
  | Some a => ret (Some a)
  | None => k
  end.
Notation "m 'orelse' k" := (or_else m k)
  (at level 99, right associativity) : js_scope.

(** ** Commit oracle *)

(** The branch request of method 1 and what it yields: the commit id
    when the response is ok and the id is truthy. *)
Definition try_branch (repo branch : string) : M (option string) :=
  response <- fetch (ReqBranch repo branch) (fun h => get_branch h repo branch) ;;
  if ok response then
    branchData <- json response ;;
    match branchData with
    | Some (Some commit_id) =>
        if Js.truthy commit_id then ret (Some commit_id) else ret None
    | _ => ret None
    end
  else ret None.

(** The history request of method 2: [commitsData[0].sha] when the
    array is not empty. *)
Definition try_commits (repo branch : string) : M (option string) :=
  response <- fetch (ReqCommits repo branch) (fun h => get_commits h repo branch) ;;
  if ok response then
    commitsData <- json response ;;
    match commitsData with
    | Some (sha0 :: _) => ret (Some sha0)
    | _ => ret None
    end
  else ret None.

(** The repository-info request: the default branch is tried when the
    body names one, then an empty repository gets a pseudo-commit. *)
Definition try_repo (repo : string) : M (option string) :=
  response <- fetch (ReqRepo repo) (fun h => get_repo h repo) ;;
  if ok response then
    repoData <- json response ;;
    repoData <- deref repoData ;;
    (match default_branch repoData with
     | Some d =>
         if Js.truthy d then try_branch repo d orelse try_commits repo d
         else ret None
     | None => ret None
     end)
    orelse
    (if repo_empty repoData then
       t <- Date_now ;;
       ret (Some ("empty-repo-" +:+ Js.number_toString t))
     else ret None)
  else ret None.

(** The root listing probe of method 4. *)
Definition try_contents (repo : string) : M (option string) :=
  response <- fetch (ReqContents repo "") (fun h => get_contents h repo "") ;;
  if ok response then
    t <- Date_now ;;
    ret (Some ("contents-based-" +:+ Js.number_toString t))
  else ret None.

(** [getLatestCommitSha(giteaHost, giteaToken, repoName, branch)];
    a missing [repoName] is [None]. *)
Definition getLatestCommitSha (repoName : option string) (branch : string)
  : M (option string) :=
  try_catch
    (match repoName with
     | None => ret None
     | Some repo =>
         if negb (Js.truthy repo) then ret None
         else
           try_branch repo branch
           orelse try_commits repo branch
           orelse try_repo repo
           orelse try_contents repo
     end)
    (ret None).

(** ** Diff between two commits *)

Definition is_pseudo_commit (c : string) : bool :=
  Js.startsWith c "empty-repo-" || Js.startsWith c "contents-based-".

Definition refresh_needed : changes :=
  {| ch_files := [ {| filename := None; status := "refresh-needed";
                      ch_sha := None; additions := 0; deletions := 0 |} ];
     ch_commits := [] |}.

(** [getCommitChanges(giteaHost, giteaToken, repoName, fromCommit, toCommit)] *)
Definition getCommitChanges (repo fromCommit toCommit : string) : M changes :=
  try_catch
    (if is_pseudo_commit fromCommit || is_pseudo_commit toCommit then
       ret refresh_needed
     else
       response <- fetch (ReqCompare repo fromCommit toCommit)
                         (fun h => get_compare h repo fromCommit toCommit) ;;
       if negb (ok response) then ret refresh_needed
       else
         compareData <- json response ;;
         compareData <- deref compareData ;;
         ret {| ch_files := default [] (cmp_files compareData);
                ch_commits := default [] (cmp_commits compareData) |})
    (ret refresh_needed).

(** ** Cache entry manager *)

(** [getCacheKey(repoName, path)] *)
Definition getCacheKey (repo path : string) : string :=
  let normalizedPath := Js.strip_slashes path in
  CACHE_PREFIX +:+ repo +:+ "_" +:+
  (if Js.truthy normalizedPath then normalizedPath else "root").

(** [getCommitCacheKey(repoName)] *)
Definition getCommitCacheKey (repo : string) : string :=
  CACHE_PREFIX +:+ "commit_" +:+ repo.

(** [localStorage.getItem(key)] *)
Definition localStorage_getItem (key : string) : M (option stored) :=
  fun w =>
    if storage_get_throws (w_env w) then Throw w
    else Ret (Assoc.get key (localStorage (w_store w))) w.

(** [localStorage.setItem(key, JSON.stringify(value))] *)
Definition localStorage_setItem (key : string) (value : stored) : M unit :=
  fun w =>
    if storage_set_throws (w_env w) then Throw w
    else Ret tt (with_store w
           (set_localStorage (w_store w)
              (Assoc.set key value (localStorage (w_store w))))).

(** [localStorage.removeItem(key)] *)
Definition localStorage_removeItem (key : string) : M unit :=
  fun w =>
    Ret tt (with_store w
      (set_localStorage (w_store w)
         (Assoc.remove key (localStorage (w_store w))))).

(** [JSON.parse(cached)] read as a listing record.  A commit record read
    this way has the three fields they share; the fields it lacks are
    [undefined] in the source, which every reader defaults. *)
Definition JSON_parse_listing (cached : stored) : M cache_data :=
  match cached with
  | Garbage => throw
  | ListingJson d => ret d
  | CommitJson c =>
      ret {| version := c_version c; timestamp := c_timestamp c;
             lastFetched := 0; commitSha := c_commitSha c; cd_path := "";
             files := []; folders := []; repoName := "" |}
  end.

(** [JSON.parse(cached)] read as a commit record. *)
Definition JSON_parse_commit (cached : stored) : M commit_data :=
  match cached with
  | Garbage => throw
  | ListingJson d =>
      ret {| c_version := version d; c_timestamp := timestamp d;
             c_commitSha := commitSha d |}
  | CommitJson c => ret c
  end.

Definition memoryCache_set (key : string) (d : cache_data) : M unit :=
  fun w => Ret tt (with_store w
    (set_memoryCache (w_store w) (Assoc.set key d (memoryCache (w_store w))))).

Definition memoryCache_delete (key : string) : M unit :=
  fun w => Ret tt (with_store w
    (set_memoryCache (w_store w) (Assoc.remove key (memoryCache (w_store w))))).

Definition commitCache_set (repo : string) (c : commit_data) : M unit :=
  fun w => Ret tt (with_store w
    (set_commitCache (w_store w) (<[repo := c]> (commitCache (w_store w))))).

Definition commitCache_delete (repo : string) : M unit :=
  fun w => Ret tt (with_store w
    (set_commitCache (w_store w) (delete repo (commitCache (w_store w))))).

(** [getCachedData(repoName, path)] *)
Definition getCachedData (repo path : string) : M (option cache_data) :=
  try_catch
    (let cacheKey := getCacheKey repo path in
     s <- get_store ;;
     (match Assoc.get cacheKey (memoryCache s) with
      | Some memoryCached =>
          now <- Date_now ;;
          if String.eqb (version memoryCached) CACHE_VERSION
             && (now - timestamp memoryCached <? MAX_CACHE_AGE)%Z
          then ret (Some memoryCached)
          else (memoryCache_delete cacheKey ;;; ret None)
      | None => ret None
      end)
     orelse
     (cached <- localStorage_getItem cacheKey ;;
      match cached with
      | None => ret None
      | Some cached =>
          parsedCache <- JSON_parse_listing cached ;;
          if negb (String.eqb (version parsedCache) CACHE_VERSION) then
            localStorage_removeItem cacheKey ;;; ret None
          else
            now <- Date_now ;;
            if (now - timestamp parsedCache >? MAX_CACHE_AGE)%Z then
              localStorage_removeItem cacheKey ;;; ret None
            else
              memoryCache_set cacheKey parsedCache ;;; ret (Some parsedCache)
      end))
    (ret None).

(** [setTimeout(callback, 0)] *)
Definition setTimeout (t : task) : M unit :=
  fun w => Ret tt (with_store w
    (set_timers (w_store w) (timers (w_store w) ++ [t]))).

(** [setCachedData(repoName, path, commitSha, files, folders)]; a missing
    list is [None]. *)
Definition setCachedData (repo path commit : string)
    (fs ds : option (list entry)) : M unit :=
  try_catch
    (let cacheKey := getCacheKey repo path in
     now <- Date_now ;;
     let cacheData :=
       {| version := CACHE_VERSION; timestamp := now; lastFetched := now;
          commitSha := commit; cd_path := path;
          files := default [] fs; folders := default [] ds;
          repoName := repo |} in
     memoryCache_set cacheKey cacheData ;;;
     setTimeout (DurableWrite cacheKey cacheData repo commit))
    (ret tt).

(** The body of the continuation [setCachedData] schedules. *)
Definition run_task (t : task) : M unit :=
  match t with
  | DurableWrite cacheKey cacheData repo commit =>
      try_catch
        (localStorage_setItem cacheKey (ListingJson cacheData) ;;;
         let commitCacheKey := getCommitCacheKey repo in
         now <- Date_now ;;
         let commitData :=
           {| c_version := CACHE_VERSION; c_timestamp := now;
              c_commitSha := commit |} in
         localStorage_setItem commitCacheKey (CommitJson commitData) ;;;
         commitCache_set repo commitData)
        (ret tt)
  end.

Fixpoint for_each {A} (l : list A) (f : A -> M unit) : M unit :=
  match l with
  | [] => ret tt
  | a :: l' => f a ;;; for_each l' f
  end.

(** The event loop runs the pending continuations, oldest first. *)
Definition run_timers : M unit :=
  s <- get_store ;;
  put_store (set_timers s []) ;;;
  for_each (timers s) run_task.

(** [getCachedCommitSha(repoName)] *)
Definition getCachedCommitSha (repo : string) : M (option string) :=
  try_catch
    (s <- get_store ;;
     (match commitCache s !! repo with
      | Some memoryCached =>
          now <- Date_now ;;
          if String.eqb (c_version memoryCached) CACHE_VERSION
             && (now - c_timestamp memoryCached <? MAX_CACHE_AGE)%Z
          then ret (Some (c_commitSha memoryCached))
          else (commitCache_delete repo ;;; ret None)
      | None => ret None
      end)
     orelse
     (let commitCacheKey := getCommitCacheKey repo in
      cached <- localStorage_getItem commitCacheKey ;;
      match cached with
      | None => ret None
      | Some cached =>
          parsedCache <- JSON_parse_commit cached ;;
          now <- Date_now ;;
          if (now - c_timestamp parsedCache >? MAX_CACHE_AGE)%Z then
            localStorage_removeItem commitCacheKey ;;; ret None
          else
            commitCache_set repo parsedCache ;;;
            ret (Some (c_commitSha parsedCache))
      end))
    (ret None).

(** ** Diff applier *)

(** [arr.findIndex(f => f.name === fileName)] *)
Definition findIndex (fileName : string) (l : list entry) : option nat :=
  fst <$> list_find (fun f => name f = fileName) l.

(** [const i = arr.findIndex(..); if (i !== -1) arr.splice(i, 1)] *)
Definition remove_by_name (fileName : string) (l : list entry) : list entry :=
  match findIndex fileName l with
  | Some i => delete i l
  | None => l
  end.

(** [updateFileInCache(files, change, fullPath)]: the contents of [files]
    after the call. *)
Definition updateFileInCache (now : Z) (files : list entry) (c : change)
    (fullPath : string) : list entry :=
  let fileName := Js.pop (Js.split Js.slash fullPath) in
  remove_by_name fileName files ++
  [ {| id := match ch_sha c with
             | Some s => if Js.truthy s then s else Js.number_toString now
             | None => Js.number_toString now
             end;
       name := fileName;
       type := TFile;
       size := Some (additions c + deletions c);
       path := fullPath;
       download_url := None;
       repository := None;
       sha := ch_sha c;
       created_at := now;
       updated_at := now |} ].

(** [removeFileFromCache(files, folders, relativePath)]: the contents of
    both arrays after the call. *)
Definition removeFileFromCache (files folders : list entry)
    (relativePath : string) : list entry * list entry :=
  let fileName := Js.pop (Js.split Js.slash relativePath) in
  (remove_by_name fileName files, remove_by_name fileName folders).

(** One turn of the loop of [applyChangesToCache].  [None] is the
    [TypeError] of a change without filename; it is raised before the
    arrays are touched. *)
Definition apply_change (now : Z) (path : string) (c : change)
    (files folders : list entry) : option (list entry * list entry) :=
  let pathPrefix := if Js.truthy path then path +:+ "/" else "" in
  match filename c with
  | None => None
  | Some filePath =>
      if Js.truthy path && negb (Js.startsWith filePath pathPrefix) then
        Some (files, folders)
      else
        let relativePath :=
          if Js.truthy path
          then Js.substring_from (String.length pathPrefix) filePath
          else filePath in
        if Js.includes relativePath "/" then Some (files, folders)
        else if String.eqb (status c) "added" || String.eqb (status c) "modified" then
          if (length (Js.split Js.slash relativePath) =? 1)%nat
          then Some (updateFileInCache now files c filePath, folders)
          else Some (files, folders)
        else if String.eqb (status c) "removed" then
          Some (removeFileFromCache files folders relativePath)
        else Some (files, folders)
  end.

(** The loop; the exception handler returns [cachedData], whose arrays
    are the ones the loop has been changing in place. *)
Fixpoint apply_changes (now : Z) (path : string) (cs : list change)
    (files folders : list entry) : list entry * list entry :=
  match cs with
  | [] => (files, folders)
  | c :: cs' =>
      match apply_change now path c files folders with
      | None => (files, folders)
      | Some (files', folders') => apply_changes now path cs' files' folders'
      end
  end.

(** [applyChangesToCache(repoName, path, changes, cachedData)]: the
    [files] and [folders] of the object it returns. *)
Definition applyChangesToCache (repo path : string) (chs : changes)
    (cachedData : cache_data) : M (list entry * list entry) :=
  now <- Date_now ;;
  ret (apply_changes now path (ch_files chs) (files cachedData) (folders cachedData)).

(** ** Cross-directory search *)

(** [new Set()] / [set.add(x)] / [Array.from(set)]: first insertions,
    in order. *)
Definition set_add (x : string) (l : list string) : list string :=
  if existsb (String.eqb x) l then l else l ++ [x].

Definition dedup_in_order (l : list string) : list string :=
  fold_left (fun acc x => set_add x acc) l [].

(** [Object.keys(localStorage)]; a read of the durable tier. *)
Definition localStorage_keys : M (list string) :=
  fun w =>
    if storage_get_throws (w_env w) then Throw w
    else Ret (Assoc.keys (localStorage (w_store w))) w.

Fixpoint one_line (s : string) : bool :=
  match s with
  | EmptyString => true
  | String c s' =>
      negb (Ascii.eqb c "010"%char) && negb (Ascii.eqb c "013"%char) && one_line s'
  end.

(** [key.match(new RegExp(`^${CACHE_PREFIX}${repoName}_(.+)$`))] on a key
    that starts with the prefix, for a repository name free of
    regular-expression metacharacters: the captured group. *)
Definition match_path (prefix key : string) : option string :=
  let rest := Js.substring_from (String.length prefix) key in
  if Js.truthy rest && one_line rest then Some rest else None.

(** [getAllCachedPaths(repoName)] *)
Definition getAllCachedPaths (repo : string) : M (list string) :=
  try_catch
    (s <- get_store ;;
     let paths :=
       fold_left
         (fun acc kv =>
            if String.eqb (repoName (snd kv)) repo
            then set_add (cd_path (snd kv)) acc else acc)
         (memoryCache s) [] in
     keys <- localStorage_keys ;;
     let prefix := CACHE_PREFIX +:+ repo +:+ "_" in
     let repoKeys := List.filter (fun key => Js.startsWith key prefix) keys in
     ret (fold_left
            (fun acc key =>
               match match_path prefix key with
               | Some p => if String.eqb p "root" then set_add "" acc else set_add p acc
               | None => acc
               end)
            repoKeys paths))
    (ret []).

Record search_options := {
  includeFiles : option bool;
  includeFolders : option bool;
  caseSensitive : option bool;
  maxResults : option nat
}.

(** What a hit spreads: a cached element or an element of the tree
    listing. *)
Inductive hit_source := FromEntry (e : entry) | FromTree (t : tree_item).

Inductive match_type := MatchFile | MatchFolder.

Record search_hit := {
  hit_item : hit_source;
  searchPath : string;
  fullPath : string;
  matchType : match_type;
  matchScore : Z
}.

(** The comparator both searches hand to [results.sort]. *)
Definition compare_hits (coll : string -> string -> Z) (a b : search_hit) : Z :=
  if negb (matchScore b =? matchScore a)%Z then matchScore b - matchScore a
  else
    let aDepth := Z.of_nat (length (Js.split Js.slash (fullPath a))) in
    let bDepth := Z.of_nat (length (Js.split Js.slash (fullPath b))) in
    if negb (aDepth =? bDepth)%Z then aDepth - bDepth
    else coll (fullPath a) (fullPath b).

(** [Array.prototype.sort(cmp)]: a stable sort; with a consistent
    comparator every stable sort gives this list. *)
Section Sort.
Context {A : Type} (cmp : A -> A -> Z).

Fixpoint insert_sorted (x : A) (l : list A) : list A :=
  match l with
  | [] => [x]
  | y :: l' => if (cmp x y <=? 0)%Z then x :: y :: l' else y :: insert_sorted x l'
  end.

Definition sort (l : list A) : list A := fold_right insert_sorted [] l.
End Sort.

(** [arr.slice(0, n)] *)
Definition slice0 {A} (n : nat) (l : list A) : list A := take n l.

Definition normalize (cs : bool) (s : string) : string :=
  if cs then s else Js.toLowerCase s.

(** The hits one cached listing contributes, files first. *)
Definition scan_listing (incFiles incFolders cs : bool)
    (searchTerm dir : string) (fs ds : list entry) : list search_hit :=
  let normalizedSearchTerm := normalize cs searchTerm in
  let hit mt (e : entry) :=
    {| hit_item := FromEntry e;
       searchPath := dir;
       fullPath := if Js.truthy dir then dir +:+ "/" +:+ name e else name e;
       matchType := mt;
       matchScore := calculateMatchScore (name e) searchTerm dir |} in
  let matches (e : entry) :=
    Js.includes (normalize cs (name e)) normalizedSearchTerm in
  (if incFiles then map (hit MatchFile) (List.filter matches fs) else []) ++
  (if incFolders then map (hit MatchFolder) (List.filter matches ds) else []).

(** The loop of [searchCachedData] over the cached paths. *)
Fixpoint scan_cached (repo : string) (incFiles incFolders cs : bool)
    (searchTerm : string) (paths : list string) (results : list search_hit)
  : M (list search_hit) :=
  match paths with
  | [] => ret results
  | p :: paths' =>
      cachedData <- getCachedData repo p ;;
      match cachedData with
      | None => scan_cached repo incFiles incFolders cs searchTerm paths' results
      | Some d =>
          scan_cached repo incFiles incFolders cs searchTerm paths'
            (results ++ scan_listing incFiles incFolders cs searchTerm p
                          (files d) (folders d))
      end
  end.

Definition sort_hits (results : list search_hit) : M (list search_hit) :=
  e <- get_env ;;
  ret (sort (compare_hits (localeCompare e)) results).

(** The unsorted hits of [searchCachedData]. *)
Definition cached_hits (repo searchTerm : string) (options : search_options)
  : M (list search_hit) :=
  let includeFiles := default true (includeFiles options) in
  let includeFolders := default true (includeFolders options) in
  let caseSensitive := default false (caseSensitive options) in
  cachedPaths <- getAllCachedPaths repo ;;
  scan_cached repo includeFiles includeFolders caseSensitive searchTerm cachedPaths [].

(** [searchCachedData(repoName, searchTerm, options)] *)
Definition searchCachedData (repo searchTerm : string) (options : search_options)
  : M (list search_hit) :=
  let maxResults := default 100%nat (maxResults options) in
  try_catch
    (results <- cached_hits repo searchTerm options ;;
     results <- sort_hits results ;;
     ret (slice0 maxResults results))
    (ret []).

(** ** On-demand fetches *)

(** The two [map] calls that turn the items of a listing response into
    cached elements. *)
Definition file_of_item (e : env) (repo : string) (t : Z) (item : remote_item) : entry :=
  {| id := it_sha item;
     name := it_name item;
     type := TFile;
     size := Some (it_size item);
     path := it_path item;
     download_url :=
       Some (giteaHost e +:+ "/associateattorney/" +:+ repo +:+ "/raw/branch/main/"
             +:+ it_path item +:+ "?token=" +:+ giteaToken e);
     repository := Some ("associateattorney/" +:+ repo);
     sha := Some (it_sha item);
     created_at := t;
     updated_at := t |}.

Definition folder_of_item (repo : string) (t : Z) (item : remote_item) : entry :=
  {| id := it_sha item;
     name := it_name item;
     type := TDir;
     size := None;
     path := it_path item;
     download_url := None;
     repository := Some ("associateattorney/" +:+ repo);
     sha := None;
     created_at := t;
     updated_at := t |}.

Definition is_file (item : remote_item) : bool :=
  match it_type item with ItFile => true | _ => false end.

Definition is_dir (item : remote_item) : bool :=
  match it_type item with ItDir => true | _ => false end.

(** [Array.isArray(data) ? data : [data]], then the two filters; on the
    literal [null] the filter callback reads a property of [null]. *)
Definition items_of (data : option contents_body) : M (list remote_item) :=
  match data with
  | None => throw
  | Some (Items l) => ret l
  | Some (Single i) => ret [i]
  end.

Definition truthy_commit (c : option string) : bool :=
  match c with
  | Some s => Js.truthy s
  | None => false
  end.

(** [fetchAndCacheFolderData(giteaHost, giteaToken, repoName, folderPath)] *)
Definition fetchAndCacheFolderData (repoName : option string) (folderPath : string)
  : M (option (list entry * list entry)) :=
  try_catch
    (match repoName with
     | None => ret None
     | Some repo =>
         if negb (Js.truthy repo) then ret None
         else
           response <- fetch (ReqContents repo folderPath)
                             (fun h => get_contents h repo folderPath) ;;
           if negb (ok response) then ret None
           else
             data <- json response ;;
             items <- items_of data ;;
             e <- get_env ;;
             t <- Date_now ;;
             let files := map (file_of_item e repo t) (List.filter is_file items) in
             let folders := map (folder_of_item repo t) (List.filter is_dir items) in
             commitSha <- getLatestCommitSha (Some repo) "main" ;;
             (if truthy_commit commitSha
              then setCachedData repo folderPath (default "" commitSha)
                     (Some files) (Some folders)
              else ret tt) ;;;
             ret (Some (files, folders))
     end)
    (ret None).

(** [getAllRepositoryContents(giteaHost, giteaToken, repoName)] *)
Definition getAllRepositoryContents (repo : string) : M (option (list tree_item)) :=
  try_catch
    (response <- fetch (ReqTree repo) (fun h => get_tree h repo) ;;
     if negb (ok response) then ret None
     else
       data <- json response ;;
       data <- deref data ;;
       ret (Some (default [] data)))
    (ret None).

(** The keyword heuristics of the enhanced search. *)
Definition suggested_folders (searchTerm : string) : list string :=
  let searchTermLower := Js.toLowerCase searchTerm in
  let has := Js.includes searchTermLower in
  (if has "external" || has "comment" then ["external_comments"] else []) ++
  (if has "doc" || has "pdf" then ["documents"] else []) ++
  (if has "file" then ["files"] else []) ++
  (if has "image" || has "pic" || has "screenshot" then ["images"; "assets"] else []) ++
  (if has "data" then ["data"] else []) ++
  (if has "content" then ["content"] else []) ++
  (if has "src" || has "code" then ["src"] else []) ++
  (if has "public" then ["public"] else []) ++
  (if has "private" then ["private"] else []) ++
  (if has "shared" then ["shared"] else []).

(** The hits a freshly fetched folder contributes.  In the folder loop
    the source rebinds [folderName] to the normalised name of the
    sub-folder, and uses it as search path and as head of the full path. *)
Definition scan_fetched (incFiles incFolders cs : bool)
    (searchTerm folderName : string) (fs ds : list entry) : list search_hit :=
  let normalizedSearchTerm := normalize cs searchTerm in
  let matches (e : entry) :=
    Js.includes (normalize cs (name e)) normalizedSearchTerm in
  (if incFiles then
     map (fun file =>
            {| hit_item := FromEntry file;
               searchPath := folderName;
               fullPath := folderName +:+ "/" +:+ name file;
               matchType := MatchFile;
               matchScore := calculateMatchScore (name file) searchTerm folderName |})
         (List.filter matches fs)
   else []) ++
  (if incFolders then
     map (fun folder =>
            let folderName := normalize cs (name folder) in
            {| hit_item := FromEntry folder;
               searchPath := folderName;
               fullPath := folderName +:+ "/" +:+ name folder;
               matchType := MatchFolder;
               matchScore := calculateMatchScore (name folder) searchTerm folderName |})
         (List.filter matches ds)
   else []).

(** The loop over [foldersToCheck], with its [break]. *)
Fixpoint check_folders (repo : string) (incFiles incFolders cs : bool)
    (searchTerm : string) (maxResults : nat) (foldersToCheck : list string)
    (results : list search_hit) : M (list search_hit) :=
  match foldersToCheck with
  | [] => ret results
  | folderName :: rest =>
      folderData <- fetchAndCacheFolderData (Some repo) folderName ;;
      match folderData with
      | Some (fs, ds) =>
          let results :=
            results ++ scan_fetched incFiles incFolders cs searchTerm folderName fs ds in
          if (maxResults <=? length results)%nat then ret results
          else check_folders repo incFiles incFolders cs searchTerm maxResults rest results
      | None =>
          check_folders repo incFiles incFolders cs searchTerm maxResults rest results
      end
  end.

(** [pathParts.length > 1 ? pathParts.slice(0, -1).join('/') : ''] *)
Definition parent_path (p : string) : string :=
  let pathParts := Js.split Js.slash p in
  if (1 <? length pathParts)%nat
  then String.concat "/" (removelast pathParts)
  else "".

(** One element of the tree listing; the name of an element that is
    looked at is dereferenced. *)
Definition scan_tree_item (incFiles incFolders cs : bool) (searchTerm : string)
    (item : tree_item) (results : list search_hit) : M (list search_hit) :=
  let normalizedSearchTerm := normalize cs searchTerm in
  let look (mt : match_type) (results : list search_hit) : M (list search_hit) :=
    itemName <- deref (tr_name item) ;;
    if Js.includes (normalize cs itemName) normalizedSearchTerm then
      let dir := parent_path (tr_path item) in
      ret (results ++
           [ {| hit_item := FromTree item;
                searchPath := dir;
                fullPath := tr_path item;
                matchType := mt;
                matchScore := calculateMatchScore itemName searchTerm dir |} ])
    else ret results in
  results <- (if incFiles && match tr_type item with ItFile => true | _ => false end
              then look MatchFile results else ret results) ;;
  (if incFolders && match tr_type item with ItDir => true | _ => false end
   then look MatchFolder results else ret results).

(** The loop over the tree listing, with its [break]. *)
Fixpoint scan_tree (incFiles incFolders cs : bool) (searchTerm : string)
    (maxResults : nat) (allContents : list tree_item) (results : list search_hit)
  : M (list search_hit) :=
  match allContents with
  | [] => ret results
  | item :: rest =>
      results <- scan_tree_item incFiles incFolders cs searchTerm item results ;;
      if (maxResults <=? length results)%nat then ret results
      else scan_tree incFiles incFolders cs searchTerm maxResults rest results
  end.

(** [searchCachedDataEnhanced(giteaHost, giteaToken, repoName, searchTerm,
    options)] *)
Definition searchCachedDataEnhanced (repo searchTerm : string)
    (options : search_options) : M (list search_hit) :=
  let includeFiles := default true (includeFiles options) in
  let includeFolders := default true (includeFolders options) in
  let caseSensitive := default false (caseSensitive options) in
  let maxResults := default 200%nat (maxResults options) in
  try_catch
    (cachedResults <- searchCachedData repo searchTerm options ;;
     let results := cachedResults in
     results <-
       (if Js.trim_truthy searchTerm && (length results <? maxResults)%nat then
          cachedPaths <- getAllCachedPaths repo ;;
          rootData <- getCachedData repo "" ;;
          rootFolders <-
            match rootData with
            | Some d => ret (Some (folders d))
            | None =>
                fetched <- fetchAndCacheFolderData (Some repo) "" ;;
                ret (snd <$> fetched)
            end ;;
          let subfolders := map name (default [] rootFolders) in
          let relevantFolders := subfolders ++ suggested_folders searchTerm in
          let foldersToCheck :=
            List.filter (fun folder => negb (existsb (String.eqb folder) cachedPaths))
                        (dedup_in_order relevantFolders) in
          results <- check_folders repo includeFiles includeFolders caseSensitive
                       searchTerm maxResults foldersToCheck results ;;
          if (length results =? 0)%nat then
            allContents <- getAllRepositoryContents repo ;;
            match allContents with
            | Some tree =>
                scan_tree includeFiles includeFolders caseSensitive searchTerm
                          maxResults tree results
            | None => ret results
            end
          else ret results
        else ret results) ;;
     results <- sort_hits results ;;
     ret (slice0 maxResults results))
    (searchCachedData repo searchTerm options).

(** ** The directory view *)

(** [try { m } finally { f }] *)
Definition try_finally {A} (m : M A) (f : M unit) : M A :=
  fun w => match m w with
           | Ret a w' => (f ;;; ret a) w'
           | Throw w' => (f ;;; throw) w'
           end.

Definition set_listing (fs ds : list entry) : M unit :=
  v <- get_view ;;
  put_view {| files_value := fs; folders_value := ds; loading := loading v;
              currentFolder := currentFolder v;
              currentWorkspace := currentWorkspace v |}.

Definition set_loading (b : bool) : M unit :=
  v <- get_view ;;
  put_view {| files_value := files_value v; folders_value := folders_value v;
              loading := b; currentFolder := currentFolder v;
              currentWorkspace := currentWorkspace v |}.

Definition reset_to_root : M unit :=
  v <- get_view ;;
  put_view {| files_value := files_value v; folders_value := folders_value v;
              loading := loading v; currentFolder := None;
              currentWorkspace := currentWorkspace v |}.

(** [validateGiteaConfig()] *)
Definition validateGiteaConfig (e : env) : bool :=
  Js.truthy (giteaHost e) && Js.truthy (giteaToken e).

(** The listing of a response shown in the view. *)
Definition show_items (repo : string) (items : list remote_item) : M unit :=
  e <- get_env ;;
  t <- Date_now ;;
  set_listing (map (file_of_item e repo t) (List.filter is_file items))
              (map (folder_of_item repo t) (List.filter is_dir items)).

(** [loadContentsDirectly(path, abortController)].  The view keeps the
    path of the current folder; messages, breadcrumbs, the address bar
    and the pending selection are not part of the embedding. *)
Definition loadContentsDirectly (path : string) : M bool :=
  try_catch
    (v <- get_view ;;
     repo <- deref (currentWorkspace v) ;;
     response <- fetch (ReqContents repo path) (fun h => get_contents h repo path) ;;
     if (http_status response =? 404)%Z then
       set_listing [] [] ;;;
       v <- get_view ;;
       (if Js.truthy path && bool_decide (is_Some (currentFolder v)) then
          reset_to_root ;;;
          rootResponse <- fetch (ReqContents repo "") (fun h => get_contents h repo "") ;;
          if ok rootResponse then
            rootData <- json rootResponse ;;
            rootItems <- items_of rootData ;;
            show_items repo rootItems
          else ret tt
        else ret tt) ;;;
       ret true
     else if negb (ok response) then throw
     else
       data <- json response ;;
       items <- items_of data ;;
       show_items repo items ;;;
       ret true)
    (ret false).

(** [loadContents()], for a call that finds no request in flight. *)
Definition loadContents : M unit :=
  v <- get_view ;;
  match currentWorkspace v with
  | None => ret tt
  | Some repoName =>
      e <- get_env ;;
      if negb (validateGiteaConfig e) then ret tt
      else
        let path := default "" (currentFolder v) in
        try_finally
          (try_catch
             (latestCommitSha <- getLatestCommitSha (Some repoName) "main" ;;
              if negb (truthy_commit latestCommitSha) then
                loadContentsDirectly path ;;; ret tt
              else
                storedCommitSha <- getCachedCommitSha repoName ;;
                hit <-
                  (if truthy_commit storedCommitSha
                      && bool_decide (storedCommitSha = latestCommitSha) then
                     cachedData <- getCachedData repoName path ;;
                     match cachedData with
                     | Some d => set_listing (files d) (folders d) ;;; ret true
                     | None => ret false
                     end
                   else ret false) ;;
                if hit : bool then ret tt
                else
                  set_loading true ;;;
                  freshData <- loadContentsDirectly path ;;
                  if freshData : bool then
                    v <- get_view ;;
                    setCachedData repoName path (default "" latestCommitSha)
                      (Some (files_value v)) (Some (folders_value v))
                  else ret tt)
             (loadContentsDirectly path ;;; ret tt))
          (set_loading false)
  end.

(** ** Worlds used by the examples *)

Definition not_found {B} : fetch_outcome B :=
  Resolved {| http_status := 404; body := NotJson |}.

Definition answers {B} (b : B) : fetch_outcome B :=
  Resolved {| http_status := 200; body := Json b |}.

(** A host that knows no repository. *)
Definition no_host : remote_host :=
  {| get_branch := fun _ _ => not_found;
     get_commits := fun _ _ => not_found;
     get_repo := fun _ => not_found;
     get_contents := fun _ _ => not_found;
     get_compare := fun _ _ _ => not_found;
     get_tree := fun _ => not_found |}.

(** Comparison of the character codes, as a collation. *)
Definition code_order (a b : string) : Z :=
  match OrdersEx.String_as_OT.compare a b with
  | Lt => -1
  | Eq => 0
  | Gt => 1
  end.

Definition empty_store : store :=
  {| memoryCache := []; commitCache := ∅; localStorage := []; timers := [] |}.

Definition demo_env (t : Z) (h : remote_host) : env :=
  {| now := t; host := h; localeCompare := code_order;
     storage_get_throws := false; storage_set_throws := false;
     giteaHost := "https://git.example"; giteaToken := "secret" |}.

Definition demo_view (dir : option string) : view :=
  {| files_value := []; folders_value := []; loading := false;
     currentFolder := dir; currentWorkspace := Some "demo" |}.

Definition demo_world (t : Z) (h : remote_host) (s : store) (dir : option string) : world :=
  {| w_env := demo_env t h; w_store := s; w_log := []; w_view := demo_view dir |}.

(** ** Vocabulary of the statements *)

(** A repository name is missing when it is absent or empty. *)
Definition missing (repoName : option string) : Prop :=
  repoName = None \/ repoName = Some "".

(** The compare call fails or throws: the request is rejected, the
    status is not a success, or the body is not a JSON object. *)
Definition compare_failed (o : fetch_outcome compare_body) : bool :=
  match o with
  | NetworkError => true
  | Resolved r =>
      negb (ok r) || match body r with Json _ => false | _ => true end
  end.

(** The number of segments of a path: one more than the number of its
    slashes, and none for the root path. *)
Fixpoint count_slashes (s : string) : nat :=
  match s with
  | EmptyString => O
  | String c s' =>
      if Ascii.eqb c Js.slash then S (count_slashes s') else count_slashes s'
  end.

Definition segment_count (p : string) : Z :=
  match p with
  | EmptyString => 0
  | _ => Z.of_nat (S (count_slashes p))
  end.

(** The base tier of a name against a term, under the given case mode. *)
Definition base_tier (caseSensitive : bool) (itemName term : string) : Z :=
  let n := normalize caseSensitive itemName in
  let t := normalize caseSensitive term in
  if String.eqb n t then 100
  else if Js.startsWith n t then 50
  else if Js.includes n t then 25
  else 0.

(** The relevance score as the specification words it. *)
Definition spec_score (caseSensitive : bool) (itemName term origin : string) : Z :=
  base_tier caseSensitive itemName term
  + Z.max 0 (10 - segment_count origin)
  + (if Js.includes itemName term then 5 else 0).

Definition plain_file (n : string) : entry :=
  {| id := n; name := n; type := TFile; size := Some 1; path := n;
     download_url := None; repository := None; sha := Some n;
     created_at := 0; updated_at := 0 |}.

Definition plain_folder (n : string) : entry :=
  {| id := n; name := n; type := TDir; size := None; path := n;
     download_url := None; repository := None; sha := None;
     created_at := 0; updated_at := 0 |}.

(** A single path segment: a name without slash. *)
Fixpoint is_segment (s : string) : bool :=
  match s with
  | EmptyString => true
  | String c s' => negb (Ascii.eqb c Js.slash) && is_segment s'
  end.

(** [f] is a direct child of the directory [dir], one segment [seg]
    below it; the root directory is the empty path. *)
Definition child_of (dir f seg : string) : Prop :=
  f = (if Js.truthy dir then dir +:+ "/" else "") +:+ seg /\ is_segment seg = true.

(** The turns of the loop one after the other; a turn that cannot be
    taken leaves the lists as they are. *)
Definition patch_in_turn (now : Z) (dir : string) (cs : list change)
    (lists : list entry * list entry) : list entry * list entry :=
  fold_left
    (fun acc c => default acc (apply_change now dir c (fst acc) (snd acc)))
    cs lists.

Definition removed_change (f : string) : change :=
  {| filename := Some f; status := "removed"; ch_sha := None;
     additions := 0; deletions := 0 |}.

Definition listing_of (dir : string) (fs ds : list entry) : cache_data :=
  {| version := CACHE_VERSION; timestamp := 0; lastFetched := 0;
     commitSha := "abc123"; cd_path := dir; files := fs; folders := ds;
     repoName := "demo" |}.

(** What one step of the version cascade comes to on a host: a token,
    nothing usable, or an exception (the request is rejected, or the
    body of a successful response cannot be read). *)
Inductive step_result := Usable (token : string) | Nothing | Raised.

Definition branch_step (h : remote_host) (repo branch : string) : step_result :=
  match get_branch h repo branch with
  | NetworkError => Raised
  | Resolved r =>
      if ok r then
        match body r with
        | NotJson => Raised
        | Json (Some commit_id) =>
            if Js.truthy commit_id then Usable commit_id else Nothing
        | _ => Nothing
        end
      else Nothing
  end.

Definition commits_step (h : remote_host) (repo branch : string) : step_result :=
  match get_commits h repo branch with
  | NetworkError => Raised
  | Resolved r =>
      if ok r then
        match body r with
        | NotJson => Raised
        | Json (sha0 :: _) => Usable sha0
        | _ => Nothing
        end
      else Nothing
  end.

(** The repository-info request itself yields no token. *)
Definition repo_step (h : remote_host) (repo : string) : step_result :=
  match get_repo h repo with
  | NetworkError => Raised
  | Resolved r =>
      if ok r then
        match body r with
        | Json _ => Nothing
        | _ => Raised
        end
      else Nothing
  end.

Definition repo_data (h : remote_host) (repo : string) : option repo_info :=
  match get_repo h repo with
  | NetworkError => None
  | Resolved r =>
      if ok r then
        match body r with
        | Json info => Some info
        | _ => None
        end
      else None
  end.

Definition contents_step (h : remote_host) (t : Z) (repo : string) : step_result :=
  match get_contents h repo "" with
  | NetworkError => Raised
  | Resolved r =>
      if ok r then Usable ("contents-based-" +:+ Js.number_toString t)
      else Nothing
  end.

(** The steps in their order, each with the request it issues (the
    empty-repository step issues none) and what it comes to. *)
Definition plan (h : remote_host) (t : Z) (repo branch : string)
  : list (option request * step_result) :=
  [ (Some (ReqBranch repo branch), branch_step h repo branch);
    (Some (ReqCommits repo branch), commits_step h repo branch);
    (Some (ReqRepo repo), repo_step h repo) ]
  ++ match repo_data h repo with
     | Some info =>
         match default_branch info with
         | Some d =>
             if Js.truthy d
             then [ (Some (ReqBranch repo d), branch_step h repo d);
                    (Some (ReqCommits repo d), commits_step h repo d) ]
             else []
         | None => []
         end
         ++ [ (None, if repo_empty info
                     then Usable ("empty-repo-" +:+ Js.number_toString t)
                     else Nothing) ]
     | None => []
     end
  ++ [ (Some (ReqContents repo ""), contents_step h t repo) ].

Definition requests_of (steps : list (option request * step_result)) : list request :=
  omap fst steps.

(** Walk the steps in order and stop at the first one that is usable or
    raises: the token, and the requests issued. *)
Fixpoint first_usable (steps : list (option request * step_result))
  : option string * list request :=
  match steps with
  | [] => (None, [])
  | (rq, res) :: rest =>
      match res with
      | Usable token => (Some token, requests_of [(rq, res)])
      | Raised => (None, requests_of [(rq, res)])
      | Nothing =>
          (fst (first_usable rest), requests_of [(rq, res)] ++ snd (first_usable rest))
      end
  end.

(** A host whose branch endpoint is unreachable while its history
    endpoint answers. *)
Definition flaky_host : remote_host :=
  {| get_branch := fun _ _ => NetworkError;
     get_commits := fun _ _ => answers ["abc123"];
     get_repo := fun _ => not_found;
     get_contents := fun _ _ => not_found;
     get_compare := fun _ _ _ => not_found;
     get_tree := fun _ => not_found |}.

(** A host for a repository with commits on its default branch. *)
Definition live_host : remote_host :=
  {| get_branch := fun _ b => if String.eqb b "main" then answers (Some "abc123") else not_found;
     get_commits := fun _ _ => answers ["abc123"];
     get_repo := fun _ => answers {| default_branch := Some "main"; repo_empty := false |};
     get_contents := fun _ _ => answers (Items []);
     get_compare := fun _ _ _ => not_found;
     get_tree := fun _ => not_found |}.

(** The world after some more requests have been recorded. *)
Definition logged (w : world) (trace : list request) : world :=
  with_log w (w_log w ++ trace).

Definition step_outcome (res : step_result) (w : world) : outcome (option string) :=
  match res with
  | Usable token => Ret (Some token) w
  | Nothing => Ret None w
  | Raised => Throw w
  end.

(** The walk stops on a step that raises. *)
Fixpoint raises (steps : list (option request * step_result)) : bool :=
  match steps with
  | [] => false
  | (_, Usable _) :: _ => false
  | (_, Raised) :: _ => true
  | (_, Nothing) :: rest => raises rest
  end.

(** The walk as an outcome of the monad. *)
Definition cascade_outcome (steps : list (option request * step_result)) (w : world)
  : outcome (option string) :=
  if raises steps then Throw (logged w (snd (first_usable steps)))
  else Ret (fst (first_usable steps)) (logged w (snd (first_usable steps))).

(** The part of the plan that follows from the repository-info request. *)
Definition repo_plan (h : remote_host) (t : Z) (repo : string)
  : list (option request * step_result) :=
  (Some (ReqRepo repo), repo_step h repo)
  :: match repo_data h repo with
     | Some info =>
         match default_branch info with
         | Some d =>
             if Js.truthy d
             then [ (Some (ReqBranch repo d), branch_step h repo d);
                    (Some (ReqCommits repo d), commits_step h repo d) ]
             else []
         | None => []
         end
         ++ [ (None, if repo_empty info
                     then Usable ("empty-repo-" +:+ Js.number_toString t)
                     else Nothing) ]
     | None => []
     end.

(** The entry the volatile tier would serve for a key. *)
Definition memory_fresh (key : string) (w : world) : option cache_data :=
  match Assoc.get key (memoryCache (w_store w)) with
  | Some d =>
      if String.eqb (version d) CACHE_VERSION
         && (now (w_env w) - timestamp d <? MAX_CACHE_AGE)%Z
      then Some d else None
  | None => None
  end.

(** A read of the durable tier for the key throws: the storage itself,
    or the parse of the text kept under the key. *)
Definition durable_read_throws (key : string) (w : world) : Prop :=
  storage_get_throws (w_env w) = true
  \/ Assoc.get key (localStorage (w_store w)) = Some Garbage.

(** The durable tier of a page started with a commit record written by
    another version of the schema. *)
Definition old_schema_store : store :=
  {| memoryCache := [];
     commitCache := ∅;
     localStorage :=
       [ (getCommitCacheKey "demo",
          CommitJson {| c_version := "0.9"; c_timestamp := 1000;
                        c_commitSha := "abc123" |}) ];
     timers := [] |}.

(** The durable tier with a root listing stored at instant 0. *)
Definition day_old_store : store :=
  {| memoryCache := [];
     commitCache := ∅;
     localStorage :=
       [ (getCacheKey "demo" "",
          ListingJson (listing_of "" [plain_file "a.txt"] [])) ];
     timers := [] |}.

(** A world whose durable tier throws on every write. *)
Definition quota_world (t : Z) (s : store) : world :=
  {| w_env := {| now := t; host := no_host; localeCompare := code_order;
                 storage_get_throws := false; storage_set_throws := true;
                 giteaHost := "https://git.example"; giteaToken := "secret" |};
     w_store := s; w_log := []; w_view := demo_view None |}.

(** ** Frames *)

(** Every outcome of [m] is related to the world it started from. *)
Definition preserves {A} (R : world -> world -> Prop) (m : M A) : Prop :=
  forall w, R w (final_world (m w)).

(** [m] returns, whatever the world. *)
Definition total {A} (m : M A) : Prop :=
  forall w, exists a w', m w = Ret a w'.

(** Only the store may differ. *)
Definition store_only (w w' : world) : Prop :=
  w_env w' = w_env w /\ w_log w' = w_log w /\ w_view w' = w_view w.

(** The store and the environment are the same. *)
Definition store_kept (w w' : world) : Prop :=
  w_env w' = w_env w /\ w_store w' = w_store w.

(** The volatile listing map is the same, and so is the environment. *)
Definition memory_kept (w w' : world) : Prop :=
  w_env w' = w_env w /\ memoryCache (w_store w') = memoryCache (w_store w).

(** The record [setCachedData] builds at instant [t]. *)
Definition memory_entry (repo dir commit : string) (t : Z) (fs ds : list entry)
  : cache_data :=
  {| version := CACHE_VERSION; timestamp := t; lastFetched := t;
     commitSha := commit; cd_path := dir; files := fs; folders := ds;
     repoName := repo |}.

(** The log may have grown; nothing else is said. *)
Definition log_grows (w w' : world) : Prop :=
  exists more, w_log w' = w_log w ++ more.

(** The host answers as for a repository without commits: no branch, no
    history, and a repository info that says empty. *)
Definition reports_empty (h : remote_host) (repo branch : string) : Prop :=
  branch_step h repo branch = Nothing
  /\ commits_step h repo branch = Nothing
  /\ exists info,
       repo_data h repo = Some info
       /\ repo_empty info = true
       /\ match default_branch info with
          | Some d =>
              Js.truthy d = true ->
              branch_step h repo d = Nothing /\ commits_step h repo d = Nothing
          | None => True
          end.

(** A host for a repository without commits. *)
Definition empty_repo_host : remote_host :=
  {| get_branch := fun _ _ => not_found;
     get_commits := fun _ _ => not_found;
     get_repo := fun _ => answers {| default_branch := Some "main"; repo_empty := true |};
     get_contents := fun _ _ => not_found;
     get_compare := fun _ _ _ => not_found;
     get_tree := fun _ => not_found |}.

(** A host that can tell its commits in no way, and lists its content. *)
Definition listing_only_host : remote_host :=
  {| get_branch := fun _ _ => not_found;
     get_commits := fun _ _ => not_found;
     get_repo := fun _ => not_found;
     get_contents := fun _ dir =>
       if String.eqb dir "docs"
       then answers (Items [ {| it_name := "a.txt"; it_type := ItFile; it_size := 3;
                                it_path := "docs/a.txt"; it_sha := "s1" |} ])
       else answers (Items [ {| it_name := "docs"; it_type := ItDir; it_size := 0;
                                it_path := "docs"; it_sha := "s0" |} ]);
     get_compare := fun _ _ _ => not_found;
     get_tree := fun _ => not_found |}.

(** The world in which a run ended. *)
Definition after {A} (m : M A) (w : world) : world := final_world (m w).

(** The same world at another instant. *)
Definition at_time (t : Z) (w : world) : world :=
  with_env w {| now := t; host := host (w_env w);
                localeCompare := localeCompare (w_env w);
                storage_get_throws := storage_get_throws (w_env w);
                storage_set_throws := storage_set_throws (w_env w);
                giteaHost := giteaHost (w_env w);
                giteaToken := giteaToken (w_env w) |}.

(** A store that holds the root listing and the token abc123. *)
Definition warm_store : store :=
  {| memoryCache := [ (getCacheKey "demo" "", listing_of "" [plain_file "a.txt"] []) ];
     commitCache := {[ "demo" := {| c_version := CACHE_VERSION; c_timestamp := 0;
                                    c_commitSha := "abc123" |} ]};
     localStorage := [];
     timers := [] |}.

(** The folder "docs" of a host that only lists, loaded once at instant
    5, with the deferred writes done. *)
Definition docs_loaded_once : world :=
  after run_timers
    (after loadContents (demo_world 5 listing_only_host empty_store (Some "docs"))).

(** The number of segments of a full path. *)
Definition full_depth (h : search_hit) : Z :=
  Z.of_nat (S (count_slashes (fullPath h))).

(** The ranking order in the words of the specification: higher score
    first, then fewer segments of the full path, then the collation of
    the full paths. *)
Definition ranks_before (coll : string -> string -> Z) (a b : search_hit) : Prop :=
  matchScore a > matchScore b
  \/ (matchScore a = matchScore b
      /\ (full_depth a < full_depth b
          \/ (full_depth a = full_depth b /\ coll (fullPath a) (fullPath b) <= 0))).

(** A collation that orders every two strings, transitively. *)
Definition consistent_collation (coll : string -> string -> Z) : Prop :=
  (forall a b, coll a b <= 0 \/ coll b a <= 0)
  /\ (forall a b c, coll a b <= 0 -> coll b c <= 0 -> coll a c <= 0).

(** The options with another bound on the number of results. *)
Definition with_maxResults (o : search_options) (m : nat) : search_options :=
  {| includeFiles := includeFiles o; includeFolders := includeFolders o;
     caseSensitive := caseSensitive o; maxResults := Some m |}.

Definition no_options : search_options :=
  {| includeFiles := None; includeFolders := None; caseSensitive := None;
     maxResults := None |}.

(** The environment is the same. *)
Definition env_kept (w w' : world) : Prop := w_env w' = w_env w.

Definition dir_item (n : string) : remote_item :=
  {| it_name := n; it_type := ItDir; it_size := 0; it_path := n; it_sha := n |}.

Definition file_item (dir n : string) : remote_item :=
  {| it_name := n; it_type := ItFile; it_size := 1;
     it_path := dir +:+ "/" +:+ n; it_sha := n |}.

(** A repository with two folders: "f1" holds "xreport", "f2" holds
    "report". *)
Definition two_folder_host : remote_host :=
  {| get_branch := fun _ _ => answers (Some "abc123");
     get_commits := fun _ _ => answers ["abc123"];
     get_repo := fun _ => answers {| default_branch := Some "main"; repo_empty := false |};
     get_contents := fun _ dir =>
       if String.eqb dir "" then answers (Items [dir_item "f1"; dir_item "f2"])
       else if String.eqb dir "f1" then answers (Items [file_item "f1" "xreport"])
       else if String.eqb dir "f2" then answers (Items [file_item "f2" "report"])
       else not_found;
     get_compare := fun _ _ _ => not_found;
     get_tree := fun _ => not_found |}.

(** A store whose volatile tier holds a root listing with three names. *)
Definition three_names_store : store :=
  {| memoryCache :=
       [ (getCacheKey "demo" "",
          listing_of "" [plain_file "my-report-2023.txt"; plain_file "Report.pdf"]
                        [plain_folder "reports"]) ];
     commitCache := ∅; localStorage := []; timers := [] |}.

(** The order a comparator stands for: [a] may come before [b]. *)
Definition cmp_le {A} (cmp : A -> A -> Z) (a b : A) : Prop := cmp a b <= 0.

(** ** Further operations of the cache *)

(** [getLastFetchTime(repoName, path)]: [cachedData?.lastFetched || null];
    the instant 0 is falsy. *)
Definition getLastFetchTime (repo dir : string) : M (option Z) :=
  try_catch
    (cachedData <- getCachedData repo dir ;;
     match cachedData with
     | Some d => if (lastFetched d =? 0)%Z then ret None else ret (Some (lastFetched d))
     | None => ret None
     end)
    (ret None).

(** [clearRepositoryCache(repoName)] *)
Definition clearRepositoryCache (repo : string) : M unit :=
  try_catch
    (s <- get_store ;;
     let memoryKeysToDelete :=
       map fst (List.filter (fun kv => String.eqb (repoName (snd kv)) repo)
                            (memoryCache s)) in
     for_each memoryKeysToDelete memoryCache_delete ;;;
     commitCache_delete repo ;;;
     keys <- localStorage_keys ;;
     let repoKeys :=
       List.filter
         (fun key => Js.startsWith key (CACHE_PREFIX +:+ repo +:+ "_")
                     || String.eqb key (getCommitCacheKey repo))
         keys in
     for_each repoKeys localStorage_removeItem)
    (ret tt).

(** [getAllCachedData(repoName)]: the files, the folders and the paths
    of the object it returns; an element is paired with its
    [searchPath] and [fullPath]. *)
Record all_cached := {
  all_files : list (entry * string * string);
  all_folders : list (entry * string * string);
  all_paths : list string
}.

Definition with_paths (dir : string) (e : entry) : entry * string * string :=
  (e, dir, if Js.truthy dir then dir +:+ "/" +:+ name e else name e).

Fixpoint collect_cached (repo : string) (paths : list string) (acc : all_cached)
  : M all_cached :=
  match paths with
  | [] => ret acc
  | p :: paths' =>
      cachedData <- getCachedData repo p ;;
      match cachedData with
      | Some d =>
          collect_cached repo paths'
            {| all_files := all_files acc ++ map (with_paths p) (files d);
               all_folders := all_folders acc ++ map (with_paths p) (folders d);
               all_paths := all_paths acc ++ [p] |}
      | None => collect_cached repo paths' acc
      end
  end.

Definition getAllCachedData (repo : string) : M all_cached :=
  let nothing := {| all_files := []; all_folders := []; all_paths := [] |} in
  try_catch
    (cachedPaths <- getAllCachedPaths repo ;;
     collect_cached repo cachedPaths nothing)
    (ret nothing).

(** [updateLastFetchTime()]: the view of the embedding has no last-fetch
    display, the read is kept for what it does to the store. *)
Definition updateLastFetchTime : M unit :=
  v <- get_view ;;
  match currentWorkspace v with
  | Some repo =>
      if Js.truthy repo
      then getLastFetchTime repo (default "" (currentFolder v)) ;;; ret tt
      else ret tt
  | None => ret tt
  end.

(** [refreshCache()]; messages and the statistics widget are not part of
    the embedding. *)
Definition refreshCache : M unit :=
  v <- get_view ;;
  match currentWorkspace v with
  | None => ret tt
  | Some repo =>
      try_finally
        (try_catch
           (set_loading true ;;;
            clearRepositoryCache repo ;;;
            loadContents ;;;
            updateLastFetchTime)
           (ret tt))
        (set_loading false)
  end.

(** A page reload: the volatile maps and the pending continuations are
    gone, the durable tier stays. *)
Definition reload (w : world) : world :=
  with_store w {| memoryCache := []; commitCache := ∅;
                  localStorage := localStorage (w_store w); timers := [] |}.

(** The part of a cache key that stands for the path. *)
Definition slot (dir : string) : string :=
  if Js.truthy (Js.strip_slashes dir) then Js.strip_slashes dir else "root".


(** The map without the keys of a list. *)
Definition remove_all {V} (keys : list string) (m : list (string * V))
  : list (string * V) :=
  fold_left (fun m k => Assoc.remove k m) keys m.

(** The name a hit was matched on. *)
Definition hit_name (h : search_hit) : option string :=
  match hit_item h with
  | FromEntry e => Some (name e)
  | FromTree t => tr_name t
  end.

(** A hit is sound for a search: its name contains the term, both
    normalised as the search asks, its score is that of the name under
    its search path, and its kind is one the search includes. *)
Definition sound_hit (incFiles incFolders cs : bool) (searchTerm : string)
    (h : search_hit) : Prop :=
  (exists n, hit_name h = Some n
             /\ Js.includes (normalize cs n) (normalize cs searchTerm) = true
             /\ matchScore h = calculateMatchScore n searchTerm (searchPath h))
  /\ match matchType h with
     | MatchFile => incFiles = true
     | MatchFolder => incFolders = true
     end.

(** Whatever [m] returns satisfies [P]. *)
Definition yields {A} (P : A -> Prop) (m : M A) : Prop :=
  forall w a w', m w = Ret a w' -> P a.

(** A world whose durable tier throws on every read. *)
Definition unreadable_world (t : Z) (s : store) : world :=
  {| w_env := {| now := t; host := no_host; localeCompare := code_order;
                 storage_get_throws := true; storage_set_throws := false;
                 giteaHost := "https://git.example"; giteaToken := "secret" |};
     w_store := s; w_log := []; w_view := demo_view None |}.

(** An element as [updateFileInCache] builds it at instant [now]. *)
Definition patched_file (now : Z) (e : entry) : Prop :=
  type e = TFile /\ created_at e = now /\ updated_at e = now
  /\ download_url e = None /\ repository e = None
  /\ Js.includes (name e) "/" = false.

(** ** Favorites *)

(** An element of [favorites.value]: [{ id, name, type, path, addedAt }];
    [addedAt] holds the instant whose ISO rendering the source stores. *)
Record favorite := {
  fav_id : string;
  fav_name : string;
  fav_type : entry_type;
  fav_path : string;
  addedAt : Z
}.

(** The text under a favorites key: text that [JSON.parse] rejects, or
    the JSON of a list as [saveFavorites] writes it. *)
Inductive favorites_text := FavGarbage | FavJson (l : list favorite).

(** The favorites of the view: the list shown, the id of the current
    workspace as the key renders it, and the favorites keys of the
    durable tier.  These keys start with [favorites_] and those of the
    cache with [gitea_repo_cache_]; they are kept in a map of their
    own. *)
Record fav_state := {
  favorites_value : list favorite;
  workspace_id : string;
  favorites_storage : list (string * favorites_text)
}.

Definition set_favorites (st : fav_state) (l : list favorite) : fav_state :=
  {| favorites_value := l; workspace_id := workspace_id st;
     favorites_storage := favorites_storage st |}.

(** The current workspace changes. *)
Definition set_workspace (st : fav_state) (i : string) : fav_state :=
  {| favorites_value := favorites_value st; workspace_id := i;
     favorites_storage := favorites_storage st |}.

Definition favorites_key (st : fav_state) : string :=
  "favorites_" +:+ workspace_id st.

Definition type_eqb (a b : entry_type) : bool :=
  match a, b with
  | TFile, TFile | TDir, TDir => true
  | _, _ => false
  end.

(** What a favorite points at. *)
Definition target : Type := string * entry_type * string.

Definition fav_target (fav : favorite) : target :=
  (fav_id fav, fav_type fav, fav_path fav).

Definition item_target (item : entry) : target :=
  (id item, type item, path item).

(** [fav.id === x.id && fav.type === x.type && fav.path === x.path] *)
Definition same_target (x : target) (fav : favorite) : bool :=
  String.eqb (fav_id fav) (fst (fst x))
  && type_eqb (fav_type fav) (snd (fst x))
  && String.eqb (fav_path fav) (snd x).

(** [arr.findIndex(f)], [None] for -1. *)
Fixpoint find_index {A} (f : A -> bool) (l : list A) : option nat :=
  match l with
  | [] => None
  | x :: l' => if f x then Some 0%nat else S <$> find_index f l'
  end.

(** [loadFavorites()]: a missing (or empty) text leaves the list as it
    is. *)
Definition loadFavorites (e : env) (st : fav_state) : fav_state :=
  if storage_get_throws e then set_favorites st []
  else
    match Assoc.get (favorites_key st) (favorites_storage st) with
    | None => st
    | Some FavGarbage => set_favorites st []
    | Some (FavJson l) => set_favorites st l
    end.

(** [saveFavorites()] *)
Definition saveFavorites (e : env) (st : fav_state) : fav_state :=
  if storage_set_throws e then st
  else
    {| favorites_value := favorites_value st; workspace_id := workspace_id st;
       favorites_storage :=
         Assoc.set (favorites_key st) (FavJson (favorites_value st))
           (favorites_storage st) |}.

(** [isFavorite(item)] *)
Definition isFavorite (st : fav_state) (item : entry) : bool :=
  existsb (same_target (item_target item)) (favorites_value st).

(** [toggleFavorite(item)]; the messages are not part of the
    embedding. *)
Definition toggleFavorite (e : env) (st : fav_state) (item : entry) : fav_state :=
  let favs := favorites_value st in
  saveFavorites e
    (set_favorites st
       match find_index (same_target (item_target item)) favs with
       | Some existingIndex => delete existingIndex favs
       | None =>
           favs ++ [ {| fav_id := id item; fav_name := name item;
                        fav_type := type item; fav_path := path item;
                        addedAt := now e |} ]
       end).

(** [removeFavorite(favorite)] *)
Definition removeFavorite (e : env) (st : fav_state) (favorite : favorite)
  : fav_state :=
  let favs := favorites_value st in
  match find_index (same_target (fav_target favorite)) favs with
  | Some index => saveFavorites e (set_favorites st (delete index favs))
  | None => st
  end.

(** A reloaded page starts with an empty list and loads the favorites
    of the workspace. *)
Definition reload_favorites (e : env) (st : fav_state) : fav_state :=
  loadFavorites e (set_favorites st []).
(** * Properties *)

(** ** The string primitives on examples *)

Example score_exact : calculateMatchScore "Report.pdf" "report.pdf" "" = 110.
Proof. reflexivity. Qed.

Example score_nested : calculateMatchScore "my-report.txt" "report" "a/b" = 38.
Proof. reflexivity. Qed.

Example split_ex : Js.split Js.slash "a//b/" = ["a"; ""; "b"; ""].
Proof. reflexivity. Qed.

Example strip_ex : Js.strip_slashes "//docs/a//" = "docs/a".
Proof. reflexivity. Qed.

Example now_ex : Js.number_toString 1700000000123 = "1700000000123".
Proof. reflexivity. Qed.

(** ** Missing repository name *)

(** C10: with a missing or empty repository name, getLatestCommitSha and
    fetchAndCacheFolderData return null and leave the world as it is: no
    request is recorded and neither cache tier changes. *)
Theorem C10_missing_repo_returns_null :
  forall (repoName : option string) (branch folderPath : string) (w : world),
    missing repoName ->
    getLatestCommitSha repoName branch w = Ret None w /\
    fetchAndCacheFolderData repoName folderPath w = Ret None w.
Proof.
  intros repoName branch folderPath w [-> | ->]; split; reflexivity.
Qed.

Lemma C10_missing_repo_witness :
  getLatestCommitSha (Some "") "main" (demo_world 5 no_host empty_store None)
    = Ret None (demo_world 5 no_host empty_store None) /\
  fetchAndCacheFolderData (Some "") "docs" (demo_world 5 no_host empty_store None)
    = Ret None (demo_world 5 no_host empty_store None).
Proof.
  apply (C10_missing_repo_returns_null (Some "") "main" "docs").
  right; reflexivity.
Defined.

(** ** Diff between two commits *)

Lemma getCommitChanges_pseudo repo fromCommit toCommit w :
  is_pseudo_commit fromCommit || is_pseudo_commit toCommit = true ->
  getCommitChanges repo fromCommit toCommit w = Ret refresh_needed w.
Proof.
  intros H. unfold getCommitChanges, try_catch. rewrite H. reflexivity.
Qed.

Lemma getCommitChanges_failed repo fromCommit toCommit w :
  compare_failed (get_compare (host (w_env w)) repo fromCommit toCommit) = true ->
  returned (getCommitChanges repo fromCommit toCommit w) = Some refresh_needed.
Proof.
  intros H. unfold getCommitChanges, try_catch.
  destruct (is_pseudo_commit fromCommit || is_pseudo_commit toCommit); [reflexivity|].
  unfold bind, fetch.
  destruct (get_compare _ _ _ _) as [|r]; [reflexivity|].
  simpl in H. destruct (ok r); simpl in *; [|reflexivity].
  unfold json. destruct (body r); try discriminate; reflexivity.
Qed.



(** ** Search relevance *)

Lemma split_length (s : string) :
  length (Js.split Js.slash s) = S (count_slashes s).
Proof.
  induction s as [|c s IH]; simpl; [reflexivity|].
  destruct (Ascii.eqb c Js.slash); simpl; [now rewrite IH|].
  destruct (Js.split Js.slash s); simpl in *; [discriminate | exact IH].
Qed.

Lemma path_depth_segments (p : string) :
  (if Js.truthy p then Z.of_nat (length (Js.split Js.slash p)) else 0)
  = segment_count p.
Proof.
  destruct p as [|c p]; [reflexivity|].
  unfold segment_count. rewrite split_length. reflexivity.
Qed.

(** C6 (as the code has it): the score is one base tier, always compared
    case-folded whatever the caseSensitive option, plus
    max(0, 10 - segment count of the origin path), plus 5 when the raw
    name contains the raw term. *)
Theorem C6_score_is_case_folded_tier_plus_bonuses :
  forall (itemName term origin : string),
    calculateMatchScore itemName term origin = spec_score false itemName term origin.
Proof.
  intros itemName term origin.
  unfold calculateMatchScore, spec_score, base_tier, normalize.
  rewrite path_depth_segments.
  destruct (Js.includes itemName term); lia.
Qed.

(** C6, as stated, fails in case-sensitive mode: the file "aA" found for
    the term "A" is scored 65 (the case-folded name starts with the
    folded term), where the case-sensitive tiers give 25 + 10 + 5. *)
Lemma C6_case_sensitive_counterexample :
  map matchScore (scan_listing true true true "A" "" [plain_file "aA"] []) = [65]
  /\ spec_score true "aA" "A" "" = 40
  /\ calculateMatchScore "aA" "A" "" <> spec_score true "aA" "A" "".
Proof. repeat split. discriminate. Qed.

(** ** Diff applier *)

Lemma append_cons (c : ascii) (p s : string) :
  String c p +:+ s = String c (p +:+ s).
Proof. reflexivity. Qed.

Lemma prefix_app (p s : string) : String.prefix p (p +:+ s) = true.
Proof.
  induction p as [|c p IH]; simpl; [now destruct s|].
  destruct (ascii_dec c c); [exact IH | contradiction].
Qed.

Lemma substring_from_app (p s : string) :
  Js.substring_from (String.length p) (p +:+ s) = s.
Proof. induction p as [|c p IH]; simpl; [now destruct s | exact IH]. Qed.

Lemma prefix_split (p f : string) :
  String.prefix p f = true -> f = p +:+ Js.substring_from (String.length p) f.
Proof.
  revert f. induction p as [|c p IH]; intros f H; simpl in *.
  - now destruct f.
  - destruct f as [|c' f]; [discriminate|].
    simpl in H. revert H. destruct (ascii_dec c c') as [->|]; intros H; [|discriminate].
    rewrite append_cons. f_equal. now apply IH.
Qed.

Lemma prefix_cons (a b : ascii) (s t : string) :
  String.prefix (String a s) (String b t)
  = if ascii_dec a b then String.prefix s t else false.
Proof. reflexivity. Qed.

Lemma prefix_empty (s : string) : String.prefix "" s = true.
Proof. now destruct s. Qed.

Lemma includes_cons (c : ascii) (s t : string) :
  Js.includes (String c s) t = String.prefix t (String c s) || Js.includes s t.
Proof. reflexivity. Qed.

Lemma includes_slash (s : string) : Js.includes s "/" = negb (is_segment s).
Proof.
  induction s as [|c s IH]; [reflexivity|].
  rewrite includes_cons, prefix_cons, prefix_empty, IH.
  change (is_segment (String c s))
    with (negb (Ascii.eqb c Js.slash) && is_segment s).
  destruct (ascii_dec "/" c) as [<-|Hc]; [reflexivity|].
  destruct (Ascii.eqb c Js.slash) eqn:E; [|reflexivity].
  apply Ascii.eqb_eq in E. now subst c.
Qed.

Lemma split_segment (s : string) : is_segment s = true -> Js.split Js.slash s = [s].
Proof.
  induction s as [|c s IH]; simpl; [reflexivity|].
  intros H. apply andb_true_iff in H as [Hc Hs].
  apply negb_true_iff in Hc. rewrite Hc, (IH Hs). reflexivity.
Qed.

Lemma count_slashes_app (a b : string) :
  count_slashes (a +:+ b) = (count_slashes a + count_slashes b)%nat.
Proof.
  induction a as [|c a IH]; simpl; [reflexivity|].
  destruct (Ascii.eqb c Js.slash); rewrite IH; reflexivity.
Qed.

Lemma pop_split_cons (c : ascii) (s : string) :
  (1 <= count_slashes s)%nat ->
  Js.pop (Js.split Js.slash (String c s)) = Js.pop (Js.split Js.slash s).
Proof.
  intros H. pose proof (split_length s) as Hl. unfold Js.pop. simpl.
  destruct (Js.split Js.slash s) as [|seg [|seg' segs]]; simpl in Hl; try lia.
  now destruct (Ascii.eqb c Js.slash).
Qed.

Lemma split_slash_cons (s : string) :
  Js.split Js.slash (String "/" s) = "" :: Js.split Js.slash s.
Proof. reflexivity. Qed.

Lemma pop_split_below (a s : string) :
  Js.pop (Js.split Js.slash (a +:+ String "/" s)) = Js.pop (Js.split Js.slash s).
Proof.
  induction a as [|c a IH].
  - change ("" +:+ String "/" s) with (String "/" s).
    rewrite split_slash_cons. unfold Js.pop.
    pose proof (split_length s).
    destruct (Js.split Js.slash s); simpl in *; [lia | reflexivity].
  - rewrite append_cons, pop_split_cons; [exact IH|].
    rewrite count_slashes_app. simpl. lia.
Qed.

Lemma append_slash (dir seg : string) :
  (dir +:+ "/") +:+ seg = dir +:+ String "/" seg.
Proof.
  induction dir as [|c d IH]; [reflexivity|].
  rewrite !append_cons, IH. reflexivity.
Qed.

Lemma pop_split_child (dir f seg : string) :
  child_of dir f seg -> Js.pop (Js.split Js.slash f) = seg.
Proof.
  intros [-> Hseg]. destruct (Js.truthy dir).
  - rewrite append_slash, pop_split_below, split_segment by assumption.
    reflexivity.
  - change ("" +:+ seg) with seg. now rewrite split_segment.
Qed.

Lemma remove_by_name_cons (n : string) (x : entry) (l : list entry) :
  remove_by_name n (x :: l)
  = if decide (name x = n) then l else x :: remove_by_name n l.
Proof.
  unfold remove_by_name, findIndex. cbn [list_find].
  destruct (decide (name x = n)); [reflexivity|].
  destruct (list_find _ l) as [[i y]|]; reflexivity.
Qed.

Lemma remove_by_name_absent (n : string) (l : list entry) :
  Forall (fun e => name e <> n) l -> remove_by_name n l = l.
Proof.
  induction 1 as [|x l Hx _ IH]; [reflexivity|].
  rewrite remove_by_name_cons, IH. now destruct (decide (name x = n)).
Qed.

Lemma remove_by_name_unique (n : string) (l : list entry) :
  NoDup (map name l) -> Forall (fun e => name e <> n) (remove_by_name n l).
Proof.
  induction l as [|x l IH]; intros Hnd; [constructor|].
  rewrite remove_by_name_cons. inversion Hnd as [|? ? Hx Hl]; subst.
  destruct (decide (name x = n)) as [<-|Hne].
  - apply Forall_forall. intros e He Heq. apply Hx.
    rewrite <- Heq. apply list_elem_of_fmap_2, He.
  - constructor; [exact Hne | now apply IH].
Qed.

Lemma remove_by_name_keeps (n : string) (e : entry) (l : list entry) :
  e ∈ l -> name e <> n -> e ∈ remove_by_name n l.
Proof.
  induction l as [|x l IH]; intros He Hne; [inversion He|].
  rewrite remove_by_name_cons.
  apply elem_of_cons in He as [->|He].
  - destruct (decide (name x = n)); [contradiction | left].
  - destruct (decide (name x = n)); [exact He | right; now apply IH].
Qed.

Lemma apply_change_child now dir c f seg fs ds :
  filename c = Some f -> child_of dir f seg ->
  apply_change now dir c fs ds =
    if String.eqb (status c) "added" || String.eqb (status c) "modified"
    then Some (updateFileInCache now fs c f, ds)
    else if String.eqb (status c) "removed"
    then Some (remove_by_name seg fs, remove_by_name seg ds)
    else Some (fs, ds).
Proof.
  intros Hf [Heq Hseg]. unfold apply_change. rewrite Hf.
  assert (Hrel : (if Js.truthy dir
                  then Js.substring_from
                         (String.length (if Js.truthy dir then dir +:+ "/" else "")) f
                  else f) = seg).
  { subst f. destruct (Js.truthy dir); [apply substring_from_app | reflexivity]. }
  assert (Hpre : Js.truthy dir
                 && negb (Js.startsWith f (if Js.truthy dir then dir +:+ "/" else ""))
                 = false).
  { subst f. destruct (Js.truthy dir); [|reflexivity].
    unfold Js.startsWith. now rewrite prefix_app. }
  rewrite Hpre, Hrel, includes_slash, Hseg. cbn [negb].
  rewrite split_segment by assumption. cbn [length Nat.eqb].
  unfold removeFileFromCache. rewrite split_segment by assumption.
  reflexivity.
Qed.

Lemma apply_change_elsewhere now dir c f fs ds :
  filename c = Some f -> (forall seg, ~ child_of dir f seg) ->
  apply_change now dir c fs ds = Some (fs, ds).
Proof.
  intros Hf Hno. unfold apply_change. rewrite Hf.
  destruct (Js.truthy dir) eqn:Hd; cbn [andb].
  - destruct (Js.startsWith f (dir +:+ "/")) eqn:Hp; [|reflexivity]. cbn [negb].
    rewrite includes_slash.
    destruct (is_segment _) eqn:Hs; [|reflexivity].
    exfalso. apply (Hno (Js.substring_from (String.length (dir +:+ "/")) f)).
    split; [|exact Hs]. rewrite Hd. now apply prefix_split.
  - rewrite includes_slash. destruct (is_segment f) eqn:Hs; [|reflexivity].
    exfalso. apply (Hno f). split; [|exact Hs]. now rewrite Hd.
Qed.

Lemma apply_changes_in_turn now dir cs fs ds :
  Forall (fun c => is_Some (filename c)) cs ->
  apply_changes now dir cs fs ds = patch_in_turn now dir cs (fs, ds).
Proof.
  intros Hall. revert fs ds.
  induction Hall as [|c cs [f Hf] _ IH]; intros fs ds; [reflexivity|].
  unfold patch_in_turn. cbn [apply_changes fold_left fst snd].
  destruct (apply_change now dir c fs ds) as [[fs' ds']|] eqn:E.
  - apply IH.
  - exfalso. revert E. unfold apply_change. rewrite Hf.
    repeat match goal with
           | |- context [if ?b then _ else _] => destruct b
           end; discriminate.
Qed.

(** C5: one change of a compare result patches a cached listing only
    when its filename is a direct child of the cache path; added and
    modified drop the entry of that name and append a rebuilt entry whose
    size is additions + deletions; removed drops the name from the files
    and from the folders; any other status changes nothing.  With unique
    names no other entry of that name is left.  A change set whose
    changes all have a filename is applied turn by turn.  The listing
    {a.txt, b.txt} of "dir" with the change "dir/b.txt" removed becomes
    {a.txt}. *)
Theorem C5_patch_touches_direct_children_only :
  forall (now : Z) (dir f : string) (c : change) (fs ds : list entry),
    filename c = Some f ->
    ((forall seg, ~ child_of dir f seg) ->
     apply_change now dir c fs ds = Some (fs, ds))
    /\
    (forall seg, child_of dir f seg ->
       (status c = "added" \/ status c = "modified" ->
        exists e,
          apply_change now dir c fs ds = Some (remove_by_name seg fs ++ [e], ds)
          /\ name e = seg
          /\ size e = Some (additions c + deletions c)
          /\ (NoDup (map name fs) ->
              Forall (fun e' => name e' <> seg) (remove_by_name seg fs)))
       /\
       (status c = "removed" ->
        apply_change now dir c fs ds
          = Some (remove_by_name seg fs, remove_by_name seg ds))
       /\
       (status c <> "added" -> status c <> "modified" -> status c <> "removed" ->
        apply_change now dir c fs ds = Some (fs, ds)))
    /\
    (forall cs,
       Forall (fun c' => is_Some (filename c')) cs ->
       apply_changes now dir cs fs ds = patch_in_turn now dir cs (fs, ds))
    /\
    (forall w,
       returned (applyChangesToCache "demo" "dir"
                   {| ch_files := [removed_change "dir/b.txt"]; ch_commits := [] |}
                   (listing_of "dir" [plain_file "a.txt"; plain_file "b.txt"] [])
                   w)
       = Some ([plain_file "a.txt"], [])).
Proof.
  intros now dir f c fs ds Hf. split; [|split; [|split]].
  - now apply apply_change_elsewhere.
  - intros seg Hc. rewrite (apply_change_child now dir c f seg fs ds Hf Hc).
    split; [|split].
    + intros Hs. eexists. split; [|split; [|split]].
      * destruct Hs as [-> | ->]; cbn [String.eqb orb];
          unfold updateFileInCache; rewrite (pop_split_child _ _ _ Hc); reflexivity.
      * reflexivity.
      * reflexivity.
      * apply remove_by_name_unique.
    + intros ->. reflexivity.
    + intros Ha Hm Hr.
      apply String.eqb_neq in Ha, Hm, Hr. now rewrite Ha, Hm, Hr.
  - intros cs Hcs. now apply apply_changes_in_turn.
  - intros w. reflexivity.
Qed.

Lemma C5_patch_witness :
  apply_change 7 "dir" (removed_change "dir/b.txt")
    [plain_file "a.txt"; plain_file "b.txt"] [plain_folder "b.txt"]
  = Some ([plain_file "a.txt"], []).
Proof.
  destruct (C5_patch_touches_direct_children_only 7 "dir" "dir/b.txt"
              (removed_change "dir/b.txt")
              [plain_file "a.txt"; plain_file "b.txt"] [plain_folder "b.txt"]
              eq_refl) as (_ & Hchild & _).
  destruct (Hchild "b.txt") as (_ & Hrm & _).
  - split; reflexivity.
  - rewrite Hrm; reflexivity.
Defined.

(** ** Commit oracle *)

Lemma logged_logged w a b : logged (logged w a) b = logged w (a ++ b).
Proof. unfold logged, with_log. cbn. now rewrite app_assoc. Qed.

Lemma logged_nil w : logged w [] = w.
Proof. unfold logged, with_log. rewrite app_nil_r. now destruct w. Qed.

Lemma try_branch_step repo branch w :
  try_branch repo branch w
  = step_outcome (branch_step (host (w_env w)) repo branch)
                 (logged w [ReqBranch repo branch]).
Proof.
  unfold try_branch, branch_step, bind, fetch, logged.
  destruct (get_branch _ _ _) as [|r]; [reflexivity|]. cbn.
  destruct (ok r); [|reflexivity].
  unfold json. destruct (body r) as [| |[id|]]; try reflexivity.
  cbn. now destruct (Js.truthy id).
Qed.

Lemma try_commits_step repo branch w :
  try_commits repo branch w
  = step_outcome (commits_step (host (w_env w)) repo branch)
                 (logged w [ReqCommits repo branch]).
Proof.
  unfold try_commits, commits_step, bind, fetch, logged.
  destruct (get_commits _ _ _) as [|r]; [reflexivity|]. cbn.
  destruct (ok r); [|reflexivity].
  unfold json. destruct (body r) as [| |[|s l]]; reflexivity.
Qed.

Lemma try_contents_step repo w :
  try_contents repo w
  = step_outcome (contents_step (host (w_env w)) (now (w_env w)) repo)
                 (logged w [ReqContents repo ""]).
Proof.
  unfold try_contents, contents_step, bind, fetch, logged.
  destruct (get_contents _ _ _) as [|r]; [reflexivity|]. cbn.
  destruct (ok r); reflexivity.
Qed.

Lemma step_outcome_cascade rq res w :
  step_outcome res (logged w [rq]) = cascade_outcome [(Some rq, res)] w.
Proof.
  unfold cascade_outcome. destruct res; reflexivity.
Qed.

Lemma cascade_cons_nothing rq rest w :
  cascade_outcome ((rq, Nothing) :: rest) w
  = cascade_outcome rest (logged w (requests_of [(rq, Nothing)])).
Proof.
  unfold cascade_outcome. cbn [raises first_usable fst snd].
  destruct (raises rest); now rewrite logged_logged.
Qed.

Lemma raises_no_token steps : raises steps = true -> fst (first_usable steps) = None.
Proof.
  induction steps as [|[rq [t| |]] rest IH]; cbn; intros H;
    try discriminate; auto.
Qed.

(** Steps that follow a decided walk do not matter; steps that follow an
    undecided one continue it. *)
Lemma first_usable_app s1 s2 :
  (raises s1 = true \/ is_Some (fst (first_usable s1)) ->
   first_usable (s1 ++ s2) = first_usable s1 /\ raises (s1 ++ s2) = raises s1)
  /\
  (raises s1 = false -> fst (first_usable s1) = None ->
   first_usable (s1 ++ s2)
     = (fst (first_usable s2), snd (first_usable s1) ++ snd (first_usable s2))
   /\ raises (s1 ++ s2) = raises s2).
Proof.
  induction s1 as [|[rq [t| |]] rest [IH1 IH2]]; cbn; split.
  - intros [H|[x H]]; discriminate.
  - intros _ _. now destruct (first_usable s2).
  - auto.
  - intros _ H; discriminate.
  - intros H. destruct (IH1 H) as [-> ->]. auto.
  - intros Hr Hn. destruct (IH2 Hr Hn) as [-> ->]. cbn. split; [|reflexivity].
    f_equal. now rewrite app_assoc.
  - auto.
  - intros H; discriminate.
Qed.

Lemma orelse_cascade (m1 m2 : M (option string)) s1 s2 w :
  m1 w = cascade_outcome s1 w ->
  (forall trace, m2 (logged w trace) = cascade_outcome s2 (logged w trace)) ->
  (m1 orelse m2) w = cascade_outcome (s1 ++ s2) w.
Proof.
  intros H1 H2. unfold or_else, bind. rewrite H1. unfold cascade_outcome.
  destruct (first_usable_app s1 s2) as [Hdec Hund].
  destruct (raises s1) eqn:Hr.
  - destruct Hdec as [E1 E2]; [now left|]. now rewrite E1, E2.
  - destruct (fst (first_usable s1)) as [t|] eqn:Hf.
    + destruct Hdec as [E1 E2]; [right; eauto|].
      now rewrite E1, E2, Hf.
    + destruct (Hund eq_refl eq_refl) as [E1 E2]. rewrite E1, E2.
      rewrite H2. unfold cascade_outcome. cbn [fst snd].
      destruct (raises s2); now rewrite logged_logged.
Qed.

Lemma try_repo_cascade repo w :
  try_repo repo w
  = cascade_outcome (repo_plan (host (w_env w)) (now (w_env w)) repo) w.
Proof.
  unfold try_repo, repo_plan, repo_step, repo_data, bind at 1, fetch.
  destruct (get_repo _ _) as [|r]; [reflexivity|].
  destruct (ok r); [|reflexivity].
  unfold bind at 1, json.
  destruct (body r) as [| |info]; try reflexivity.
  unfold ret at 1, bind at 1, deref, ret at 1.
  rewrite cascade_cons_nothing.
  change (with_log w (w_log w ++ [ReqRepo repo]))
    with (logged w (requests_of [(Some (ReqRepo repo), Nothing)])).
  set (w1 := logged w _).
  apply orelse_cascade.
  - destruct (default_branch info) as [d|];
      [|unfold ret, cascade_outcome; cbn; now rewrite logged_nil].
    destruct (Js.truthy d);
      [|unfold ret, cascade_outcome; cbn; now rewrite logged_nil].
    apply (orelse_cascade _ _ [_] [_]).
    + rewrite try_branch_step. apply step_outcome_cascade.
    + intros trace. rewrite try_commits_step. apply step_outcome_cascade.
  - intros trace. unfold cascade_outcome.
    destruct (repo_empty info); cbn; now rewrite logged_nil.
Qed.

Lemma getLatestCommitSha_cascade repo branch w :
  Js.truthy repo = true ->
  getLatestCommitSha (Some repo) branch w
  = Ret (fst (first_usable (plan (host (w_env w)) (now (w_env w)) repo branch)))
        (logged w (snd (first_usable (plan (host (w_env w)) (now (w_env w)) repo branch)))).
Proof.
  intros Hrepo. unfold getLatestCommitSha, try_catch. rewrite Hrepo. cbn [negb].
  set (h := host (w_env w)). set (t := now (w_env w)).
  assert (Hchain :
    (try_branch repo branch orelse try_commits repo branch
     orelse try_repo repo orelse try_contents repo) w
    = cascade_outcome (plan h t repo branch) w).
  { change (plan h t repo branch)
      with ([(Some (ReqBranch repo branch), branch_step h repo branch)]
            ++ [(Some (ReqCommits repo branch), commits_step h repo branch)]
            ++ repo_plan h t repo
            ++ [(Some (ReqContents repo ""), contents_step h t repo)]).
    apply orelse_cascade.
    - rewrite try_branch_step. apply step_outcome_cascade.
    - intros tr1. apply orelse_cascade.
      + rewrite try_commits_step. apply step_outcome_cascade.
      + intros tr2. apply orelse_cascade.
        * apply try_repo_cascade.
        * intros tr3. rewrite try_contents_step. apply step_outcome_cascade. }
  rewrite Hchain. unfold cascade_outcome.
  destruct (raises _) eqn:Hr; [|reflexivity].
  now rewrite (raises_no_token _ Hr).
Qed.

Lemma first_usable_cases steps :
  (Forall (fun s => snd s = Nothing) steps
   /\ first_usable steps = (None, requests_of steps))
  \/
  (exists pre s post,
     steps = pre ++ s :: post
     /\ Forall (fun x => snd x = Nothing) pre
     /\ snd (first_usable steps) = requests_of (pre ++ [s])
     /\ ((exists t, snd s = Usable t /\ fst (first_usable steps) = Some t)
         \/ (snd s = Raised /\ fst (first_usable steps) = None))).
Proof.
  induction steps as [|[rq res] rest IH].
  - left. split; [constructor | reflexivity].
  - destruct res as [t| |].
    + right. exists [], (rq, Usable t), rest. cbn. eauto 8.
    + destruct IH as [[Hall Heq] | (pre & s & post & -> & Hpre & Htr & Hs)].
      * left. split; [constructor; [reflexivity | exact Hall]|].
        cbn. rewrite Heq. destruct rq; reflexivity.
      * right. exists ((rq, Nothing) :: pre), s, post.
        split; [reflexivity|]. split; [constructor; [reflexivity | exact Hpre]|].
        split; [|exact Hs].
        cbn [first_usable snd]. rewrite Htr. unfold requests_of.
        destruct rq; reflexivity.
    + right. exists [], (rq, Raised), rest. cbn. eauto 8.
Qed.

(** C2 (as the code has it): for a repository name that is present, the
    resolution walks the plan - branch info, history limited to one,
    repository info, the same two requests on the default branch the
    repository info names, the empty-repository placeholder, the root
    listing probe - in that order.  It stops at the first step that is
    usable or that throws; every step before that one yielded nothing;
    the requests issued are those up to that step.  It returns null when
    all steps yield nothing and when a step throws. *)
Theorem C2_version_cascade_in_order :
  forall (repo branch : string) (w : world),
    Js.truthy repo = true ->
    let steps := plan (host (w_env w)) (now (w_env w)) repo branch in
    exists (token : option string) (trace : list request),
      getLatestCommitSha (Some repo) branch w = Ret token (logged w trace)
      /\ ((Forall (fun s => snd s = Nothing) steps
           /\ token = None /\ trace = requests_of steps)
          \/
          (exists pre s post,
             steps = pre ++ s :: post
             /\ Forall (fun x => snd x = Nothing) pre
             /\ trace = requests_of (pre ++ [s])
             /\ ((exists t, snd s = Usable t /\ token = Some t)
                 \/ (snd s = Raised /\ token = None)))).
Proof.
  intros repo branch w Hrepo steps.
  exists (fst (first_usable steps)), (snd (first_usable steps)).
  split; [now apply getLatestCommitSha_cascade|].
  destruct (first_usable_cases steps) as [[Hall Heq] | Hstop].
  - left. rewrite Heq. auto.
  - right. exact Hstop.
Qed.

Lemma C2_version_cascade_witness :
  exists (token : option string) (trace : list request),
    getLatestCommitSha (Some "demo") "main" (demo_world 5 live_host empty_store None)
      = Ret token (logged (demo_world 5 live_host empty_store None) trace)
    /\ ((Forall (fun s => snd s = Nothing) (plan live_host 5 "demo" "main")
         /\ token = None /\ trace = requests_of (plan live_host 5 "demo" "main"))
        \/
        (exists pre s post,
           plan live_host 5 "demo" "main" = pre ++ s :: post
           /\ Forall (fun x => snd x = Nothing) pre
           /\ trace = requests_of (pre ++ [s])
           /\ ((exists t, snd s = Usable t /\ token = Some t)
               \/ (snd s = Raised /\ token = None)))).
Proof.
  apply (C2_version_cascade_in_order "demo" "main"
           (demo_world 5 live_host empty_store None)).
  reflexivity.
Defined.

(** C2, as stated, fails when a request throws: with the branch endpoint
    unreachable the resolution returns null after that one request,
    although the history endpoint holds the commit abc123. *)
Lemma C2_null_although_history_answers :
  getLatestCommitSha (Some "demo") "main" (demo_world 5 flaky_host empty_store None)
    = Ret None (logged (demo_world 5 flaky_host empty_store None)
                       [ReqBranch "demo" "main"])
  /\ commits_step flaky_host "demo" "main" = Usable "abc123"
  /\ ~ Forall (fun s => snd s = Nothing) (plan flaky_host 5 "demo" "main").
Proof.
  split; [reflexivity|]. split; [reflexivity|].
  intros H. inversion H as [|s l Hs _]. discriminate Hs.
Qed.

Example resolve_live :
  getLatestCommitSha (Some "demo") "main" (demo_world 5 live_host empty_store None)
  = Ret (Some "abc123")
        (logged (demo_world 5 live_host empty_store None) [ReqBranch "demo" "main"]).
Proof. reflexivity. Qed.

(** ** Frames of the monad *)

Section Frames.
Context (R : world -> world -> Prop) `{!PreOrder R}.

Lemma preserves_ret {A} (a : A) : preserves R (ret a).
Proof. intros w. cbn. reflexivity. Qed.

Lemma preserves_throw {A} : preserves R (@throw A).
Proof. intros w. cbn. reflexivity. Qed.

Lemma preserves_bind {A B} (m : M A) (k : A -> M B) :
  preserves R m -> (forall a, preserves R (k a)) -> preserves R (bind m k).
Proof.
  intros Hm Hk w. unfold bind. specialize (Hm w).
  destruct (m w) as [a w'|w']; cbn in *; [|exact Hm].
  etransitivity; [exact Hm | apply Hk].
Qed.

Lemma preserves_try_catch {A} (m h : M A) :
  preserves R m -> preserves R h -> preserves R (try_catch m h).
Proof.
  intros Hm Hh w. unfold try_catch. specialize (Hm w).
  destruct (m w) as [a w'|w']; cbn in *; [exact Hm|].
  etransitivity; [exact Hm | apply Hh].
Qed.

Lemma preserves_or_else {A} (m k : M (option A)) :
  preserves R m -> preserves R k -> preserves R (m orelse k).
Proof.
  intros Hm Hk. apply preserves_bind; [exact Hm|].
  intros [a|]; [apply preserves_ret | exact Hk].
Qed.

Lemma preserves_for_each {A} (l : list A) (f : A -> M unit) :
  (forall a, preserves R (f a)) -> preserves R (for_each l f).
Proof.
  intros Hf. induction l as [|a l IH]; cbn [for_each].
  - apply preserves_ret.
  - apply preserves_bind; [apply Hf | intros _; exact IH].
Qed.

Lemma preserves_get_store : preserves R get_store.
Proof. intros w. cbn. reflexivity. Qed.

Lemma preserves_get_view : preserves R get_view.
Proof. intros w. cbn. reflexivity. Qed.

Lemma preserves_get_env : preserves R get_env.
Proof. intros w. cbn. reflexivity. Qed.

Lemma preserves_Date_now : preserves R Date_now.
Proof. intros w. cbn. reflexivity. Qed.

Lemma preserves_json {B} (r : response B) : preserves R (json r).
Proof. intros w. unfold json. destruct (body r); cbn; reflexivity. Qed.

Lemma preserves_deref {B} (o : option B) : preserves R (deref o).
Proof. intros w. destruct o; cbn; reflexivity. Qed.
End Frames.

Lemma total_ret {A} (a : A) : total (ret a).
Proof. intros w. now exists a, w. Qed.

Lemma total_bind {A B} (m : M A) (k : A -> M B) :
  total m -> (forall a, total (k a)) -> total (bind m k).
Proof.
  intros Hm Hk w. unfold bind. destruct (Hm w) as (a & w' & ->). apply Hk.
Qed.

Lemma total_try_catch {A} (m h : M A) : total h -> total (try_catch m h).
Proof.
  intros Hh w. unfold try_catch. destruct (m w) as [a w'|w']; [eauto | apply Hh].
Qed.

Lemma total_for_each {A} (l : list A) (f : A -> M unit) :
  (forall a, total (f a)) -> total (for_each l f).
Proof.
  intros Hf. induction l as [|a l IH]; cbn [for_each].
  - apply total_ret.
  - apply total_bind; [apply Hf | intros _; exact IH].
Qed.

#[local] Instance store_only_preorder : PreOrder store_only.
Proof.
  split.
  - intros w. now repeat split.
  - intros a b c (E1 & L1 & V1) (E2 & L2 & V2). repeat split; congruence.
Qed.

#[local] Instance store_kept_preorder : PreOrder store_kept.
Proof.
  split.
  - intros w. now split.
  - intros a b c (E1 & S1) (E2 & S2). split; congruence.
Qed.

#[local] Instance memory_kept_preorder : PreOrder memory_kept.
Proof.
  split.
  - intros w. now split.
  - intros a b c (E1 & S1) (E2 & S2). split; congruence.
Qed.

(** The composite steps are taken apart by one tactic; a primitive is
    unfolded and its cases are read off. *)
Ltac frame_prim :=
  let w := fresh "w" in
  intros w;
  cbv [localStorage_getItem localStorage_setItem localStorage_removeItem
       localStorage_keys JSON_parse_listing JSON_parse_commit
       memoryCache_set memoryCache_delete commitCache_set commitCache_delete
       setTimeout put_store put_view fetch set_listing set_loading
       reset_to_root get_view bind ret throw];
  repeat match goal with
         | |- context [match ?x with _ => _ end] => destruct x
         end;
  cbn; repeat split; reflexivity.

Ltac frame_step :=
  cbv beta zeta;
  lazymatch goal with
  | |- preserves _ (ret _) => apply preserves_ret; exact _
  | |- preserves _ throw => apply preserves_throw; exact _
  | |- preserves _ get_store => apply preserves_get_store; exact _
  | |- preserves _ get_view => apply preserves_get_view; exact _
  | |- preserves _ get_env => apply preserves_get_env; exact _
  | |- preserves _ Date_now => apply preserves_Date_now; exact _
  | |- preserves _ (json _) => apply preserves_json; exact _
  | |- preserves _ (deref _) => apply preserves_deref; exact _
  | |- preserves _ (try_catch _ _) => apply preserves_try_catch; [exact _| |]
  | |- preserves _ (or_else _ _) => apply preserves_or_else; [exact _| |]
  | |- preserves _ (bind _ _) => apply preserves_bind; [exact _| |intros ?]
  | |- preserves _ (for_each _ _) => apply preserves_for_each; [exact _|intros ?]
  | |- preserves _ (match ?x with _ => _ end) => destruct x
  | |- preserves _ _ => first [assumption | solve [auto with frames] | frame_prim]
  end.

Ltac frame := repeat frame_step.

Create HintDb frames.

Lemma store_only_getCachedData repo dir : preserves store_only (getCachedData repo dir).
Proof. unfold getCachedData. frame. Qed.

Lemma store_only_getCachedCommitSha repo : preserves store_only (getCachedCommitSha repo).
Proof. unfold getCachedCommitSha. frame. Qed.

Lemma store_only_setCachedData repo dir commit fs ds :
  preserves store_only (setCachedData repo dir commit fs ds).
Proof. unfold setCachedData. frame. Qed.

Lemma store_only_run_task t : preserves store_only (run_task t).
Proof. unfold run_task. frame. Qed.

Lemma store_only_run_timers : preserves store_only run_timers.
Proof. pose proof store_only_run_task. unfold run_timers. frame. Qed.

Lemma memory_kept_run_task t : preserves memory_kept (run_task t).
Proof. unfold run_task. frame. Qed.

Lemma memory_kept_run_timers : preserves memory_kept run_timers.
Proof.
  unfold run_timers. intros w. unfold bind, get_store, put_store.
  pose proof (preserves_for_each memory_kept (timers (w_store w)) run_task
                memory_kept_run_task
                (with_store w (set_timers (w_store w) []))) as H.
  exact H.
Qed.

Lemma total_getCachedData repo dir : total (getCachedData repo dir).
Proof. apply total_try_catch, total_ret. Qed.

Lemma total_getCachedCommitSha repo : total (getCachedCommitSha repo).
Proof. apply total_try_catch, total_ret. Qed.

Lemma total_setCachedData repo dir commit fs ds :
  total (setCachedData repo dir commit fs ds).
Proof. apply total_try_catch, total_ret. Qed.

Lemma total_run_task t : total (run_task t).
Proof. destruct t. apply total_try_catch, total_ret. Qed.

Lemma total_run_timers : total run_timers.
Proof.
  unfold run_timers. apply total_bind; [intros w; now exists (w_store w), w|].
  intros s. apply total_bind; [intros w; eexists _, _; reflexivity|].
  intros _. apply total_for_each, total_run_task.
Qed.

(** ** Insertion-ordered maps *)

Lemma assoc_get_set_eq {V} (k : string) (v : V) (m : list (string * V)) :
  Assoc.get k (Assoc.set k v m) = Some v.
Proof.
  induction m as [|[k' v'] m IH]; cbn.
  - now rewrite String.eqb_refl.
  - destruct (String.eqb k' k) eqn:E; cbn.
    + now rewrite String.eqb_refl.
    + now rewrite E.
Qed.

Lemma assoc_get_set_ne {V} (k k' : string) (v : V) (m : list (string * V)) :
  k <> k' -> Assoc.get k' (Assoc.set k v m) = Assoc.get k' m.
Proof.
  intros Hne. induction m as [|[k0 v0] m IH]; cbn.
  - destruct (String.eqb k k') eqn:E;
      [apply String.eqb_eq in E; contradiction | reflexivity].
  - destruct (String.eqb k0 k) eqn:E; cbn.
    + apply String.eqb_eq in E. subst k0.
      destruct (String.eqb k k') eqn:E';
        [apply String.eqb_eq in E'; contradiction | reflexivity].
    + now rewrite IH.
Qed.

Lemma assoc_get_remove_eq {V} (k : string) (m : list (string * V)) :
  Assoc.get k (Assoc.remove k m) = None.
Proof.
  induction m as [|[k' v'] m IH]; cbn; [reflexivity|].
  destruct (String.eqb k' k) eqn:E; cbn; [exact IH | now rewrite E].
Qed.

(** ** Validity of stored entries *)

(** A fresh entry of the volatile tier is served as it is, and nothing
    else is touched. *)
Lemma getCachedData_memory_hit repo dir d w :
  memory_fresh (getCacheKey repo dir) w = Some d ->
  getCachedData repo dir w = Ret (Some d) w.
Proof.
  unfold memory_fresh, getCachedData, try_catch, or_else, bind, get_store.
  destruct (Assoc.get _ _) as [d'|]; [|discriminate].
  unfold Date_now.
  destruct (String.eqb (version d') CACHE_VERSION && _); [|discriminate].
  now intros [= ->].
Qed.

(** Whatever tier serves it, a served listing has the current schema
    version and is at most 24 hours old; the bound is attained by the
    durable tier only. *)
Lemma getCachedData_served_is_recent repo dir w d :
  returned (getCachedData repo dir w) = Some (Some d) ->
  version d = CACHE_VERSION
  /\ now (w_env w) - timestamp d <= MAX_CACHE_AGE.
Proof.
  unfold getCachedData, try_catch, or_else, bind, get_store.
  destruct (Assoc.get _ (memoryCache (w_store w))) as [m|].
  - unfold Date_now.
    destruct (String.eqb (version m) CACHE_VERSION) eqn:Ev;
      destruct (now (w_env w) - timestamp m <? MAX_CACHE_AGE)%Z eqn:Ea;
      cbn [andb].
    1: { intros [= ->]. apply String.eqb_eq in Ev. apply Z.ltb_lt in Ea.
         split; [exact Ev | lia]. }
    all: unfold memoryCache_delete, ret, localStorage_getItem; cbn;
      destruct (storage_get_throws (w_env w)); [discriminate|];
      destruct (Assoc.get _ (localStorage (w_store w))) as [[|l|c]|];
      cbn; try discriminate;
      match goal with
      | |- context [String.eqb ?a ?b] => destruct (String.eqb a b) eqn:Ev'
      end; cbn; try discriminate;
      match goal with
      | |- context [(?a >? ?b)%Z] => destruct (a >? b)%Z eqn:Ea'
      end; cbn; try discriminate;
      intros [= <-]; apply String.eqb_eq in Ev';
      rewrite Z.gtb_ltb in Ea'; apply Z.ltb_ge in Ea'; split; assumption.
  - unfold ret, localStorage_getItem.
    destruct (storage_get_throws (w_env w)); [discriminate|].
    destruct (Assoc.get _ (localStorage (w_store w))) as [[|l|c]|];
      cbn; try discriminate;
      match goal with
      | |- context [String.eqb ?a ?b] => destruct (String.eqb a b) eqn:Ev'
      end; cbn; try discriminate;
      match goal with
      | |- context [(?a >? ?b)%Z] => destruct (a >? b)%Z eqn:Ea'
      end; cbn; try discriminate;
      intros [= <-]; apply String.eqb_eq in Ev';
      rewrite Z.gtb_ltb in Ea'; apply Z.ltb_ge in Ea'; split; assumption.
Qed.

(** An entry stored 25 hours ago, held by both tiers, is absent for the
    reader and gone from both tiers afterwards. *)
Example expired_listing_is_evicted :
  let key := getCacheKey "demo" "" in
  let d := listing_of "" [plain_file "a.txt"] [] in
  let w := demo_world (25 * 60 * 60 * 1000) no_host
             {| memoryCache := [(key, d)]; commitCache := ∅;
                localStorage := [(key, ListingJson d)]; timers := [] |} None in
  returned (getCachedData "demo" "" w) = Some None
  /\ Assoc.get key (memoryCache (w_store (final_world (getCachedData "demo" "" w)))) = None
  /\ Assoc.get key (localStorage (w_store (final_world (getCachedData "demo" "" w)))) = None.
Proof. repeat split. Qed.

(** C3 (where the code departs from the rule): read from the durable
    tier, a commit record written under another schema version is served
    and kept, and an entry exactly 24 hours old is served, while the
    volatile tier refuses the same entry. *)
Theorem C3_durable_reads_depart_from_validity_rule :
  (returned (getCachedCommitSha "demo" (demo_world 2000 no_host old_schema_store None))
     = Some (Some "abc123")
   /\ Assoc.get (getCommitCacheKey "demo")
        (localStorage (w_store (final_world
           (getCachedCommitSha "demo" (demo_world 2000 no_host old_schema_store None)))))
      = Some (CommitJson {| c_version := "0.9"; c_timestamp := 1000;
                            c_commitSha := "abc123" |}))
  /\
  (returned (getCachedData "demo" "" (demo_world MAX_CACHE_AGE no_host day_old_store None))
     = Some (Some (listing_of "" [plain_file "a.txt"] []))
   /\ memory_fresh (getCacheKey "demo" "")
        (final_world (getCachedData "demo" ""
           (demo_world MAX_CACHE_AGE no_host day_old_store None)))
      = None).
Proof. repeat split. Qed.

(** ** Failures of the durable tier *)

Lemma getCachedData_durable_throws repo dir w :
  memory_fresh (getCacheKey repo dir) w = None ->
  durable_read_throws (getCacheKey repo dir) w ->
  exists w', getCachedData repo dir w = Ret None w'.
Proof.
  unfold memory_fresh, durable_read_throws, getCachedData, try_catch, or_else,
    bind, get_store.
  intros Hmem Hthrow.
  destruct (Assoc.get _ (memoryCache (w_store w))) as [d|].
  - unfold Date_now.
    destruct (String.eqb (version d) CACHE_VERSION && _); [discriminate|].
    unfold memoryCache_delete, ret, localStorage_getItem. cbn.
    destruct Hthrow as [-> | ->]; [eauto|].
    destruct (storage_get_throws (w_env w)); cbn; eauto.
  - unfold ret, localStorage_getItem.
    destruct Hthrow as [-> | ->]; [eauto|].
    destruct (storage_get_throws (w_env w)); cbn; eauto.
Qed.

Lemma run_task_quota t w :
  storage_set_throws (w_env w) = true -> run_task t w = Ret tt w.
Proof.
  intros H. destruct t.
  unfold run_task, try_catch, bind, localStorage_setItem. now rewrite H.
Qed.

Lemma for_each_run_task_quota l w :
  storage_set_throws (w_env w) = true -> for_each l run_task w = Ret tt w.
Proof.
  intros H. induction l as [|t l IH]; [reflexivity|].
  cbn [for_each]. unfold bind. now rewrite run_task_quota.
Qed.

(** C9: a durable read that throws makes getCachedData return null;
    setCachedData returns normally and leaves the new entry in the
    volatile map, also after the deferred durable write has run, and
    when that write throws the durable tier is as it was. *)
Theorem C9_durable_failures_never_surface :
  forall (repo dir commit : string) (fs ds : option (list entry)) (w : world),
    let key := getCacheKey repo dir in
    let d := {| version := CACHE_VERSION; timestamp := now (w_env w);
                lastFetched := now (w_env w); commitSha := commit;
                cd_path := dir; files := default [] fs;
                folders := default [] ds; repoName := repo |} in
    (memory_fresh key w = None -> durable_read_throws key w ->
     exists w', getCachedData repo dir w = Ret None w')
    /\
    (exists w1 w2,
       setCachedData repo dir commit fs ds w = Ret tt w1
       /\ run_timers w1 = Ret tt w2
       /\ Assoc.get key (memoryCache (w_store w1)) = Some d
       /\ Assoc.get key (memoryCache (w_store w2)) = Some d
       /\ (storage_set_throws (w_env w) = true ->
           localStorage (w_store w2) = localStorage (w_store w))).
Proof.
  intros repo dir commit fs ds w key d. split.
  - apply getCachedData_durable_throws.
  - destruct (total_run_timers
                (final_world (setCachedData repo dir commit fs ds w)))
      as ([] & w2 & Hrun).
    eexists _, w2. split; [reflexivity|]. split; [exact Hrun|].
    split; [apply assoc_get_set_eq|]. split.
    + pose proof (memory_kept_run_timers
                    (final_world (setCachedData repo dir commit fs ds w))) as [_ Hm].
      rewrite Hrun in Hm. cbn [final_world] in Hm. rewrite Hm.
      apply assoc_get_set_eq.
    + intros Hq. revert Hrun. unfold run_timers, bind, get_store, put_store.
      rewrite for_each_run_task_quota by exact Hq.
      now intros [= <-].
Qed.

Lemma C9_durable_failures_witness :
  (exists w', getCachedData "demo" ""
                (demo_world 5 no_host
                   {| memoryCache := []; commitCache := ∅;
                      localStorage := [(getCacheKey "demo" "", Garbage)];
                      timers := [] |} None) = Ret None w')
  /\
  (exists w1 w2,
     setCachedData "demo" "" "abc123" (Some [plain_file "a.txt"]) None
       (quota_world 5 empty_store) = Ret tt w1
     /\ run_timers w1 = Ret tt w2
     /\ Assoc.get (getCacheKey "demo" "") (memoryCache (w_store w2))
        = Some (memory_entry "demo" "" "abc123" 5 [plain_file "a.txt"] [])
     /\ localStorage (w_store w2) = []).
Proof.
  split.
  - apply (C9_durable_failures_never_surface "demo" "" "abc123" None None).
    + reflexivity.
    + right; reflexivity.
  - destruct (C9_durable_failures_never_surface "demo" "" "abc123"
                (Some [plain_file "a.txt"]) None (quota_world 5 empty_store))
      as (_ & w1 & w2 & H1 & H2 & _ & H4 & H5).
    exists w1, w2. repeat split; [exact H1 | exact H2 | exact H4 | now apply H5].
Defined.

(** ** The directory view *)

#[local] Instance log_grows_preorder : PreOrder log_grows.
Proof.
  split.
  - intros w. exists []. now rewrite app_nil_r.
  - intros a b c [m1 H1] [m2 H2]. exists (m1 ++ m2).
    now rewrite H2, H1, app_assoc.
Qed.

Lemma log_grows_same w w' : w_log w' = w_log w -> log_grows w w'.
Proof. intros H. exists []. now rewrite app_nil_r. Qed.

Lemma log_grows_fetch {B} req (ep : remote_host -> fetch_outcome B) :
  preserves log_grows (fetch req ep).
Proof.
  intros w. unfold fetch. exists [req].
  destruct (ep _); reflexivity.
Qed.

Lemma log_grows_set_listing fs ds : preserves log_grows (set_listing fs ds).
Proof. intros w. now apply log_grows_same. Qed.

Lemma log_grows_reset_to_root : preserves log_grows reset_to_root.
Proof. intros w. now apply log_grows_same. Qed.

Lemma log_grows_items_of o : preserves log_grows (items_of o).
Proof. intros w. apply log_grows_same. now destruct o as [[]|]. Qed.

#[local] Hint Resolve log_grows_fetch log_grows_set_listing
  log_grows_reset_to_root log_grows_items_of : frames.

Lemma log_grows_show_items repo items : preserves log_grows (show_items repo items).
Proof. unfold show_items. frame. Qed.

#[local] Hint Resolve log_grows_show_items : frames.

Lemma store_kept_items_of o : preserves store_kept (items_of o).
Proof. intros w. now destruct o as [[]|]. Qed.

#[local] Hint Resolve store_kept_items_of : frames.

Lemma store_kept_show_items repo items : preserves store_kept (show_items repo items).
Proof. unfold show_items. frame. Qed.

#[local] Hint Resolve store_kept_show_items : frames.

Lemma store_kept_loadContentsDirectly dir :
  preserves store_kept (loadContentsDirectly dir).
Proof. unfold loadContentsDirectly. frame. Qed.

Lemma total_loadContentsDirectly dir : total (loadContentsDirectly dir).
Proof. apply total_try_catch, total_ret. Qed.

(** The direct load starts with the listing request for the path. *)
Lemma loadContentsDirectly_requests dir repo w :
  currentWorkspace (w_view w) = Some repo ->
  exists more,
    w_log (after (loadContentsDirectly dir) w)
    = w_log w ++ ReqContents repo dir :: more.
Proof.
  intros Hws. unfold after, loadContentsDirectly, try_catch.
  unfold bind at 1, get_view. rewrite Hws.
  unfold bind at 1, deref, ret at 1.
  unfold bind at 1.
  pose proof (log_grows_fetch (ReqContents repo dir)
                (fun h => get_contents h repo dir) w) as Hf.
  assert (Hlog : w_log (final_world
                   (fetch (ReqContents repo dir)
                      (fun h => get_contents h repo dir) w))
                 = w_log w ++ [ReqContents repo dir]).
  { unfold fetch. destruct (get_contents _ _ _); reflexivity. }
  destruct (fetch _ _ w) as [response w1|w1]; cbn [final_world] in Hlog.
  - match goal with
    | |- context [match ?m w1 with _ => _ end] =>
        assert (Hrest : log_grows w1 (final_world (m w1)))
    end.
    { match goal with
      | |- log_grows w1 (final_world (?m w1)) =>
          assert (Hp : preserves log_grows m); [|apply Hp]
      end.
      frame. }
    destruct Hrest as [more Hmore]. exists more.
    match goal with
    | Hmore : w_log (final_world ?o) = _ |- _ =>
        destruct o as [b w2|w2]; cbn [final_world ret] in *
    end; rewrite Hmore, Hlog, <- app_assoc; reflexivity.
  - exists []. cbn. exact Hlog.
Qed.

Lemma getLatestCommitSha_logged rn branch w :
  exists token trace, getLatestCommitSha rn branch w = Ret token (logged w trace).
Proof.
  destruct rn as [repo|]; [destruct (Js.truthy repo) eqn:E|].
  - eexists _, _. now apply getLatestCommitSha_cascade.
  - exists None, []. rewrite logged_nil.
    unfold getLatestCommitSha, try_catch. now rewrite E.
  - exists None, []. now rewrite logged_nil.
Qed.

Lemma getCachedCommitSha_frame repo w :
  exists r w', getCachedCommitSha repo w = Ret r w' /\ store_only w w'.
Proof.
  destruct (total_getCachedCommitSha repo w) as (r & w' & H).
  exists r, w'. split; [exact H|].
  pose proof (store_only_getCachedCommitSha repo w) as Hp. now rewrite H in Hp.
Qed.

Lemma getCachedData_frame repo dir w :
  exists r w', getCachedData repo dir w = Ret r w' /\ store_only w w'.
Proof.
  destruct (total_getCachedData repo dir w) as (r & w' & H).
  exists r, w'. split; [exact H|].
  pose proof (store_only_getCachedData repo dir w) as Hp. now rewrite H in Hp.
Qed.

Lemma bind_ret_eq {A B} (m : M A) (k : A -> M B) w a w' :
  m w = Ret a w' -> bind m k w = k a w'.
Proof. intros H. unfold bind. now rewrite H. Qed.

Lemma bind_throw_eq {A B} (m : M A) (k : A -> M B) w w' :
  m w = Throw w' -> bind m k w = Throw w'.
Proof. intros H. unfold bind. now rewrite H. Qed.

Lemma try_catch_ret_eq {A} (m h : M A) w a w' :
  m w = Ret a w' -> try_catch m h w = Ret a w'.
Proof. intros H. unfold try_catch. now rewrite H. Qed.

Lemma try_finally_ret_eq {A} (m : M A) (f : M unit) w a w' :
  m w = Ret a w' -> try_finally m f w = (f ;;; ret a) w'.
Proof. intros H. unfold try_finally. now rewrite H. Qed.

(** The start of [loadContents] up to the comparison of the tokens. *)
Lemma loadContents_start repo w :
  currentWorkspace (w_view w) = Some repo ->
  validateGiteaConfig (w_env w) = true ->
  loadContents w
  = try_finally
      (try_catch
         (latestCommitSha <- getLatestCommitSha (Some repo) "main" ;;
          if negb (truthy_commit latestCommitSha) then
            loadContentsDirectly (default "" (currentFolder (w_view w))) ;;; ret tt
          else
            storedCommitSha <- getCachedCommitSha repo ;;
            hit <-
              (if truthy_commit storedCommitSha
                  && bool_decide (storedCommitSha = latestCommitSha) then
                 cachedData <- getCachedData repo (default "" (currentFolder (w_view w))) ;;
                 match cachedData with
                 | Some d => set_listing (files d) (folders d) ;;; ret true
                 | None => ret false
                 end
               else ret false) ;;
            if hit : bool then ret tt
            else
              set_loading true ;;;
              freshData <- loadContentsDirectly (default "" (currentFolder (w_view w))) ;;
              if freshData : bool then
                v <- get_view ;;
                setCachedData repo (default "" (currentFolder (w_view w)))
                  (default "" latestCommitSha)
                  (Some (files_value v)) (Some (folders_value v))
              else ret tt)
         (loadContentsDirectly (default "" (currentFolder (w_view w))) ;;; ret tt))
      (set_loading false) w.
Proof.
  intros Hws Hcfg. unfold loadContents.
  unfold bind at 1, get_view at 1. rewrite Hws.
  unfold bind at 1, get_env. rewrite Hcfg. reflexivity.
Qed.

(** Equal tokens and a stored entry: the entry is shown. *)
Lemma loadContents_hit repo T d w w1 w2 w3 :
  currentWorkspace (w_view w) = Some repo ->
  validateGiteaConfig (w_env w) = true ->
  getLatestCommitSha (Some repo) "main" w = Ret (Some T) w1 ->
  Js.truthy T = true ->
  getCachedCommitSha repo w1 = Ret (Some T) w2 ->
  getCachedData repo (default "" (currentFolder (w_view w))) w2 = Ret (Some d) w3 ->
  loadContents w
  = Ret tt (with_view w3
              {| files_value := files d; folders_value := folders d;
                 loading := false;
                 currentFolder := currentFolder (w_view w3);
                 currentWorkspace := currentWorkspace (w_view w3) |}).
Proof.
  intros Hws Hcfg H1 HT H2 H3.
  rewrite (loadContents_start repo w Hws Hcfg).
  erewrite try_finally_ret_eq; revgoals.
  { apply try_catch_ret_eq.
    erewrite bind_ret_eq by exact H1.
    cbn [truthy_commit]. rewrite HT. cbn [negb].
    erewrite bind_ret_eq by exact H2.
    cbn [truthy_commit]. rewrite HT, bool_decide_eq_true_2 by reflexivity.
    cbn [andb].
    erewrite bind_ret_eq; revgoals.
    { erewrite bind_ret_eq by exact H3. reflexivity. }
    reflexivity. }
  reflexivity.
Qed.

(** Different tokens: the listing is fetched, and stored under the new
    token when the fetch succeeds. *)
Lemma loadContents_miss repo T1 T2 w w1 w2 :
  currentWorkspace (w_view w) = Some repo ->
  validateGiteaConfig (w_env w) = true ->
  getLatestCommitSha (Some repo) "main" w = Ret (Some T2) w1 ->
  Js.truthy T2 = true ->
  getCachedCommitSha repo w1 = Ret T1 w2 ->
  T1 <> Some T2 ->
  let dir := default "" (currentFolder (w_view w)) in
  exists (fresh : bool) (w3 w' : world),
    loadContentsDirectly dir (after (set_loading true) w2) = Ret fresh w3
    /\ loadContents w = Ret tt w'
    /\ (exists more, w_log w' = w_log w1 ++ ReqContents repo dir :: more)
    /\ (if fresh
        then w_store w'
             = w_store (after (setCachedData repo dir T2
                                 (Some (files_value (w_view w3)))
                                 (Some (folders_value (w_view w3)))) w3)
        else w_store w' = w_store w2)
    /\ files_value (w_view w') = files_value (w_view w3)
    /\ folders_value (w_view w') = folders_value (w_view w3).
Proof.
  intros Hws Hcfg H1 HT H2 Hne dir.
  destruct (getLatestCommitSha_logged (Some repo) "main" w) as (tok & trace & Hl).
  rewrite H1 in Hl. injection Hl as _ ->.
  destruct (getCachedCommitSha_frame repo (logged w trace)) as (r & w2' & H2' & Hso).
  rewrite H2 in H2'. injection H2' as <- <-.
  destruct Hso as (Henv & Hlog & Hview).
  set (w2l := after (set_loading true) w2).
  destruct (total_loadContentsDirectly dir w2l) as (fresh & w3 & Hd).
  pose proof (store_kept_loadContentsDirectly dir w2l) as [Henv3 Hst3].
  pose proof (loadContentsDirectly_requests dir repo w2l) as [more Hmore].
  { unfold w2l, after. cbn. rewrite Hview. exact Hws. }
  unfold after in Hmore. rewrite Hd in Henv3, Hst3, Hmore. cbn [final_world] in *.
  exists fresh, w3.
  assert (Hbody : forall rest,
    (hit <- (if truthy_commit T1 && bool_decide (T1 = Some T2)
             then rest else ret false) ;;
     if hit : bool then ret tt
     else
       set_loading true ;;;
       freshData <- loadContentsDirectly dir ;;
       if freshData : bool then
         v <- get_view ;;
         setCachedData repo dir (default "" (Some T2))
           (Some (files_value v)) (Some (folders_value v))
       else ret tt) w2
    = (if fresh
       then setCachedData repo dir T2 (Some (files_value (w_view w3)))
              (Some (folders_value (w_view w3))) w3
       else Ret tt w3)).
  { intros rest. rewrite bool_decide_eq_false_2 by exact Hne.
    rewrite andb_false_r.
    erewrite bind_ret_eq by reflexivity. cbv beta iota.
    erewrite bind_ret_eq by reflexivity.
    fold w2l. erewrite bind_ret_eq by exact Hd.
    destruct fresh; reflexivity. }
  destruct fresh.
  - destruct (total_setCachedData repo dir T2 (Some (files_value (w_view w3)))
                (Some (folders_value (w_view w3))) w3) as ([] & w4 & H4).
    pose proof (store_only_setCachedData repo dir T2 (Some (files_value (w_view w3)))
                  (Some (folders_value (w_view w3))) w3) as Hso4.
    rewrite H4 in Hso4. cbn [final_world] in Hso4.
    destruct Hso4 as (Henv4 & Hlog4 & Hview4).
    eexists. split; [exact Hd|]. split.
    + rewrite (loadContents_start repo w Hws Hcfg).
      erewrite try_finally_ret_eq; revgoals.
      { apply try_catch_ret_eq.
        erewrite bind_ret_eq by exact H1.
        cbn [truthy_commit]. rewrite HT. cbn [negb].
        erewrite bind_ret_eq by exact H2.
        fold dir. rewrite Hbody. exact H4. }
      reflexivity.
    + unfold after. rewrite H4. cbn.
      rewrite Hlog4, Hview4, Hmore. unfold w2l, after. cbn. rewrite Hlog.
      repeat split; eauto.
  - eexists. split; [exact Hd|]. split.
    + rewrite (loadContents_start repo w Hws Hcfg).
      erewrite try_finally_ret_eq; revgoals.
      { apply try_catch_ret_eq.
        erewrite bind_ret_eq by exact H1.
        cbn [truthy_commit]. rewrite HT. cbn [negb].
        erewrite bind_ret_eq by exact H2.
        fold dir. rewrite Hbody. reflexivity. }
      reflexivity.
    + cbn. rewrite Hmore, Hst3. unfold w2l, after. cbn. rewrite Hlog.
      repeat split; eauto.
Qed.

Lemma setCachedData_store repo dir commit fs ds w :
  w_store (after (setCachedData repo dir commit (Some fs) (Some ds)) w)
  = {| memoryCache :=
         Assoc.set (getCacheKey repo dir)
           (memory_entry repo dir commit (now (w_env w)) fs ds)
           (memoryCache (w_store w));
       commitCache := commitCache (w_store w);
       localStorage := localStorage (w_store w);
       timers := timers (w_store w)
                 ++ [DurableWrite (getCacheKey repo dir)
                       (memory_entry repo dir commit (now (w_env w)) fs ds)
                       repo commit] |}.
Proof. reflexivity. Qed.




(** ** Placeholder tokens *)

Lemma number_toString_inj (a b : Z) :
  Js.number_toString a = Js.number_toString b -> a = b.
Proof.
  unfold Js.number_toString. intros H.
  apply DecimalZ.to_int_inj.
  pose proof (NilEmpty.isi (Z.to_int a)) as Ha.
  rewrite H, NilEmpty.isi in Ha. now injection Ha.
Qed.

Lemma append_inj (p a b : string) : p +:+ a = p +:+ b -> a = b.
Proof.
  induction p as [|c p IH]; [trivial|].
  rewrite !append_cons. intros [= H]. now apply IH.
Qed.

Lemma repo_data_step h repo info :
  repo_data h repo = Some info -> repo_step h repo = Nothing.
Proof.
  unfold repo_data, repo_step.
  destruct (get_repo h repo) as [|r]; [discriminate|].
  destruct (ok r); [|discriminate].
  now destruct (body r).
Qed.

(** On a host that reports an empty repository the resolution comes to
    the placeholder of the instant at which it reads the clock. *)
Lemma resolve_empty_repo repo branch w :
  Js.truthy repo = true ->
  reports_empty (host (w_env w)) repo branch ->
  returned (getLatestCommitSha (Some repo) branch w)
  = Some (Some ("empty-repo-" +:+ Js.number_toString (now (w_env w)))).
Proof.
  intros Hrepo (Hb & Hc & info & Hdata & Hempty & Hdef).
  rewrite getLatestCommitSha_cascade by exact Hrepo. cbn [returned].
  unfold plan. rewrite Hb, Hc, (repo_data_step _ _ _ Hdata), Hdata, Hempty.
  destruct (default_branch info) as [d|]; [|reflexivity].
  destruct (Js.truthy d); [|reflexivity].
  destruct (Hdef eq_refl) as [-> ->]. reflexivity.
Qed.

(** C8: two resolutions of an empty repository that read the clock at
    different instants give two different placeholder tokens; a load
    that finds the other one stored requests the listing again. *)
Theorem C8_placeholders_of_distinct_instants_differ :
  forall (repo : string) (w1 w2 : world),
    Js.truthy repo = true ->
    reports_empty (host (w_env w1)) repo "main" ->
    reports_empty (host (w_env w2)) repo "main" ->
    now (w_env w1) <> now (w_env w2) ->
    let t1 := "empty-repo-" +:+ Js.number_toString (now (w_env w1)) in
    let t2 := "empty-repo-" +:+ Js.number_toString (now (w_env w2)) in
    returned (getLatestCommitSha (Some repo) "main" w1) = Some (Some t1)
    /\ returned (getLatestCommitSha (Some repo) "main" w2) = Some (Some t2)
    /\ is_pseudo_commit t1 = true
    /\ is_pseudo_commit t2 = true
    /\ t1 <> t2
    /\ (currentWorkspace (w_view w2) = Some repo ->
        validateGiteaConfig (w_env w2) = true ->
        returned (getCachedCommitSha repo
                    (after (getLatestCommitSha (Some repo) "main") w2))
          = Some (Some t1) ->
        exists more,
          w_log (after loadContents w2)
          = w_log (after (getLatestCommitSha (Some repo) "main") w2)
            ++ ReqContents repo (default "" (currentFolder (w_view w2))) :: more).
Proof.
  intros repo w1 w2 Hrepo He1 He2 Hnow t1 t2.
  pose proof (resolve_empty_repo repo "main" w1 Hrepo He1) as R1.
  pose proof (resolve_empty_repo repo "main" w2 Hrepo He2) as R2.
  assert (Hne : t1 <> t2).
  { intros H. apply append_inj, number_toString_inj in H. contradiction. }
  split; [exact R1|]. split; [exact R2|].
  split; [unfold t1, is_pseudo_commit, Js.startsWith; now rewrite prefix_app|].
  split; [unfold t2, is_pseudo_commit, Js.startsWith; now rewrite prefix_app|].
  split; [exact Hne|].
  intros Hws Hcfg Hstored. unfold after in *.
  destruct (getLatestCommitSha_logged (Some repo) "main" w2) as (tok & trace & Hl).
  rewrite Hl in R2, Hstored |- *. cbn [returned final_world] in *.
  injection R2 as ->.
  destruct (total_getCachedCommitSha repo (logged w2 trace)) as (r & w3 & Hc).
  rewrite Hc in Hstored. cbn [returned] in Hstored. injection Hstored as ->.
  destruct (loadContents_miss repo (Some t1) t2 w2 (logged w2 trace) w3
              Hws Hcfg Hl eq_refl Hc)
    as (fresh & w4 & w' & _ & Hload & Hlog & _); [congruence|].
  rewrite Hload. exact Hlog.
Qed.

Lemma empty_repo_host_reports : reports_empty empty_repo_host "demo" "main".
Proof.
  split; [reflexivity|]. split; [reflexivity|].
  exists {| default_branch := Some "main"; repo_empty := true |}.
  split; [reflexivity|]. split; [reflexivity|].
  intros _. split; reflexivity.
Defined.

Lemma C8_placeholders_witness :
  returned (getLatestCommitSha (Some "demo") "main"
              (demo_world 5 empty_repo_host empty_store None))
    = Some (Some "empty-repo-5")
  /\ returned (getLatestCommitSha (Some "demo") "main"
                 (demo_world 6 empty_repo_host empty_store None))
     = Some (Some "empty-repo-6")
  /\ "empty-repo-5" <> "empty-repo-6".
Proof.
  destruct (C8_placeholders_of_distinct_instants_differ "demo"
              (demo_world 5 empty_repo_host empty_store None)
              (demo_world 6 empty_repo_host empty_store None)
              eq_refl empty_repo_host_reports empty_repo_host_reports)
    as (H1 & H2 & _ & _ & H3 & _).
  - discriminate.
  - split; [exact H1|]. split; [exact H2 | exact H3].
Defined.

(** ** Ranking of the search results *)

Section Sorting.
Context {A : Type} (cmp : A -> A -> Z).
Hypothesis le_total : forall a b, cmp_le cmp a b \/ cmp_le cmp b a.
Hypothesis le_trans :
  forall a b c, cmp_le cmp a b -> cmp_le cmp b c -> cmp_le cmp a c.

Lemma insert_sorted_perm (x : A) (l : list A) :
  Permutation (insert_sorted cmp x l) (x :: l).
Proof.
  induction l as [|y l IH]; cbn; [reflexivity|].
  destruct (cmp x y <=? 0)%Z; [reflexivity|].
  rewrite IH. apply perm_swap.
Qed.

Lemma sort_perm (l : list A) : Permutation (sort cmp l) l.
Proof.
  induction l as [|x l IH]; cbn; [reflexivity|].
  unfold sort in IH. rewrite insert_sorted_perm. now constructor.
Qed.

Lemma insert_sorted_sorted (x : A) (l : list A) :
  StronglySorted (cmp_le cmp) l -> StronglySorted (cmp_le cmp) (insert_sorted cmp x l).
Proof.
  induction 1 as [|y l Hs IH Hall]; cbn.
  - repeat constructor.
  - destruct (cmp x y <=? 0)%Z eqn:E.
    + apply Z.leb_le in E. constructor; [now constructor|].
      constructor; [exact E|].
      eapply Forall_impl; [exact Hall|]. intros z Hz. now apply (le_trans x y z).
    + apply Z.leb_gt in E. constructor; [exact IH|].
      apply (Permutation_Forall (Permutation_sym (insert_sorted_perm x l))).
      constructor; [|exact Hall].
      destruct (le_total y x) as [H|H]; [exact H | unfold cmp_le in H; lia].
Qed.

Lemma sort_sorted (l : list A) : StronglySorted (cmp_le cmp) (sort cmp l).
Proof.
  induction l as [|x l IH]; cbn; [constructor|].
  now apply insert_sorted_sorted.
Qed.

Lemma take_sorted (n : nat) (l : list A) :
  StronglySorted (cmp_le cmp) l -> StronglySorted (cmp_le cmp) (take n l).
Proof.
  intros Hs. revert n. induction Hs as [|y l Hs IH Hall]; intros [|n]; cbn;
    try constructor; [apply IH|].
  now apply Forall_take.
Qed.
End Sorting.

Lemma compare_hits_ranks coll a b :
  cmp_le (compare_hits coll) a b <-> ranks_before coll a b.
Proof.
  unfold cmp_le, compare_hits, ranks_before, full_depth.
  rewrite !split_length.
  destruct (matchScore b =? matchScore a)%Z eqn:Es; cbn [negb].
  - apply Z.eqb_eq in Es.
    destruct (Z.of_nat _ =? Z.of_nat _)%Z eqn:Ed; cbn [negb].
    + apply Z.eqb_eq in Ed. split; [intros H; right; split; [lia|]; right; now split | lia].
    + apply Z.eqb_neq in Ed. lia.
  - apply Z.eqb_neq in Es. lia.
Qed.

Lemma compare_hits_total coll :
  consistent_collation coll ->
  forall a b, cmp_le (compare_hits coll) a b \/ cmp_le (compare_hits coll) b a.
Proof.
  intros [Htot _] a b. rewrite !compare_hits_ranks. unfold ranks_before.
  destruct (Htot (fullPath a) (fullPath b)); lia.
Qed.

Lemma compare_hits_trans coll :
  consistent_collation coll ->
  forall a b c,
    cmp_le (compare_hits coll) a b -> cmp_le (compare_hits coll) b c ->
    cmp_le (compare_hits coll) a c.
Proof.
  intros [_ Htr] a b c. rewrite !compare_hits_ranks. unfold ranks_before.
  intros Hab Hbc.
  destruct Hab as [?|[? [?|[? Hab]]]], Hbc as [?|[? [?|[? Hbc]]]]; try lia.
  right. split; [lia|]. right. split; [lia|]. eapply Htr; eassumption.
Qed.

Lemma sorted_ranks coll l :
  StronglySorted (cmp_le (compare_hits coll)) l ->
  StronglySorted (ranks_before coll) l.
Proof.
  induction 1 as [|x l Hs IH Hall]; constructor; [exact IH|].
  eapply Forall_impl; [exact Hall|]. intros y. apply compare_hits_ranks.
Qed.

(** What the sort and the slice make of the hits collected. *)
Lemma ranked_slice coll (n : nat) (hits : list search_hit) :
  consistent_collation coll ->
  StronglySorted (ranks_before coll) (slice0 n (sort (compare_hits coll) hits))
  /\ (length (slice0 n (sort (compare_hits coll) hits)) <= n)%nat.
Proof.
  intros Hc. split.
  - apply sorted_ranks, take_sorted, sort_sorted.
    + now apply compare_hits_total.
    + now apply compare_hits_trans.
  - unfold slice0. rewrite length_take. lia.
Qed.

#[local] Instance env_kept_preorder : PreOrder env_kept.
Proof.
  split.
  - intros w. reflexivity.
  - intros a b c E1 E2. unfold env_kept in *. congruence.
Qed.

Lemma env_kept_getCachedData repo dir : preserves env_kept (getCachedData repo dir).
Proof. unfold getCachedData. frame. Qed.

Lemma env_kept_getAllCachedPaths repo : preserves env_kept (getAllCachedPaths repo).
Proof. unfold getAllCachedPaths. frame. Qed.

#[local] Hint Resolve env_kept_getCachedData env_kept_getAllCachedPaths : frames.

Lemma env_kept_scan_cached repo f d cs term paths results :
  preserves env_kept (scan_cached repo f d cs term paths results).
Proof.
  revert results. induction paths as [|p paths IH]; intros results;
    cbn [scan_cached]; frame.
Qed.

#[local] Hint Resolve env_kept_scan_cached : frames.

Lemma env_kept_cached_hits repo term o : preserves env_kept (cached_hits repo term o).
Proof. unfold cached_hits. frame. Qed.

Lemma total_scan_cached repo f d cs term paths results :
  total (scan_cached repo f d cs term paths results).
Proof.
  revert results. induction paths as [|p paths IH]; intros results;
    cbn [scan_cached]; [apply total_ret|].
  apply total_bind; [apply total_getCachedData|].
  intros [c|]; apply IH.
Qed.

Lemma total_cached_hits repo term o : total (cached_hits repo term o).
Proof.
  unfold cached_hits. apply total_bind; [apply total_try_catch, total_ret|].
  intros paths. apply total_scan_cached.
Qed.

(** The synchronous search: every cached match is sorted, then the list
    is cut. *)
Lemma searchCachedData_sorted_slice repo term o w :
  exists hits w',
    cached_hits repo term o w = Ret hits w'
    /\ w_env w' = w_env w
    /\ searchCachedData repo term o w
       = Ret (slice0 (default 100%nat (maxResults o))
                (sort (compare_hits (localeCompare (w_env w))) hits)) w'.
Proof.
  destruct (total_cached_hits repo term o w) as (hits & w' & H).
  pose proof (env_kept_cached_hits repo term o w) as He.
  rewrite H in He. cbn in He. unfold env_kept in He.
  exists hits, w'. split; [exact H|]. split; [exact He|].
  unfold searchCachedData. apply try_catch_ret_eq.
  erewrite bind_ret_eq by exact H.
  unfold sort_hits, bind, get_env, ret. now rewrite He.
Qed.

Lemma cached_hits_same_options repo term o m :
  cached_hits repo term (with_maxResults o m) = cached_hits repo term o.
Proof. reflexivity. Qed.

Lemma env_kept_searchCachedData repo term o :
  preserves env_kept (searchCachedData repo term o).
Proof.
  pose proof (env_kept_cached_hits repo term o).
  unfold searchCachedData, sort_hits. frame.
Qed.

Lemma env_kept_getLatestCommitSha rn branch :
  preserves env_kept (getLatestCommitSha rn branch).
Proof.
  unfold getLatestCommitSha, try_repo, try_branch, try_commits, try_contents.
  frame.
Qed.

Lemma env_kept_setCachedData repo dir commit fs ds :
  preserves env_kept (setCachedData repo dir commit fs ds).
Proof. unfold setCachedData. frame. Qed.

Lemma env_kept_items_of o : preserves env_kept (items_of o).
Proof. intros w. now destruct o as [[]|]. Qed.

#[local] Hint Resolve env_kept_searchCachedData env_kept_getLatestCommitSha
  env_kept_setCachedData env_kept_items_of : frames.

Lemma env_kept_fetchAndCacheFolderData rn dir :
  preserves env_kept (fetchAndCacheFolderData rn dir).
Proof. unfold fetchAndCacheFolderData. frame. Qed.

#[local] Hint Resolve env_kept_fetchAndCacheFolderData : frames.

Lemma env_kept_check_folders repo f d cs term m folders results :
  preserves env_kept (check_folders repo f d cs term m folders results).
Proof.
  revert results. induction folders as [|x folders IH]; intros results;
    cbn [check_folders]; frame.
Qed.

Lemma env_kept_getAllRepositoryContents repo :
  preserves env_kept (getAllRepositoryContents repo).
Proof. unfold getAllRepositoryContents. frame. Qed.

Lemma env_kept_scan_tree_item f d cs term item results :
  preserves env_kept (scan_tree_item f d cs term item results).
Proof. unfold scan_tree_item. frame. Qed.

#[local] Hint Resolve env_kept_check_folders env_kept_getAllRepositoryContents
  env_kept_scan_tree_item : frames.

Lemma env_kept_scan_tree f d cs term m tree results :
  preserves env_kept (scan_tree f d cs term m tree results).
Proof.
  revert results. induction tree as [|x tree IH]; intros results;
    cbn [scan_tree]; frame.
Qed.

#[local] Hint Resolve env_kept_scan_tree : frames.

Lemma total_searchCachedData repo term o : total (searchCachedData repo term o).
Proof. apply total_try_catch, total_ret. Qed.

(** The enhanced search returns the cut of a sorted list: of the hits it
    collected, or of the cached matches when collecting threw. *)
Lemma searchCachedDataEnhanced_sorted_slice repo term o w :
  exists hits n w',
    searchCachedDataEnhanced repo term o w
    = Ret (slice0 n (sort (compare_hits (localeCompare (w_env w))) hits)) w'
    /\ (n <= default 200 (maxResults o))%nat.
Proof.
  unfold searchCachedDataEnhanced. cbv zeta. unfold try_catch.
  destruct (total_searchCachedData repo term o w) as (c & w1 & H1).
  pose proof (env_kept_searchCachedData repo term o w) as E1.
  rewrite H1 in E1. cbn [final_world] in E1. unfold env_kept in E1.
  erewrite bind_ret_eq by exact H1. cbv beta.
  match goal with
  | |- context [bind ?m ?k w1] =>
      assert (Hp : preserves env_kept m) by frame;
      specialize (Hp w1); unfold bind at 1; destruct (m w1) as [results w2|w2]
  end; cbn [final_world] in Hp; unfold env_kept in Hp.
  - exists results, (default 200%nat (maxResults o)), w2. split; [|lia].
    unfold sort_hits, bind, get_env, ret. now rewrite Hp, E1.
  - destruct (searchCachedData_sorted_slice repo term o w2) as (hits & w3 & _ & _ & H3).
    exists hits, (default 100%nat (maxResults o)), w3. split.
    + rewrite H3, Hp, E1. reflexivity.
    + destruct (maxResults o); cbn; lia.
Qed.

(** C7 (as the code has it): both searches return their hits in ranking
    order - score descending, then segments of the full path ascending,
    then the collation of the full paths - and at most maxResults of
    them (default 100, and 200 for the enhanced form).  The synchronous
    search sorts every cached match before it cuts the list, so a larger
    bound only adds hits at the end. *)
Theorem C7_results_ranked_then_truncated :
  forall (repo term : string) (o : search_options) (w : world),
    consistent_collation (localeCompare (w_env w)) ->
    let coll := localeCompare (w_env w) in
    (exists hits w',
       cached_hits repo term o w = Ret hits w'
       /\ searchCachedData repo term o w
          = Ret (slice0 (default 100%nat (maxResults o))
                   (sort (compare_hits coll) hits)) w'
       /\ Permutation (sort (compare_hits coll) hits) hits
       /\ StronglySorted (ranks_before coll) (sort (compare_hits coll) hits))
    /\
    (forall m1 m2 : nat,
       (m1 <= m2)%nat ->
       returned (searchCachedData repo term (with_maxResults o m1) w)
       = slice0 m1 <$> returned (searchCachedData repo term (with_maxResults o m2) w))
    /\
    (exists result w',
       searchCachedDataEnhanced repo term o w = Ret result w'
       /\ StronglySorted (ranks_before coll) result
       /\ (length result <= default 200 (maxResults o))%nat).
Proof.
  intros repo term o w Hc coll. split; [|split].
  - destruct (searchCachedData_sorted_slice repo term o w) as (hits & w' & H & _ & Hs).
    exists hits, w'. split; [exact H|]. split; [exact Hs|]. split.
    + apply sort_perm.
    + apply sorted_ranks, sort_sorted.
      * now apply compare_hits_total.
      * now apply compare_hits_trans.
  - intros m1 m2 Hm.
    destruct (searchCachedData_sorted_slice repo term (with_maxResults o m1) w)
      as (h1 & w1 & Hh1 & _ & Hs1).
    destruct (searchCachedData_sorted_slice repo term (with_maxResults o m2) w)
      as (h2 & w2 & Hh2 & _ & Hs2).
    rewrite cached_hits_same_options in Hh1, Hh2. rewrite Hh1 in Hh2.
    injection Hh2 as <- <-.
    rewrite Hs1, Hs2. cbn. unfold slice0. f_equal.
    rewrite take_take. f_equal. lia.
  - destruct (searchCachedDataEnhanced_sorted_slice repo term o w)
      as (hits & n & w' & H & Hn).
    eexists _, w'. split; [exact H|].
    destruct (ranked_slice (localeCompare (w_env w)) n hits Hc) as [Hs Hl].
    split; [exact Hs | lia].
Qed.

Lemma code_order_consistent : consistent_collation code_order.
Proof.
  unfold code_order. split.
  - intros a b.
    destruct (OrdersEx.String_as_OT.compare_spec a b) as [E|L|G]; [left; lia | left; lia |].
    right. unfold OrdersEx.String_as_OT.lt in G. rewrite G. lia.
  - intros a b c.
    destruct (OrdersEx.String_as_OT.compare_spec a b) as [->|Lab|?]; [trivial | | lia].
    destruct (OrdersEx.String_as_OT.compare_spec b c) as [<-|Lbc|?]; [ | | lia].
    + intros _ _. unfold OrdersEx.String_as_OT.lt in Lab. rewrite Lab. lia.
    + intros _ _.
      pose proof (@transitivity _ _ (@StrictOrder_Transitive _ _ OrdersEx.String_as_OT.lt_strorder)
                    a b c Lab Lbc) as Lac.
      unfold OrdersEx.String_as_OT.lt in Lac. rewrite Lac. lia.
Qed.

Lemma C7_ranked_witness :
  exists result w',
    searchCachedDataEnhanced "demo" "report" no_options
      (demo_world 5 no_host three_names_store None) = Ret result w'
    /\ StronglySorted (ranks_before code_order) result
    /\ (length result <= 200)%nat.
Proof.
  destruct (C7_results_ranked_then_truncated "demo" "report" no_options
              (demo_world 5 no_host three_names_store None)
              code_order_consistent) as (_ & _ & H).
  exact H.
Defined.

(** The three names of the specification's example come out in the order
    of their scores 65, 60 and 40. *)
Example ranking_of_three_names :
  (map (fun h => (fullPath h, matchScore h))
   <$> returned (searchCachedData "demo" "report" no_options
                   (demo_world 5 no_host three_names_store None)))
  = Some [("reports", 65); ("Report.pdf", 60); ("my-report-2023.txt", 40)].
Proof. reflexivity. Qed.

(** C7, as stated, fails for the enhanced search: with the bound 1 it
    stops after the first folder that gives a hit and returns
    f1/xreport; with the bound 2 it also reads f2 and ranks f2/report
    first.  The bound decides which items are considered. *)
Lemma C7_enhanced_bound_changes_candidates :
  (map fullPath
   <$> returned (searchCachedDataEnhanced "demo" "report"
                   (with_maxResults no_options 1)
                   (demo_world 5 two_folder_host empty_store None)))
  = Some ["f1/xreport"]
  /\
  (map fullPath
   <$> returned (searchCachedDataEnhanced "demo" "report"
                   (with_maxResults no_options 2)
                   (demo_world 5 two_folder_host empty_store None)))
  = Some ["f2/report"; "f1/xreport"]
  /\
  returned (searchCachedDataEnhanced "demo" "report"
              (with_maxResults no_options 1)
              (demo_world 5 two_folder_host empty_store None))
  <> (slice0 1
      <$> returned (searchCachedDataEnhanced "demo" "report"
                      (with_maxResults no_options 2)
                      (demo_world 5 two_folder_host empty_store None))).
Proof.
  split; [vm_compute; reflexivity|]. split; [vm_compute; reflexivity|].
  vm_compute. discriminate.
Qed.


(** * Further properties *)

(** ** Writing and reading back *)

Lemma memory_fresh_after_set repo dir commit fs ds w t' :
  t' - now (w_env w) < MAX_CACHE_AGE ->
  memory_fresh (getCacheKey repo dir)
    (at_time t' (after (setCachedData repo dir commit fs ds) w))
  = Some (memory_entry repo dir commit (now (w_env w)) (default [] fs) (default [] ds)).
Proof.
  intros Hage. unfold memory_fresh, after, at_time. cbn.
  rewrite assoc_get_set_eq. cbn.
  apply Z.ltb_lt in Hage. now rewrite Hage.
Qed.

(** X1: what setCachedData stored is what getCachedData returns while the
    entry is under 24 hours old, whatever the durable tier does, and
    getLastFetchTime gives the instant of the write; from 24 hours on, an
    entry that has no durable copy is refused and dropped from the
    volatile map. *)
Theorem X1_write_then_read :
  forall (repo dir commit : string) (fs ds : option (list entry)) (w : world) (t' : Z),
    let d := memory_entry repo dir commit (now (w_env w))
               (default [] fs) (default [] ds) in
    let w1 := at_time t' (after (setCachedData repo dir commit fs ds) w) in
    (t' - now (w_env w) < MAX_CACHE_AGE ->
     getCachedData repo dir w1 = Ret (Some d) w1
     /\ (now (w_env w) <> 0 ->
         getLastFetchTime repo dir w1 = Ret (Some (now (w_env w))) w1))
    /\
    (MAX_CACHE_AGE <= t' - now (w_env w) ->
     Assoc.get (getCacheKey repo dir) (localStorage (w_store w)) = None ->
     returned (getCachedData repo dir w1) = Some None
     /\ Assoc.get (getCacheKey repo dir)
          (memoryCache (w_store (after (getCachedData repo dir) w1))) = None).
Proof.
  intros repo dir commit fs ds w t' d w1. split.
  - intros Hage.
    pose proof (getCachedData_memory_hit repo dir d w1
                  (memory_fresh_after_set repo dir commit fs ds w t' Hage)) as Hget.
    split; [exact Hget|].
    intros Hnow. unfold getLastFetchTime, try_catch.
    erewrite bind_ret_eq by exact Hget. cbn.
    destruct (now (w_env w) =? 0)%Z eqn:E; [apply Z.eqb_eq in E; contradiction|].
    reflexivity.
  - intros Hage Hnone.
    unfold after, getCachedData, try_catch, or_else, bind, get_store.
    unfold w1, after, at_time. cbn. rewrite assoc_get_set_eq. cbn.
    assert (Hold : (t' - now (w_env w) <? MAX_CACHE_AGE)%Z = false)
      by (apply Z.ltb_ge; lia).
    rewrite Hold. cbn. unfold localStorage_getItem. cbn.
    destruct (storage_get_throws (w_env w)); cbn.
    + split; [reflexivity | apply assoc_get_remove_eq].
    + rewrite Hnone. cbn. split; [reflexivity | apply assoc_get_remove_eq].
Qed.

Lemma X1_write_then_read_witness :
  getCachedData "demo" "docs"
    (at_time 1000 (after (setCachedData "demo" "docs" "abc123"
                            (Some [plain_file "a.txt"]) None)
                     (quota_world 5 empty_store)))
  = Ret (Some (memory_entry "demo" "docs" "abc123" 5 [plain_file "a.txt"] []))
        (at_time 1000 (after (setCachedData "demo" "docs" "abc123"
                                (Some [plain_file "a.txt"]) None)
                         (quota_world 5 empty_store))).
Proof.
  destruct (X1_write_then_read "demo" "docs" "abc123" (Some [plain_file "a.txt"]) None
              (quota_world 5 empty_store) 1000) as [Hfresh _].
  apply Hfresh. reflexivity.
Defined.

Lemma for_each_app {A} (l1 l2 : list A) (f : A -> M unit) w :
  for_each (l1 ++ l2) f w = (for_each l1 f ;;; for_each l2 f) w.
Proof.
  revert w. induction l1 as [|a l1 IH]; intros w; [reflexivity|].
  cbn [for_each app]. unfold bind.
  destruct (f a w) as [[] w'|w']; [|reflexivity].
  rewrite IH. reflexivity.
Qed.

Lemma run_task_writes key d repo commit w :
  storage_set_throws (w_env w) = false ->
  run_task (DurableWrite key d repo commit) w
  = Ret tt
      (with_store w
         {| memoryCache := memoryCache (w_store w);
            commitCache :=
              <[repo := {| c_version := CACHE_VERSION; c_timestamp := now (w_env w);
                           c_commitSha := commit |}]> (commitCache (w_store w));
            localStorage :=
              Assoc.set (getCommitCacheKey repo)
                (CommitJson {| c_version := CACHE_VERSION;
                               c_timestamp := now (w_env w);
                               c_commitSha := commit |})
                (Assoc.set key (ListingJson d) (localStorage (w_store w)));
            timers := timers (w_store w) |}).
Proof.
  intros H. unfold run_task, try_catch, bind, localStorage_setItem, Date_now,
    commitCache_set.
  rewrite H. cbn. rewrite H. reflexivity.
Qed.

(** The store once the write scheduled by [setCachedData] has run. *)
Lemma durable_after_write repo dir commit fs ds w :
  storage_set_throws (w_env w) = false ->
  let d := memory_entry repo dir commit (now (w_env w)) (default [] fs) (default [] ds) in
  let c := {| c_version := CACHE_VERSION; c_timestamp := now (w_env w);
              c_commitSha := commit |} in
  let w2 := after run_timers (after (setCachedData repo dir commit fs ds) w) in
  w_env w2 = w_env w
  /\ (exists older,
        localStorage (w_store w2)
        = Assoc.set (getCommitCacheKey repo) (CommitJson c)
            (Assoc.set (getCacheKey repo dir) (ListingJson d) older))
  /\ commitCache (w_store w2) !! repo = Some c
  /\ Assoc.get (getCacheKey repo dir) (memoryCache (w_store w2)) = Some d.
Proof.
  intros Hset d c w2.
  set (w1 := after (setCachedData repo dir commit fs ds) w).
  assert (Htimers : timers (w_store w1)
                    = timers (w_store w)
                      ++ [DurableWrite (getCacheKey repo dir) d repo commit])
    by reflexivity.
  set (w1' := with_store w1 (set_timers (w_store w1) [])).
  assert (Hrun : run_timers w1
                 = (for_each (timers (w_store w)) run_task ;;;
                    for_each [DurableWrite (getCacheKey repo dir) d repo commit] run_task)
                   w1').
  { unfold run_timers, bind at 1, get_store, bind at 1, put_store.
    rewrite Htimers. apply for_each_app. }
  destruct (total_for_each (timers (w_store w)) run_task total_run_task w1')
    as ([] & wm & Hm).
  pose proof (preserves_for_each store_only (timers (w_store w)) run_task
                store_only_run_task w1') as Hso.
  pose proof (preserves_for_each memory_kept (timers (w_store w)) run_task
                memory_kept_run_task w1') as Hmk.
  rewrite Hm in Hso, Hmk. cbn [final_world] in Hso, Hmk.
  destruct Hso as (Henv & _ & _). destruct Hmk as [_ Hmem].
  assert (Henvm : w_env wm = w_env w) by (rewrite Henv; reflexivity).
  assert (Hw2 : w2 = final_world
                  (run_task (DurableWrite (getCacheKey repo dir) d repo commit) wm)).
  { change w2 with (final_world (run_timers w1)). rewrite Hrun.
    erewrite bind_ret_eq by exact Hm. cbn [for_each]. unfold bind.
    destruct (run_task _ wm) as [[] wf|wf]; reflexivity. }
  rewrite run_task_writes in Hw2 by (rewrite Henvm; exact Hset).
  cbn [final_world] in Hw2. rewrite Hw2. cbn. rewrite Henvm.
  split; [reflexivity|]. split; [eauto|]. split; [apply lookup_insert_eq|].
  rewrite Hmem. unfold w1', w1, after. cbn. apply assoc_get_set_eq.
Qed.

(** A listing found only on the durable tier, of the current schema and
    no older than 24 hours, is returned and put into the volatile map. *)
Lemma getCachedData_durable_hit repo dir d w :
  Assoc.get (getCacheKey repo dir) (memoryCache (w_store w)) = None ->
  storage_get_throws (w_env w) = false ->
  Assoc.get (getCacheKey repo dir) (localStorage (w_store w)) = Some (ListingJson d) ->
  version d = CACHE_VERSION ->
  now (w_env w) - timestamp d <= MAX_CACHE_AGE ->
  getCachedData repo dir w
  = Ret (Some d)
      (with_store w
         (set_memoryCache (w_store w)
            (Assoc.set (getCacheKey repo dir) d (memoryCache (w_store w))))).
Proof.
  intros Hmem Hthrows Hls Hv Hage.
  assert (Hold : (now (w_env w) - timestamp d >? MAX_CACHE_AGE)%Z = false)
    by (rewrite Z.gtb_ltb; apply Z.ltb_ge; lia).
  unfold getCachedData, try_catch, or_else, bind, get_store, localStorage_getItem,
    Date_now.
  cbv beta zeta. rewrite Hmem. cbn [ret]. cbv beta iota.
  rewrite Hthrows, Hls. cbn [JSON_parse_listing ret]. cbv beta iota.
  rewrite Hv, String.eqb_refl. cbn [negb]. cbv beta iota. rewrite Hold.
  reflexivity.
Qed.

(** A token found only on the durable tier and no older than 24 hours is
    returned and put into the volatile map. *)
Lemma getCachedCommitSha_durable_hit repo c w :
  commitCache (w_store w) !! repo = None ->
  storage_get_throws (w_env w) = false ->
  Assoc.get (getCommitCacheKey repo) (localStorage (w_store w)) = Some (CommitJson c) ->
  now (w_env w) - c_timestamp c <= MAX_CACHE_AGE ->
  getCachedCommitSha repo w
  = Ret (Some (c_commitSha c))
      (with_store w (set_commitCache (w_store w) (<[repo := c]> (commitCache (w_store w))))).
Proof.
  intros Hmem Hthrows Hls Hage.
  assert (Hold : (now (w_env w) - c_timestamp c >? MAX_CACHE_AGE)%Z = false)
    by (rewrite Z.gtb_ltb; apply Z.ltb_ge; lia).
  unfold getCachedCommitSha, try_catch, or_else, bind, get_store, localStorage_getItem,
    Date_now.
  cbv beta zeta. rewrite Hmem. cbn [ret]. cbv beta iota.
  rewrite Hthrows, Hls. cbn [JSON_parse_commit ret]. cbv beta iota.
  rewrite Hold. reflexivity.
Qed.

(** X2: once the deferred write has run on a working durable tier, a
    reloaded page - empty volatile maps - reads the listing and the
    commit token back for 24 hours, and the read puts the listing into
    the volatile map again.  The cache key of the path must not be the
    commit key of the repository. *)
Theorem X2_entry_survives_reload :
  forall (repo dir commit : string) (fs ds : option (list entry)) (w : world) (t' : Z),
    storage_set_throws (w_env w) = false ->
    storage_get_throws (w_env w) = false ->
    getCacheKey repo dir <> getCommitCacheKey repo ->
    t' - now (w_env w) <= MAX_CACHE_AGE ->
    let d := memory_entry repo dir commit (now (w_env w))
               (default [] fs) (default [] ds) in
    let w2 := at_time t'
                (reload (after run_timers
                           (after (setCachedData repo dir commit fs ds) w))) in
    returned (getCachedData repo dir w2) = Some (Some d)
    /\ Assoc.get (getCacheKey repo dir)
         (memoryCache (w_store (after (getCachedData repo dir) w2))) = Some d
    /\ returned (getCachedCommitSha repo w2) = Some (Some commit).
Proof.
  intros repo dir commit fs ds w t' Hset Hget Hne Hage d w2.
  destruct (durable_after_write repo dir commit fs ds w Hset)
    as (Henv & (older & Hls) & _ & _).
  assert (Hlisting :
    Assoc.get (getCacheKey repo dir) (localStorage (w_store w2))
    = Some (ListingJson d)).
  { change (localStorage (w_store w2))
      with (localStorage (w_store (after run_timers
              (after (setCachedData repo dir commit fs ds) w)))).
    rewrite Hls.
    rewrite assoc_get_set_ne by congruence. apply assoc_get_set_eq. }
  assert (Hcommit :
    Assoc.get (getCommitCacheKey repo) (localStorage (w_store w2))
    = Some (CommitJson {| c_version := CACHE_VERSION; c_timestamp := now (w_env w);
                          c_commitSha := commit |})).
  { change (localStorage (w_store w2))
      with (localStorage (w_store (after run_timers
              (after (setCachedData repo dir commit fs ds) w)))).
    rewrite Hls. apply assoc_get_set_eq. }
  assert (Hthrows : storage_get_throws (w_env w2) = false).
  { change (storage_get_throws (w_env w2))
      with (storage_get_throws (w_env (after run_timers
              (after (setCachedData repo dir commit fs ds) w)))).
    rewrite Henv. exact Hget. }
  pose proof (getCachedData_durable_hit repo dir d w2 eq_refl Hthrows Hlisting
                eq_refl Hage) as Hd.
  pose proof (getCachedCommitSha_durable_hit repo _ w2 (lookup_empty _) Hthrows
                Hcommit Hage) as Hc.
  unfold after. rewrite Hd, Hc. cbn [returned final_world].
  repeat split. apply assoc_get_set_eq.
Qed.

Lemma X2_entry_survives_reload_witness :
  returned (getCachedData "demo" "docs"
              (at_time 1000
                 (reload (after run_timers
                            (after (setCachedData "demo" "docs" "abc123"
                                      (Some [plain_file "a.txt"]) None)
                               (demo_world 5 no_host empty_store None))))))
  = Some (Some (memory_entry "demo" "docs" "abc123" 5 [plain_file "a.txt"] [])).
Proof.
  destruct (X2_entry_survives_reload "demo" "docs" "abc123"
              (Some [plain_file "a.txt"]) None
              (demo_world 5 no_host empty_store None) 1000) as [H _];
    [reflexivity | reflexivity | discriminate | vm_compute; discriminate | exact H].
Defined.


(** ** Reading twice *)

Lemma with_store_same w : with_store w (w_store w) = w.
Proof. now destruct w. Qed.

Lemma set_memoryCache_same s : set_memoryCache s (memoryCache s) = s.
Proof. now destruct s. Qed.

Lemma assoc_remove_absent {V} (k : string) (m : list (string * V)) :
  Assoc.get k m = None -> Assoc.remove k m = m.
Proof.
  induction m as [|[k' v'] m IH]; cbn; [reflexivity|].
  destruct (String.eqb k' k); [discriminate|].
  intros H. now rewrite IH.
Qed.

Lemma assoc_get_remove_ne {V} (k k' : string) (m : list (string * V)) :
  k <> k' -> Assoc.get k' (Assoc.remove k m) = Assoc.get k' m.
Proof.
  intros Hne. induction m as [|[k0 v0] m IH]; cbn; [reflexivity|].
  destruct (String.eqb k0 k) eqn:E; cbn.
  - apply String.eqb_eq in E. subst k0.
    destruct (String.eqb k k') eqn:E';
      [apply String.eqb_eq in E'; contradiction | exact IH].
  - now rewrite IH.
Qed.

(** The read when the volatile map has nothing under the key: all is
    decided by the durable tier. *)
Lemma getCachedData_cold repo dir w :
  Assoc.get (getCacheKey repo dir) (memoryCache (w_store w)) = None ->
  getCachedData repo dir w
  = if storage_get_throws (w_env w) then Ret None w
    else match Assoc.get (getCacheKey repo dir) (localStorage (w_store w)) with
         | None => Ret None w
         | Some cached =>
             match JSON_parse_listing cached w with
             | Throw _ => Ret None w
             | Ret p _ =>
                 if negb (String.eqb (version p) CACHE_VERSION)
                    || (now (w_env w) - timestamp p >? MAX_CACHE_AGE)%Z
                 then Ret None
                        (with_store w
                           (set_localStorage (w_store w)
                              (Assoc.remove (getCacheKey repo dir)
                                 (localStorage (w_store w)))))
                 else Ret (Some p)
                        (with_store w
                           (set_memoryCache (w_store w)
                              (Assoc.set (getCacheKey repo dir) p
                                 (memoryCache (w_store w)))))
             end
         end.
Proof.
  intros Hmem.
  unfold getCachedData, try_catch, or_else, bind, get_store, localStorage_getItem,
    Date_now.
  cbv beta zeta. rewrite Hmem. cbn [ret]. cbv beta iota.
  destruct (storage_get_throws (w_env w)); [reflexivity|].
  destruct (Assoc.get _ (localStorage (w_store w))) as [[|l|c]|]; try reflexivity.
  - cbn [JSON_parse_listing ret]. cbv beta iota.
    destruct (String.eqb (version l) CACHE_VERSION); cbn [negb orb]; [|reflexivity].
    cbv beta iota. destruct (_ >? _)%Z; reflexivity.
  - cbn [JSON_parse_listing ret]. cbv beta iota.
    cbn [version timestamp].
    destruct (String.eqb (c_version c) CACHE_VERSION); cbn [negb orb]; [|reflexivity].
    cbv beta iota. destruct (_ >? _)%Z; reflexivity.
Qed.

(** A stale entry of the volatile map is dropped and the read goes on as
    if it had never been there. *)
Lemma getCachedData_stale repo dir w :
  memory_fresh (getCacheKey repo dir) w = None ->
  getCachedData repo dir w
  = getCachedData repo dir
      (with_store w
         (set_memoryCache (w_store w)
            (Assoc.remove (getCacheKey repo dir) (memoryCache (w_store w))))).
Proof.
  unfold memory_fresh. intros Hstale.
  destruct (Assoc.get (getCacheKey repo dir) (memoryCache (w_store w))) as [m|] eqn:Hm.
  - unfold getCachedData, try_catch, or_else, bind, get_store, Date_now.
    cbv beta zeta. cbn [w_store with_store memoryCache set_memoryCache].
    rewrite Hm, assoc_get_remove_eq.
    destruct (String.eqb (version m) CACHE_VERSION && _); [discriminate|].
    reflexivity.
  - rewrite (assoc_remove_absent _ _ Hm), set_memoryCache_same, with_store_same.
    reflexivity.
Qed.

Lemma read_again_cold repo dir w :
  Assoc.get (getCacheKey repo dir) (memoryCache (w_store w)) = None ->
  returned (getCachedData repo dir (after (getCachedData repo dir) w))
  = returned (getCachedData repo dir w).
Proof.
  intros Hmem. unfold after. rewrite (getCachedData_cold repo dir w Hmem).
  destruct (storage_get_throws (w_env w)) eqn:Ht.
  { cbn [final_world]. rewrite (getCachedData_cold repo dir w Hmem), Ht. reflexivity. }
  destruct (Assoc.get _ (localStorage (w_store w))) as [cached|] eqn:Hls.
  2: { cbn [final_world]. rewrite (getCachedData_cold repo dir w Hmem), Ht, Hls.
       reflexivity. }
  destruct (JSON_parse_listing cached w) as [p w0|w0] eqn:Hp.
  2: { cbn [final_world]. rewrite (getCachedData_cold repo dir w Hmem), Ht, Hls, Hp.
       reflexivity. }
  destruct (negb (String.eqb (version p) CACHE_VERSION)
            || (now (w_env w) - timestamp p >? MAX_CACHE_AGE)%Z) eqn:Hbad.
  - cbn [final_world returned].
    rewrite getCachedData_cold by exact Hmem.
    cbn [w_env w_store with_store localStorage set_localStorage].
    rewrite Ht, assoc_get_remove_eq. reflexivity.
  - cbn [final_world returned].
    apply orb_false_elim in Hbad as [Hv Ha].
    apply negb_false_iff in Hv.
    set (w1 := with_store w _).
    destruct (memory_fresh (getCacheKey repo dir) w1) as [d|] eqn:Hf.
    + rewrite (getCachedData_memory_hit _ _ _ _ Hf). cbn [returned].
      unfold memory_fresh, w1 in Hf.
      cbn [w_env w_store with_store memoryCache set_memoryCache] in Hf.
      rewrite assoc_get_set_eq in Hf.
      destruct (_ && _) in Hf; congruence.
    + rewrite (getCachedData_stale _ _ _ Hf). subst w1.
      rewrite getCachedData_cold
        by (cbn [w_env w_store with_store memoryCache set_memoryCache];
            apply assoc_get_remove_eq).
      cbn [w_env w_store with_store localStorage memoryCache set_memoryCache].
      rewrite Ht, Hls.
      assert (Hp' : forall w', JSON_parse_listing cached w' = Ret p w').
      { destruct cached; cbn in Hp |- *; [discriminate| |];
          intros w'; injection Hp as <- _; reflexivity. }
      rewrite Hp', Hv, Ha. reflexivity.
Qed.

(** X3: a read repeated at once gives what the first read gave, in every
    state of the two tiers. *)
Theorem X3_read_is_repeatable :
  forall (repo dir : string) (w : world),
    returned (getCachedData repo dir (after (getCachedData repo dir) w))
    = returned (getCachedData repo dir w).
Proof.
  intros repo dir w.
  destruct (memory_fresh (getCacheKey repo dir) w) as [d|] eqn:Hf.
  - unfold after. rewrite (getCachedData_memory_hit _ _ _ _ Hf).
    cbn [final_world]. now rewrite (getCachedData_memory_hit _ _ _ _ Hf).
  - unfold after. rewrite (getCachedData_stale _ _ _ Hf).
    apply read_again_cold.
    cbn [w_env w_store with_store memoryCache set_memoryCache].
    apply assoc_get_remove_eq.
Qed.

(** ** One key per stripped path *)

Lemma getCacheKey_slot repo dir :
  getCacheKey repo dir = CACHE_PREFIX +:+ repo +:+ "_" +:+ slot dir.
Proof. reflexivity. Qed.

Lemma getCacheKey_same_slot repo p q :
  getCacheKey repo p = getCacheKey repo q <-> slot p = slot q.
Proof.
  rewrite !getCacheKey_slot. split; [|now intros ->].
  intros H. apply append_inj in H. apply append_inj in H.
  now apply (append_inj "_") in H.
Qed.

(** What a read returns depends on the volatile entry under the key, the
    durable tier and the environment only. *)
Lemma getCachedData_returned_ext repo dir w w' :
  w_env w' = w_env w ->
  localStorage (w_store w') = localStorage (w_store w) ->
  Assoc.get (getCacheKey repo dir) (memoryCache (w_store w'))
  = Assoc.get (getCacheKey repo dir) (memoryCache (w_store w)) ->
  returned (getCachedData repo dir w') = returned (getCachedData repo dir w).
Proof.
  intros Henv Hls Hmem.
  assert (Hfresh : memory_fresh (getCacheKey repo dir) w'
                   = memory_fresh (getCacheKey repo dir) w)
    by (unfold memory_fresh; now rewrite Hmem, Henv).
  destruct (memory_fresh (getCacheKey repo dir) w) as [d|] eqn:Hf.
  - now rewrite (getCachedData_memory_hit _ _ _ _ Hfresh),
      (getCachedData_memory_hit _ _ _ _ Hf).
  - rewrite (getCachedData_stale _ _ _ Hfresh), (getCachedData_stale _ _ _ Hf).
    rewrite !getCachedData_cold
      by (cbn [w_env w_store with_store memoryCache set_memoryCache];
          apply assoc_get_remove_eq).
    cbn [w_env w_store with_store localStorage memoryCache set_memoryCache].
    rewrite Henv, Hls.
    destruct (storage_get_throws (w_env w)); [reflexivity|].
    destruct (Assoc.get _ (localStorage (w_store w))) as [[|l|c]|];
      try reflexivity; cbn [JSON_parse_listing ret];
      destruct (negb _ || _); reflexivity.
Qed.

Lemma rev_string_app acc p s :
  Js.rev_string acc (p +:+ s) = Js.rev_string (Js.rev_string acc p) s.
Proof.
  revert acc. induction p as [|c p IH]; intros acc; [reflexivity|].
  rewrite append_cons. cbn [Js.rev_string]. apply IH.
Qed.

Lemma drop_trailing_slash p :
  Js.drop_trailing Js.slash (p +:+ "/") = Js.drop_trailing Js.slash p.
Proof. unfold Js.drop_trailing. rewrite rev_string_app. reflexivity. Qed.

Lemma strip_slashes_leading p : Js.strip_slashes ("/" +:+ p) = Js.strip_slashes p.
Proof. reflexivity. Qed.

Lemma strip_slashes_trailing p : Js.strip_slashes (p +:+ "/") = Js.strip_slashes p.
Proof.
  unfold Js.strip_slashes. induction p as [|c p IH]; [reflexivity|].
  rewrite append_cons. cbn [Js.drop_leading].
  destruct (Ascii.eqb c Js.slash); [exact IH|].
  rewrite <- append_cons. apply drop_trailing_slash.
Qed.

(** A read at the instant of the write, for a path of the same slot. *)
Lemma getCachedData_after_set repo p q commit fs ds w :
  slot p = slot q ->
  getCachedData repo q (after (setCachedData repo p commit fs ds) w)
  = Ret (Some (memory_entry repo p commit (now (w_env w))
                 (default [] fs) (default [] ds)))
        (after (setCachedData repo p commit fs ds) w).
Proof.
  intros Hslot. apply getCachedData_memory_hit.
  apply getCacheKey_same_slot with (repo := repo) in Hslot.
  rewrite <- Hslot.
  assert (Heq : at_time (now (w_env w)) (after (setCachedData repo p commit fs ds) w)
                = after (setCachedData repo p commit fs ds) w).
  { unfold after, at_time. cbn. destruct w as [[] ? ? ?]. reflexivity. }
  rewrite <- Heq. apply memory_fresh_after_set. unfold MAX_CACHE_AGE. lia.
Qed.

(** X4: a listing is kept per stripped path, and an empty stripped path
    shares the slot of the path root.  A write for one path is what a
    read for another path returns exactly when both paths have the same
    slot; otherwise the read returns what it returned before the write.
    A slash before or after a path does not change its slot, and the
    top level has the slot of a path named root. *)
Theorem X4_one_slot_per_stripped_path :
  forall (repo p q commit : string) (fs ds : option (list entry)) (w : world),
    let w1 := after (setCachedData repo p commit fs ds) w in
    (slot p = slot q ->
     getCachedData repo q w1
     = Ret (Some (memory_entry repo p commit (now (w_env w))
                    (default [] fs) (default [] ds))) w1)
    /\ (slot p <> slot q ->
        returned (getCachedData repo q w1) = returned (getCachedData repo q w))
    /\ getCacheKey repo ("/" +:+ p) = getCacheKey repo p
    /\ getCacheKey repo (p +:+ "/") = getCacheKey repo p
    /\ getCacheKey repo "" = getCacheKey repo "root".
Proof.
  intros repo p q commit fs ds w w1. split; [|split; [|split; [|split]]].
  - apply getCachedData_after_set.
  - intros Hslot. apply getCachedData_returned_ext; try reflexivity.
    unfold w1, after. cbn.
    apply assoc_get_set_ne. intros Heq. apply Hslot.
    now apply getCacheKey_same_slot in Heq.
  - unfold getCacheKey. cbv zeta. now rewrite strip_slashes_leading.
  - unfold getCacheKey. cbv zeta. now rewrite strip_slashes_trailing.
  - reflexivity.
Qed.

Lemma X4_one_slot_witness :
  getCachedData "demo" "root"
    (after (setCachedData "demo" "" "abc123" (Some [plain_file "a.txt"]) None)
       (quota_world 5 empty_store))
  = Ret (Some (memory_entry "demo" "" "abc123" 5 [plain_file "a.txt"] []))
        (after (setCachedData "demo" "" "abc123" (Some [plain_file "a.txt"]) None)
           (quota_world 5 empty_store))
  /\ returned (getCachedData "demo" "docs"
       (after (setCachedData "demo" "" "abc123" (Some [plain_file "a.txt"]) None)
          (quota_world 5 empty_store)))
     = returned (getCachedData "demo" "docs" (quota_world 5 empty_store)).
Proof.
  destruct (X4_one_slot_per_stripped_path "demo" "" "root" "abc123"
              (Some [plain_file "a.txt"]) None (quota_world 5 empty_store))
    as (Hsame & _).
  destruct (X4_one_slot_per_stripped_path "demo" "" "docs" "abc123"
              (Some [plain_file "a.txt"]) None (quota_world 5 empty_store))
    as (_ & Hother & _).
  split; [apply Hsame; reflexivity | apply Hother; discriminate].
Defined.

(** ** Clearing a repository *)

Lemma set_localStorage_same s : set_localStorage s (localStorage s) = s.
Proof. now destruct s. Qed.

Lemma for_each_memoryCache_delete keys w :
  for_each keys memoryCache_delete w
  = Ret tt (with_store w
              (set_memoryCache (w_store w)
                 (remove_all keys (memoryCache (w_store w))))).
Proof.
  revert w. induction keys as [|k keys IH]; intros w.
  - cbn. now rewrite set_memoryCache_same, with_store_same.
  - cbn [for_each]. unfold bind. cbn [memoryCache_delete]. rewrite IH. reflexivity.
Qed.

Lemma for_each_localStorage_removeItem keys w :
  for_each keys localStorage_removeItem w
  = Ret tt (with_store w
              (set_localStorage (w_store w)
                 (remove_all keys (localStorage (w_store w))))).
Proof.
  revert w. induction keys as [|k keys IH]; intros w.
  - cbn. now rewrite set_localStorage_same, with_store_same.
  - cbn [for_each]. unfold bind. cbn [localStorage_removeItem]. rewrite IH.
    reflexivity.
Qed.

Lemma assoc_get_remove {V} (k k' : string) (m : list (string * V)) :
  Assoc.get k' (Assoc.remove k m)
  = if String.eqb k k' then None else Assoc.get k' m.
Proof.
  destruct (String.eqb k k') eqn:E.
  - apply String.eqb_eq in E. subst k'. apply assoc_get_remove_eq.
  - apply assoc_get_remove_ne. intros ->. now rewrite String.eqb_refl in E.
Qed.

Lemma assoc_get_remove_all {V} (k : string) keys (m : list (string * V)) :
  Assoc.get k (remove_all keys m)
  = if existsb (String.eqb k) keys then None else Assoc.get k m.
Proof.
  unfold remove_all. revert m. induction keys as [|k0 keys IH]; intros m; [reflexivity|].
  cbn [fold_left existsb]. rewrite IH, assoc_get_remove, (String.eqb_sym k k0).
  destruct (String.eqb k0 k), (existsb _ keys); reflexivity.
Qed.

Lemma assoc_get_in {V} (k : string) (v : V) (m : list (string * V)) :
  Assoc.get k m = Some v -> In (k, v) m.
Proof.
  induction m as [|[k' v'] m IH]; cbn; [discriminate|].
  destruct (String.eqb k' k) eqn:E.
  - apply String.eqb_eq in E. intros [= ->]. left. now subst.
  - intros H. right. now apply IH.
Qed.

Lemma existsb_eqb_in (k : string) keys :
  existsb (String.eqb k) keys = true <-> In k keys.
Proof.
  rewrite existsb_exists. split.
  - intros (x & Hin & E). apply String.eqb_eq in E. now subst.
  - intros Hin. exists k. split; [exact Hin | apply String.eqb_refl].
Qed.

(** The store [clearRepositoryCache] leaves: an unreadable durable tier
    ends the run after the volatile maps were cleared. *)
Lemma clearRepositoryCache_world repo w :
  clearRepositoryCache repo w
  = Ret tt
      (with_store w
         {| memoryCache :=
              remove_all
                (map fst (List.filter (fun kv => String.eqb (repoName (snd kv)) repo)
                                      (memoryCache (w_store w))))
                (memoryCache (w_store w));
            commitCache := delete repo (commitCache (w_store w));
            localStorage :=
              if storage_get_throws (w_env w) then localStorage (w_store w)
              else remove_all
                     (List.filter
                        (fun key => Js.startsWith key (CACHE_PREFIX +:+ repo +:+ "_")
                                    || String.eqb key (getCommitCacheKey repo))
                        (Assoc.keys (localStorage (w_store w))))
                     (localStorage (w_store w));
            timers := timers (w_store w) |}).
Proof.
  unfold clearRepositoryCache, try_catch, bind at 1, get_store.
  cbv beta zeta. unfold bind at 1. rewrite for_each_memoryCache_delete.
  unfold bind at 1, commitCache_delete. unfold bind, localStorage_keys.
  cbn [w_env w_store with_store].
  destruct (storage_get_throws (w_env w)); [reflexivity|].
  rewrite for_each_localStorage_removeItem. reflexivity.
Qed.

Lemma assoc_get_remove_all_filter {V} (f : string -> bool) k (m : list (string * V)) :
  f k = true ->
  Assoc.get k (remove_all (List.filter f (Assoc.keys m)) m) = None.
Proof.
  intros Hf. rewrite assoc_get_remove_all.
  destruct (existsb _ _) eqn:E; [reflexivity|].
  destruct (Assoc.get k m) as [v|] eqn:Hget; [|reflexivity].
  apply assoc_get_in in Hget.
  assert (Hin : In k (List.filter f (Assoc.keys m))).
  { apply filter_In. split; [|exact Hf].
    unfold Assoc.keys. apply (in_map fst) in Hget. exact Hget. }
  apply existsb_eqb_in in Hin. congruence.
Qed.

Lemma append_assoc (a b c : string) : (a +:+ b) +:+ c = a +:+ (b +:+ c).
Proof.
  induction a as [|x a IH]; [reflexivity|].
  rewrite !append_cons. now rewrite IH.
Qed.

Lemma getCacheKey_startsWith repo dir :
  Js.startsWith (getCacheKey repo dir) (CACHE_PREFIX +:+ repo +:+ "_") = true.
Proof.
  unfold Js.startsWith. rewrite getCacheKey_slot.
  rewrite <- (append_assoc repo "_" (slot dir)).
  rewrite <- (append_assoc CACHE_PREFIX (repo +:+ "_") (slot dir)).
  apply prefix_app.
Qed.

(** An entry a read returns is the one the volatile map holds under the
    key, or comes from a readable durable tier that has the key. *)
Lemma getCachedData_served_from repo dir w d :
  returned (getCachedData repo dir w) = Some (Some d) ->
  Assoc.get (getCacheKey repo dir) (memoryCache (w_store w)) = Some d
  \/ (storage_get_throws (w_env w) = false
      /\ Assoc.get (getCacheKey repo dir) (localStorage (w_store w)) <> None).
Proof.
  destruct (memory_fresh (getCacheKey repo dir) w) as [d'|] eqn:Hf.
  - rewrite (getCachedData_memory_hit _ _ _ _ Hf). intros [= <-]. left.
    unfold memory_fresh in Hf.
    destruct (Assoc.get _ _) as [m|]; [|discriminate].
    destruct (_ && _); congruence.
  - rewrite (getCachedData_stale _ _ _ Hf).
    rewrite getCachedData_cold
      by (cbn [w_env w_store with_store memoryCache set_memoryCache];
          apply assoc_get_remove_eq).
    cbn [w_env w_store with_store localStorage memoryCache set_memoryCache].
    destruct (storage_get_throws (w_env w)); [discriminate|].
    destruct (Assoc.get _ (localStorage (w_store w))); [|discriminate].
    intros _. right. split; [reflexivity | discriminate].
Qed.

(** Without a volatile token and without a readable durable one there
    is no token. *)
Lemma getCachedCommitSha_none repo w :
  commitCache (w_store w) !! repo = None ->
  storage_get_throws (w_env w) = true
  \/ Assoc.get (getCommitCacheKey repo) (localStorage (w_store w)) = None ->
  getCachedCommitSha repo w = Ret None w.
Proof.
  intros Hmem Hdur.
  unfold getCachedCommitSha, try_catch, or_else, bind, get_store, localStorage_getItem.
  cbv beta zeta. rewrite Hmem. cbn [ret]. cbv beta iota.
  destruct (storage_get_throws (w_env w)); [reflexivity|].
  destruct Hdur as [H | ->]; [discriminate | reflexivity].
Qed.



(** X6: the durable tier is cleared by key prefix.  The durable listings
    of every repository whose name is the cleared name followed by an
    underscore and more are removed as well, so that a reloaded page
    finds none of them; a durable key that neither starts with the
    prefix of the repository nor is its commit key keeps its value. *)
Theorem X6_clear_is_by_key_prefix :
  forall (repo : string) (w : world),
    storage_get_throws (w_env w) = false ->
    let w1 := after (clearRepositoryCache repo) w in
    (forall (x dir : string),
       Assoc.get (getCacheKey (repo +:+ "_" +:+ x) dir) (localStorage (w_store w1))
       = None
       /\ getCachedData (repo +:+ "_" +:+ x) dir (reload w1) = Ret None (reload w1))
    /\ (forall key : string,
          Js.startsWith key (CACHE_PREFIX +:+ repo +:+ "_") = false ->
          key <> getCommitCacheKey repo ->
          Assoc.get key (localStorage (w_store w1))
          = Assoc.get key (localStorage (w_store w))).
Proof.
  intros repo w Hthrows w1.
  assert (Hls : localStorage (w_store w1)
                = remove_all
                    (List.filter
                       (fun key => Js.startsWith key (CACHE_PREFIX +:+ repo +:+ "_")
                                   || String.eqb key (getCommitCacheKey repo))
                       (Assoc.keys (localStorage (w_store w))))
                    (localStorage (w_store w))).
  { unfold w1, after. rewrite clearRepositoryCache_world. cbn. now rewrite Hthrows. }
  assert (Henv : w_env w1 = w_env w).
  { unfold w1, after. now rewrite clearRepositoryCache_world. }
  split.
  - intros x dir.
    assert (Hgone : Assoc.get (getCacheKey (repo +:+ "_" +:+ x) dir)
                      (localStorage (w_store w1)) = None).
    { rewrite Hls. apply assoc_get_remove_all_filter.
      apply orb_true_iff. left. unfold Js.startsWith.
      rewrite getCacheKey_slot.
      rewrite <- (append_assoc repo "_" x).
      rewrite (append_assoc (repo +:+ "_") x ("_" +:+ slot dir)).
      rewrite <- (append_assoc CACHE_PREFIX (repo +:+ "_")).
      apply prefix_app. }
    split; [exact Hgone|].
    rewrite getCachedData_cold by reflexivity.
    change (w_env (reload w1)) with (w_env w1).
    change (localStorage (w_store (reload w1))) with (localStorage (w_store w1)).
    now rewrite Henv, Hthrows, Hgone.
  - intros key Hpre Hne. rewrite Hls, assoc_get_remove_all.
    destruct (existsb _ _) eqn:E; [|reflexivity].
    apply existsb_eqb_in, filter_In in E. destruct E as [_ E].
    rewrite Hpre in E. cbn in E. apply String.eqb_eq in E. contradiction.
Qed.

Lemma X6_clear_prefix_witness :
  let w := after run_timers
             (after (setCachedData "demo_site" "docs" "abc123"
                       (Some [plain_file "a.txt"]) None)
                (demo_world 5 no_host empty_store None)) in
  Assoc.get (getCacheKey "demo_site" "docs") (localStorage (w_store w))
  = Some (ListingJson (memory_entry "demo_site" "docs" "abc123" 5
                         [plain_file "a.txt"] []))
  /\ Assoc.get (getCacheKey "demo_site" "docs")
       (localStorage (w_store (after (clearRepositoryCache "demo") w)))
     = None.
Proof.
  intros w. split; [reflexivity|].
  destruct (X6_clear_is_by_key_prefix "demo" w) as [H _]; [reflexivity|].
  exact (proj1 (H "site" "docs")).
Defined.

(** ** Loading without a stored token *)

Lemma total_updateLastFetchTime : total updateLastFetchTime.
Proof.
  intros w. unfold updateLastFetchTime, bind at 1, get_view.
  destruct (currentWorkspace (w_view w)) as [repo|]; [|eexists _, _; reflexivity].
  destruct (Js.truthy repo); [|eexists _, _; reflexivity].
  apply total_bind; [apply total_try_catch, total_ret | intros _; apply total_ret].
Qed.

Lemma store_only_updateLastFetchTime : preserves store_only updateLastFetchTime.
Proof.
  pose proof store_only_getCachedData.
  unfold updateLastFetchTime, getLastFetchTime. frame.
Qed.

(** [loadContents] leaves the loading flag down. *)
Lemma loadContents_loading repo w a w' :
  currentWorkspace (w_view w) = Some repo ->
  validateGiteaConfig (w_env w) = true ->
  loadContents w = Ret a w' ->
  loading (w_view w') = false.
Proof.
  intros Hws Hcfg. rewrite (loadContents_start repo w Hws Hcfg).
  unfold try_finally.
  destruct (try_catch _ _ w) as [b w1|w1]; intros [= _ <-]; reflexivity.
Qed.

(** When the repository has no stored token, [loadContents] asks the
    host for the listing of the current folder. *)
Lemma loadContents_no_token repo w :
  currentWorkspace (w_view w) = Some repo ->
  validateGiteaConfig (w_env w) = true ->
  commitCache (w_store w) !! repo = None ->
  storage_get_throws (w_env w) = true
  \/ Assoc.get (getCommitCacheKey repo) (localStorage (w_store w)) = None ->
  exists w' before more,
    loadContents w = Ret tt w'
    /\ w_log w' = w_log w ++ before
                  ++ ReqContents repo (default "" (currentFolder (w_view w))) :: more
    /\ loading (w_view w') = false.
Proof.
  intros Hws Hcfg Hcc Hdur.
  set (dir := default "" (currentFolder (w_view w))).
  destruct (getLatestCommitSha_logged (Some repo) "main" w) as (tok & trace & H1).
  destruct (truthy_commit tok) eqn:Htok.
  - destruct tok as [T2|]; [|discriminate]. cbn in Htok.
    assert (H2 : getCachedCommitSha repo (logged w trace) = Ret None (logged w trace)).
    { apply getCachedCommitSha_none; [exact Hcc | exact Hdur]. }
    destruct (loadContents_miss repo None T2 w _ _ Hws Hcfg H1 Htok H2)
      as (fresh & w3 & w' & _ & Hl & [more Hlog] & _); [discriminate|].
    exists w', trace, more. split; [exact Hl|]. split.
    + rewrite Hlog. unfold logged. cbn. now rewrite <- app_assoc.
    + eapply loadContents_loading; eassumption.
  - destruct (total_loadContentsDirectly dir (logged w trace)) as (b & w3 & Hd).
    destruct (loadContentsDirectly_requests dir repo (logged w trace) Hws)
      as [more Hmore].
    unfold after in Hmore. rewrite Hd in Hmore. cbn [final_world] in Hmore.
    assert (Hl : loadContents w = (set_loading false ;;; ret tt) w3).
    { rewrite (loadContents_start repo w Hws Hcfg).
      apply try_finally_ret_eq. apply try_catch_ret_eq.
      erewrite bind_ret_eq by exact H1. rewrite Htok. cbn [negb].
      fold dir. erewrite bind_ret_eq by exact Hd. reflexivity. }
    eexists _, trace, more. split; [exact Hl|]. cbn.
    split; [|reflexivity].
    rewrite Hmore. unfold logged. cbn. now rewrite <- app_assoc.
Qed.



(** ** Hits and scores *)

Lemma prefix_toLowerCase (t s : string) :
  String.prefix t s = true ->
  String.prefix (Js.toLowerCase t) (Js.toLowerCase s) = true.
Proof.
  revert s. induction t as [|a t IH]; intros s; [intros _; apply prefix_empty|].
  destruct s as [|b s]; [discriminate|].
  cbn [Js.toLowerCase]. rewrite !prefix_cons.
  destruct (ascii_dec a b) as [->|]; [|discriminate].
  intros H. destruct (ascii_dec _ _); [now apply IH | contradiction].
Qed.

Lemma includes_toLowerCase (s t : string) :
  Js.includes s t = true ->
  Js.includes (Js.toLowerCase s) (Js.toLowerCase t) = true.
Proof.
  induction s as [|c s IH].
  - destruct t; [reflexivity | discriminate].
  - rewrite includes_cons. cbn [Js.toLowerCase]. rewrite includes_cons.
    intros H. apply orb_true_iff in H as [H|H]; apply orb_true_iff.
    + left. now apply prefix_toLowerCase in H.
    + right. now apply IH.
Qed.

Lemma includes_normalize cs (n t : string) :
  Js.includes (normalize cs n) (normalize cs t) = true ->
  Js.includes (Js.toLowerCase n) (Js.toLowerCase t) = true.
Proof. destruct cs; [apply includes_toLowerCase | trivial]. Qed.

(** The score is at most 115, and at least 25 once the folded name
    contains the folded term. *)
Lemma calculateMatchScore_bounds (n t p : string) :
  0 <= calculateMatchScore n t p <= 115
  /\ (Js.includes (Js.toLowerCase n) (Js.toLowerCase t) = true ->
      25 <= calculateMatchScore n t p).
Proof.
  unfold calculateMatchScore. cbv zeta.
  set (depth := if Js.truthy p then Z.of_nat (length (Js.split Js.slash p)) else 0).
  assert (Hd : 0 <= depth) by (unfold depth; destruct (Js.truthy p); lia).
  destruct (String.eqb (Js.toLowerCase n) (Js.toLowerCase t)),
    (Js.startsWith (Js.toLowerCase n) (Js.toLowerCase t)),
    (Js.includes (Js.toLowerCase n) (Js.toLowerCase t)), (Js.includes n t);
    split; try lia; intros; try discriminate; lia.
Qed.

Lemma yields_ret {A} (P : A -> Prop) (a : A) : P a -> yields P (ret a).
Proof. intros H w a' w' [= <- _]. exact H. Qed.

Lemma yields_bind {A B} (P : A -> Prop) (Q : B -> Prop) (m : M A) (k : A -> M B) :
  yields P m -> (forall a, P a -> yields Q (k a)) -> yields Q (bind m k).
Proof.
  intros Hm Hk w b w'. unfold bind.
  destruct (m w) as [a w1|w1] eqn:E; [|discriminate].
  apply (Hk a (Hm _ _ _ E)).
Qed.

Lemma yields_any {A} (m : M A) : yields (fun _ => True) m.
Proof. now intros w a w' _. Qed.

Lemma yields_try_catch {A} (P : A -> Prop) (m h : M A) :
  yields P m -> yields P h -> yields P (try_catch m h).
Proof.
  intros Hm Hh w a w'. unfold try_catch.
  destruct (m w) as [a1 w1|w1] eqn:E.
  - intros [= <- _]. exact (Hm _ _ _ E).
  - apply Hh.
Qed.

Section Sound.
Variables (incFiles incFolders cs : bool) (searchTerm : string).

Lemma scan_listing_sound dir fs ds :
  Forall (sound_hit incFiles incFolders cs searchTerm)
    (scan_listing incFiles incFolders cs searchTerm dir fs ds).
Proof.
  unfold scan_listing. cbv zeta. apply Forall_app. split.
  - destruct incFiles eqn:Ef; [|constructor].
    apply List.Forall_forall. intros h Hin. apply in_map_iff in Hin as (e & <- & Hin).
    apply filter_In in Hin as [_ Hm].
    split; [|reflexivity]. exists (name e). repeat split. exact Hm.
  - destruct incFolders eqn:Ef; [|constructor].
    apply List.Forall_forall. intros h Hin. apply in_map_iff in Hin as (e & <- & Hin).
    apply filter_In in Hin as [_ Hm].
    split; [|reflexivity]. exists (name e). repeat split. exact Hm.
Qed.

Lemma scan_cached_sound repo paths results :
  Forall (sound_hit incFiles incFolders cs searchTerm) results ->
  yields (Forall (sound_hit incFiles incFolders cs searchTerm))
    (scan_cached repo incFiles incFolders cs searchTerm paths results).
Proof.
  revert results. induction paths as [|p paths IH]; intros results Hr.
  - now apply yields_ret.
  - cbn [scan_cached]. eapply yields_bind; [apply yields_any|].
    intros [d|] _; apply IH; [|exact Hr].
    apply Forall_app. split; [exact Hr | apply scan_listing_sound].
Qed.

Lemma sort_hits_sound results :
  Forall (sound_hit incFiles incFolders cs searchTerm) results ->
  yields (Forall (sound_hit incFiles incFolders cs searchTerm)) (sort_hits results).
Proof.
  intros Hr. unfold sort_hits. eapply yields_bind; [apply yields_any|].
  intros e _. apply yields_ret.
  eapply Permutation_Forall; [|exact Hr].
  symmetry. apply sort_perm.
Qed.

Lemma slice0_sound n results :
  Forall (sound_hit incFiles incFolders cs searchTerm) results ->
  Forall (sound_hit incFiles incFolders cs searchTerm) (slice0 n results).
Proof. apply Forall_take. Qed.

Lemma scan_fetched_sound folderName fs ds :
  Forall (sound_hit incFiles incFolders cs searchTerm)
    (scan_fetched incFiles incFolders cs searchTerm folderName fs ds).
Proof.
  unfold scan_fetched. cbv zeta. apply Forall_app. split.
  - destruct incFiles eqn:Ef; [|constructor].
    apply List.Forall_forall. intros h Hin. apply in_map_iff in Hin as (e & <- & Hin).
    apply filter_In in Hin as [_ Hm].
    split; [|reflexivity]. exists (name e). repeat split. exact Hm.
  - destruct incFolders eqn:Ef; [|constructor].
    apply List.Forall_forall. intros h Hin. apply in_map_iff in Hin as (e & <- & Hin).
    apply filter_In in Hin as [_ Hm].
    split; [|reflexivity]. exists (name e). repeat split. exact Hm.
Qed.

Lemma check_folders_sound repo maxResults foldersToCheck results :
  Forall (sound_hit incFiles incFolders cs searchTerm) results ->
  yields (Forall (sound_hit incFiles incFolders cs searchTerm))
    (check_folders repo incFiles incFolders cs searchTerm maxResults
       foldersToCheck results).
Proof.
  revert results. induction foldersToCheck as [|f rest IH]; intros results Hr.
  - now apply yields_ret.
  - cbn [check_folders]. eapply yields_bind; [apply yields_any|].
    intros [[fs ds]|] _; [|now apply IH].
    assert (Hmore : Forall (sound_hit incFiles incFolders cs searchTerm)
                      (results ++ scan_fetched incFiles incFolders cs searchTerm
                                    f fs ds))
      by (apply Forall_app; split; [exact Hr | apply scan_fetched_sound]).
    cbv zeta. destruct (_ <=? _)%nat; [now apply yields_ret | now apply IH].
Qed.

Lemma scan_tree_item_sound item results :
  Forall (sound_hit incFiles incFolders cs searchTerm) results ->
  yields (Forall (sound_hit incFiles incFolders cs searchTerm))
    (scan_tree_item incFiles incFolders cs searchTerm item results).
Proof.
  intros Hr. unfold scan_tree_item. cbv zeta.
  assert (Hlook : forall mt rs,
    Forall (sound_hit incFiles incFolders cs searchTerm) rs ->
    match mt with
    | MatchFile => incFiles = true
    | MatchFolder => incFolders = true
    end ->
    yields (Forall (sound_hit incFiles incFolders cs searchTerm))
      (itemName <- deref (tr_name item) ;;
       if Js.includes (normalize cs itemName) (normalize cs searchTerm) then
         ret (rs ++
              [ {| hit_item := FromTree item;
                   searchPath := parent_path (tr_path item);
                   fullPath := tr_path item;
                   matchType := mt;
                   matchScore := calculateMatchScore itemName searchTerm
                                   (parent_path (tr_path item)) |} ])
       else ret rs)).
  { intros mt rs Hrs Hmt.
    eapply (yields_bind (fun n => tr_name item = Some n)).
    - intros w n w'. unfold deref. destruct (tr_name item); [|discriminate].
      now intros [= -> _].
    - intros n Hn. destruct (Js.includes _ _) eqn:Hm; apply yields_ret; [|exact Hrs].
      apply Forall_app. split; [exact Hrs|]. constructor; [|constructor].
      split; [|exact Hmt]. exists n. repeat split; [|exact Hm]. exact Hn. }
  eapply (yields_bind (Forall (sound_hit incFiles incFolders cs searchTerm))).
  - destruct incFiles eqn:Ef; cbn [andb]; [|now apply yields_ret].
    destruct (tr_type item); try now apply yields_ret.
    now apply Hlook.
  - intros rs Hrs.
    destruct incFolders eqn:Ef; cbn [andb]; [|now apply yields_ret].
    destruct (tr_type item); try now apply yields_ret.
    now apply Hlook.
Qed.

Lemma scan_tree_sound maxResults tree results :
  Forall (sound_hit incFiles incFolders cs searchTerm) results ->
  yields (Forall (sound_hit incFiles incFolders cs searchTerm))
    (scan_tree incFiles incFolders cs searchTerm maxResults tree results).
Proof.
  revert results. induction tree as [|item rest IH]; intros results Hr.
  - now apply yields_ret.
  - cbn [scan_tree]. eapply yields_bind; [now apply scan_tree_item_sound|].
    intros rs Hrs. cbv beta.
    destruct (_ <=? _)%nat; [now apply yields_ret | now apply IH].
Qed.
End Sound.

Lemma searchCachedData_sound repo term o :
  yields (Forall (sound_hit (default true (includeFiles o))
                    (default true (includeFolders o))
                    (default false (caseSensitive o)) term))
         (searchCachedData repo term o).
Proof.
  unfold searchCachedData. cbv zeta.
  apply yields_try_catch; [|apply yields_ret; constructor].
  eapply yields_bind.
  - unfold cached_hits. cbv zeta. eapply yields_bind; [apply yields_any|].
    intros paths _. apply scan_cached_sound. constructor.
  - intros results Hr. eapply yields_bind; [apply sort_hits_sound; exact Hr|].
    intros sorted Hs. apply yields_ret. now apply slice0_sound.
Qed.

Lemma searchCachedDataEnhanced_sound repo term o :
  yields (Forall (sound_hit (default true (includeFiles o))
                    (default true (includeFolders o))
                    (default false (caseSensitive o)) term))
         (searchCachedDataEnhanced repo term o).
Proof.
  unfold searchCachedDataEnhanced. cbv zeta.
  apply yields_try_catch; [|apply searchCachedData_sound].
  eapply yields_bind; [apply searchCachedData_sound|].
  intros cached Hc. cbv beta.
  eapply yields_bind.
  - destruct (_ && _); [|apply yields_ret; exact Hc].
    eapply yields_bind; [apply yields_any|]. intros paths _.
    eapply yields_bind; [apply yields_any|]. intros rootData _.
    eapply yields_bind; [apply yields_any|]. intros rootFolders _.
    cbv zeta.
    eapply yields_bind; [apply check_folders_sound; exact Hc|].
    intros results Hr. cbv beta.
    destruct (_ =? _)%nat; [|apply yields_ret; exact Hr].
    eapply yields_bind; [apply yields_any|].
    intros [tree|] _; [now apply scan_tree_sound | now apply yields_ret].
  - intros results Hr. cbv beta.
    eapply yields_bind; [apply sort_hits_sound; exact Hr|].
    intros sorted Hs. apply yields_ret. now apply slice0_sound.
Qed.


(** ** An unreadable durable tier *)

(** X9: when reads of the durable tier throw, the cache has no index:
    getAllCachedPaths finds no path, searchCachedData no hit and
    getAllCachedData no element, and none of them changes anything -
    also when the volatile map holds listings that a read by path still
    returns. *)
Theorem X9_unreadable_tier_hides_the_index :
  forall (repo term : string) (o : search_options) (w : world),
    storage_get_throws (w_env w) = true ->
    getAllCachedPaths repo w = Ret [] w
    /\ searchCachedData repo term o w = Ret [] w
    /\ getAllCachedData repo w
       = Ret {| all_files := []; all_folders := []; all_paths := [] |} w.
Proof.
  intros repo term o w Hthrows.
  assert (Hpaths : getAllCachedPaths repo w = Ret [] w).
  { unfold getAllCachedPaths, try_catch, bind, get_store, localStorage_keys.
    now rewrite Hthrows. }
  split; [exact Hpaths|]. split.
  - unfold searchCachedData, cached_hits. cbv zeta.
    apply try_catch_ret_eq.
    erewrite bind_ret_eq; revgoals.
    { erewrite bind_ret_eq by exact Hpaths. reflexivity. }
    unfold sort_hits, get_env, ret, slice0, bind. cbn [sort fold_right].
    now rewrite take_nil.
  - unfold getAllCachedData. cbv zeta. apply try_catch_ret_eq.
    erewrite bind_ret_eq by exact Hpaths. reflexivity.
Qed.

Lemma X9_unreadable_witness :
  returned (getCachedData "demo" "" (unreadable_world 5 warm_store))
  = Some (Some (listing_of "" [plain_file "a.txt"] []))
  /\ searchCachedData "demo" "a" no_options (unreadable_world 5 warm_store)
     = Ret [] (unreadable_world 5 warm_store).
Proof.
  split; [reflexivity|].
  apply (X9_unreadable_tier_hides_the_index "demo" "a" no_options
           (unreadable_world 5 warm_store)).
  reflexivity.
Defined.

(** ** The shape of a patched listing *)

Lemma remove_by_name_sublist (n : string) (l : list entry) :
  remove_by_name n l `sublist_of` l.
Proof.
  induction l as [|x l IH]; [reflexivity|].
  rewrite remove_by_name_cons. destruct (decide (name x = n)).
  - now apply sublist_cons.
  - now apply sublist_skip.
Qed.

Lemma remove_by_name_NoDup (n : string) (l : list entry) :
  NoDup (map name l) -> NoDup (map name (remove_by_name n l)).
Proof.
  intros H. apply (sublist_NoDup _ _ H).
  apply (fmap_sublist name), remove_by_name_sublist.
Qed.

Lemma split_segments (s : string) :
  Forall (fun seg => is_segment seg = true) (Js.split Js.slash s).
Proof.
  induction s as [|c s IH]; [repeat constructor|].
  cbn [Js.split]. destruct (Ascii.eqb c Js.slash) eqn:Ec.
  - constructor; [reflexivity | exact IH].
  - destruct (Js.split Js.slash s) as [|seg segs].
    + repeat constructor. cbn. now rewrite Ec.
    + inversion IH; subst. constructor; [|assumption].
      cbn. rewrite Ec. assumption.
Qed.

Lemma pop_split_segment (s : string) :
  Js.includes (Js.pop (Js.split Js.slash s)) "/" = false.
Proof.
  rewrite includes_slash. apply negb_false_iff.
  unfold Js.pop. pose proof (split_segments s) as H.
  induction H as [|seg segs Hseg _ IH]; [reflexivity|].
  destruct segs; [exact Hseg | exact IH].
Qed.

Lemma updateFileInCache_NoDup now fs c f :
  NoDup (map name fs) -> NoDup (map name (updateFileInCache now fs c f)).
Proof.
  intros Hnd. unfold updateFileInCache. cbv zeta.
  rewrite map_app. cbn [map name]. apply NoDup_app. split; [|split].
  - now apply remove_by_name_NoDup.
  - intros n Hin Hn. apply list_elem_of_singleton in Hn. subst n.
    apply list_elem_of_fmap in Hin as (e & He & Hin).
    pose proof (remove_by_name_unique
                  (Js.pop (Js.split Js.slash f)) _ Hnd) as Hall.
    rewrite Forall_forall in Hall. exact (Hall e Hin (eq_sym He)).
  - apply NoDup_singleton.
Qed.

(** What one turn of the loop can do to the two arrays. *)
Lemma apply_change_shape now path c fs ds fs' ds' :
  apply_change now path c fs ds = Some (fs', ds') ->
  (fs' = fs /\ ds' = ds)
  \/ (exists f, Js.includes (Js.pop (Js.split Js.slash f)) "/" = false
                /\ fs' = updateFileInCache now fs c f /\ ds' = ds)
  \/ (exists n, fs' = remove_by_name n fs /\ ds' = remove_by_name n ds).
Proof.
  unfold apply_change. cbv zeta.
  destruct (filename c) as [f|]; [|discriminate].
  destruct (Js.truthy path && negb _); [intros [= <- <-]; now left|].
  destruct (Js.includes _ "/") eqn:Hinc; [intros [= <- <-]; now left|].
  destruct (_ || _).
  - destruct (_ =? _)%nat; intros [= <- <-]; [|now left].
    right. left. exists f. split; [apply pop_split_segment | now split].
  - destruct (String.eqb _ "removed"); intros [= <- <-]; [|now left].
    right. right. eexists. split; reflexivity.
Qed.

Lemma apply_change_keeps now path c fs ds fs1 ds1 :
  apply_change now path c fs ds = Some (fs1, ds1) ->
  (NoDup (map name fs) -> NoDup (map name fs1))
  /\ ds1 `sublist_of` ds
  /\ Forall (fun e => e ∈ fs \/ patched_file now e) fs1.
Proof.
  intros H. apply apply_change_shape in H
    as [[-> ->] | [(f & Hseg & -> & ->) | (n & -> & ->)]].
  - split; [trivial|]. split; [reflexivity|].
    apply Forall_forall. intros e He. now left.
  - split; [apply updateFileInCache_NoDup|]. split; [reflexivity|].
    unfold updateFileInCache. cbv zeta. apply Forall_app. split.
    + apply Forall_forall. intros e He. left.
      eapply elem_of_sublist; [exact He | apply remove_by_name_sublist].
    + constructor; [|constructor]. right. repeat split. exact Hseg.
  - split; [apply remove_by_name_NoDup|]. split; [apply remove_by_name_sublist|].
    apply Forall_forall. intros e He. left.
    eapply elem_of_sublist; [exact He | apply remove_by_name_sublist].
Qed.

(** X10: whatever the change list, patching keeps the shape of a
    listing: file names that were unique stay unique, the folders of the
    result are some of the folders there were, in their order - no
    change adds a folder - and a file of the result is a file there was
    or one built by the patch at this instant, a file without download
    address or repository whose name has no slash. *)
Theorem X10_patch_keeps_listing_shape :
  forall (now : Z) (path : string) (cs : list change) (fs ds : list entry),
    let r := apply_changes now path cs fs ds in
    (NoDup (map name fs) -> NoDup (map name (fst r)))
    /\ snd r `sublist_of` ds
    /\ Forall (fun e => e ∈ fs \/ patched_file now e) (fst r).
Proof.
  intros now path cs. induction cs as [|c cs IH]; intros fs ds r.
  - split; [trivial|]. split; [reflexivity|].
    apply Forall_forall. intros e He. now left.
  - unfold r. cbn [apply_changes].
    destruct (apply_change now path c fs ds) as [[fs1 ds1]|] eqn:E.
    + destruct (apply_change_keeps _ _ _ _ _ _ _ E) as (Hnd & Hsub & Hall).
      destruct (IH fs1 ds1) as (Hnd' & Hsub' & Hall').
      split; [auto|]. split; [now transitivity ds1|].
      eapply Forall_impl; [exact Hall'|].
      intros e [He|He]; [|now right].
      rewrite Forall_forall in Hall. exact (Hall e He).
    + split; [trivial|]. split; [reflexivity|].
      apply Forall_forall. intros e He. now left.
Qed.

Lemma X10_patch_witness :
  NoDup (map name
           (fst (apply_changes 7 "dir"
                   [ {| filename := Some "dir/a.txt"; status := "modified";
                        ch_sha := Some "s1"; additions := 2; deletions := 1 |};
                     removed_change "dir/b.txt" ]
                   [plain_file "a.txt"; plain_file "b.txt"] [plain_folder "b.txt"]))).
Proof.
  apply (X10_patch_keeps_listing_shape 7 "dir"
           [ {| filename := Some "dir/a.txt"; status := "modified";
                ch_sha := Some "s1"; additions := 2; deletions := 1 |};
             removed_change "dir/b.txt" ]
           [plain_file "a.txt"; plain_file "b.txt"] [plain_folder "b.txt"]).
  apply (bool_decide_unpack _). vm_compute. exact I.
Defined.

(** ** Fetching a folder on demand *)

(** X11: fetchAndCacheFolderData for a named repository.  When the
    listing request is rejected, is answered without success or with a
    body that is not a listing, it returns null after exactly that one
    request and leaves store and view alone.  When the listing arrives
    it returns the files and folders built from it and asks for the
    commit token; with a token the listing is stored, so that an
    immediate read of the folder returns it with that token, and without
    one the store is left as it was. *)
Theorem X11_fetched_folder_is_cached :
  forall (repo dir : string) (w : world),
    Js.truthy repo = true ->
    let w1 := logged w [ReqContents repo dir] in
    (match get_contents (host (w_env w)) repo dir with
     | NetworkError => True
     | Resolved r => ok r = false \/ body r = NotJson \/ body r = JsonNull
     end ->
     fetchAndCacheFolderData (Some repo) dir w = Ret None w1)
    /\
    (forall (r : response contents_body) (b : contents_body),
       get_contents (host (w_env w)) repo dir = Resolved r ->
       ok r = true ->
       body r = Json b ->
       let items := match b with Items l => l | Single i => [i] end in
       let fs := map (file_of_item (w_env w) repo (now (w_env w)))
                     (List.filter is_file items) in
       let ds := map (folder_of_item repo (now (w_env w)))
                     (List.filter is_dir items) in
       exists (tok : option string) (trace : list request) (w' : world),
         getLatestCommitSha (Some repo) "main" w1 = Ret tok (logged w1 trace)
         /\ fetchAndCacheFolderData (Some repo) dir w = Ret (Some (fs, ds)) w'
         /\ w_log w' = w_log w ++ ReqContents repo dir :: trace
         /\ (if truthy_commit tok
             then getCachedData repo dir w'
                  = Ret (Some (memory_entry repo dir (default "" tok)
                                 (now (w_env w)) fs ds)) w'
             else w_store w' = w_store w)).
Proof.
  intros repo dir w Hrepo w1. split.
  - intros Hfail.
    unfold fetchAndCacheFolderData, try_catch. rewrite Hrepo. cbn [negb].
    unfold bind at 1, fetch.
    change (with_log w (w_log w ++ [ReqContents repo dir])) with w1.
    destruct (get_contents (host (w_env w)) repo dir) as [|r]; [reflexivity|].
    destruct Hfail as [Hok | [Hb | Hb]].
    + rewrite Hok. reflexivity.
    + destruct (ok r); [|reflexivity]. cbn [negb].
      unfold bind at 1, json. rewrite Hb. reflexivity.
    + destruct (ok r); [|reflexivity]. cbn [negb].
      unfold bind at 1, json. rewrite Hb. reflexivity.
  - intros r b Hres Hok Hb items fs ds.
    destruct (getLatestCommitSha_logged (Some repo) "main" w1) as (tok & trace & Htok).
    exists tok, trace.
    assert (Hstart :
      fetchAndCacheFolderData (Some repo) dir w
      = try_catch
          ((if truthy_commit tok
            then setCachedData repo dir (default "" tok) (Some fs) (Some ds)
            else ret tt) ;;;
           ret (Some (fs, ds)))
          (ret None) (logged w1 trace)).
    { unfold fetchAndCacheFolderData, try_catch.
      rewrite Hrepo. cbn [negb].
      unfold bind at 1, fetch.
      change (with_log w (w_log w ++ [ReqContents repo dir])) with w1.
      rewrite Hres, Hok. cbn [negb].
      unfold bind at 1, json. rewrite Hb. unfold ret at 1.
      unfold bind at 1, items_of. fold items.
      assert (Hitems : match b with
                       | Items l => ret l
                       | Single i => ret [i]
                       end w1 = Ret items w1) by (now destruct b).
      rewrite Hitems.
      unfold bind at 1, get_env. unfold bind at 1, Date_now.
      cbv zeta. change (w_env w1) with (w_env w). fold fs ds.
      unfold bind at 1. rewrite Htok. reflexivity. }
    rewrite Hstart.
    destruct (truthy_commit tok) eqn:Ht.
    + eexists. split; [exact Htok|]. split; [reflexivity|]. split.
      * cbn. now rewrite <- app_assoc.
      * cbn [final_world].
        exact (getCachedData_after_set repo dir dir (default "" tok)
                 (Some fs) (Some ds) (logged w1 trace) eq_refl).
    + eexists. split; [exact Htok|]. split; [reflexivity|]. split.
      * cbn. now rewrite <- app_assoc.
      * reflexivity.
Qed.

Lemma X11_fetched_folder_witness :
  fetchAndCacheFolderData (Some "demo") "nowhere"
    (demo_world 5 no_host empty_store None)
  = Ret None (logged (demo_world 5 no_host empty_store None)
                [ReqContents "demo" "nowhere"])
  /\ exists w',
       fetchAndCacheFolderData (Some "demo") "docs"
         (demo_world 5 live_host empty_store None)
       = Ret (Some ([], [])) w'
       /\ w_log w' = [ReqContents "demo" "docs"; ReqBranch "demo" "main"].
Proof.
  split.
  - apply (X11_fetched_folder_is_cached "demo" "nowhere"
             (demo_world 5 no_host empty_store None) eq_refl).
    left. reflexivity.
  - destruct (proj2 (X11_fetched_folder_is_cached "demo" "docs"
                       (demo_world 5 live_host empty_store None) eq_refl)
                _ (Items []) eq_refl eq_refl eq_refl)
      as (tok & trace & w' & Htok & Hfetch & Hlog & _).
    exists w'. split; [exact Hfetch|].
    rewrite Hlog. injection Htok as _ Htrace.
    cbn in Htrace. now subst trace.
Defined.

(** ** The cost of resolving a token *)

Lemma requests_of_cons rq res steps :
  requests_of ((rq, res) :: steps) = requests_of [(rq, res)] ++ requests_of steps.
Proof. unfold requests_of. cbn. now destruct rq. Qed.

Lemma first_usable_trace_le steps :
  (length (snd (first_usable steps)) <= length (requests_of steps))%nat.
Proof.
  induction steps as [|[rq res] steps IH]; [reflexivity|].
  rewrite requests_of_cons. cbn [first_usable].
  destruct res; cbn [snd]; rewrite ?length_app; lia.
Qed.

Lemma plan_requests h t repo branch :
  (length (requests_of (plan h t repo branch)) <= 6)%nat.
Proof.
  unfold plan.
  destruct (repo_data h repo) as [info|]; [|cbn; lia].
  destruct (default_branch info) as [d|]; [|cbn; lia].
  destruct (Js.truthy d); cbn; lia.
Qed.

(** X12: resolving the token of a named repository costs at least one
    and at most six requests, the first of them the branch request, and
    changes nothing but the log. *)
Theorem X12_oracle_costs_at_most_six_requests :
  forall (repo branch : string) (w : world),
    Js.truthy repo = true ->
    exists (token : option string) (trace : list request),
      getLatestCommitSha (Some repo) branch w = Ret token (logged w trace)
      /\ head trace = Some (ReqBranch repo branch)
      /\ (length trace <= 6)%nat.
Proof.
  intros repo branch w Hrepo.
  eexists _, _. split; [now apply getLatestCommitSha_cascade|]. split.
  - unfold plan. cbn [app first_usable].
    destruct (branch_step _ _ _); reflexivity.
  - etransitivity; [apply first_usable_trace_le | apply plan_requests].
Qed.

Lemma X12_oracle_witness :
  exists (token : option string) (trace : list request),
    getLatestCommitSha (Some "demo") "main" (demo_world 5 no_host empty_store None)
    = Ret token (logged (demo_world 5 no_host empty_store None) trace)
    /\ head trace = Some (ReqBranch "demo" "main")
    /\ (length trace <= 6)%nat.
Proof.
  apply (X12_oracle_costs_at_most_six_requests "demo" "main"
           (demo_world 5 no_host empty_store None)).
  reflexivity.
Defined.

(** ** Loading when no token can be resolved *)

(** X13: when the oracle resolves no usable token - none, or an empty
    one - loadContents asks the host for the listing of the current
    folder and does not store it: no durable write is scheduled and the
    tokens on record are as they were; the loading flag is down. *)
Theorem X13_no_token_no_caching :
  forall (repo : string) (tok : option string) (w w1 : world),
    currentWorkspace (w_view w) = Some repo ->
    validateGiteaConfig (w_env w) = true ->
    getLatestCommitSha (Some repo) "main" w = Ret tok w1 ->
    truthy_commit tok = false ->
    exists (w' : world) (more : list request),
      loadContents w = Ret tt w'
      /\ timers (w_store w') = timers (w_store w)
      /\ commitCache (w_store w') = commitCache (w_store w)
      /\ w_log w' = w_log w1
                    ++ ReqContents repo (default "" (currentFolder (w_view w))) :: more
      /\ loading (w_view w') = false.
Proof.
  intros repo tok w w1 Hws Hcfg H1 Htok.
  set (dir := default "" (currentFolder (w_view w))).
  destruct (getLatestCommitSha_logged (Some repo) "main" w) as (tok' & trace & Hl).
  rewrite H1 in Hl. injection Hl as <- ->.
  destruct (total_loadContentsDirectly dir (logged w trace)) as (b & w3 & Hd).
  destruct (loadContentsDirectly_requests dir repo (logged w trace) Hws)
    as [more Hmore].
  pose proof (store_kept_loadContentsDirectly dir (logged w trace)) as [_ Hst].
  unfold after in Hmore. rewrite Hd in Hmore, Hst. cbn [final_world] in Hmore, Hst.
  assert (Hload : loadContents w = (set_loading false ;;; ret tt) w3).
  { rewrite (loadContents_start repo w Hws Hcfg).
    apply try_finally_ret_eq. apply try_catch_ret_eq.
    erewrite bind_ret_eq by exact H1. rewrite Htok. cbn [negb].
    fold dir. erewrite bind_ret_eq by exact Hd. reflexivity. }
  eexists _, more. split; [exact Hload|]. cbn.
  rewrite Hst. split; [reflexivity|]. split; [reflexivity|].
  split; [exact Hmore | reflexivity].
Qed.

Lemma X13_no_token_witness :
  exists (w' : world) (more : list request),
    loadContents (demo_world 5 no_host warm_store (Some "docs")) = Ret tt w'
    /\ timers (w_store w') = []
    /\ commitCache (w_store w') = commitCache warm_store
    /\ w_log w' = [ReqBranch "demo" "main"; ReqCommits "demo" "main";
                   ReqRepo "demo"; ReqContents "demo" ""]
                  ++ ReqContents "demo" "docs" :: more
    /\ loading (w_view w') = false.
Proof.
  apply (X13_no_token_no_caching "demo" None
           (demo_world 5 no_host warm_store (Some "docs"))
           (logged (demo_world 5 no_host warm_store (Some "docs"))
              [ReqBranch "demo" "main"; ReqCommits "demo" "main";
               ReqRepo "demo"; ReqContents "demo" ""]));
    reflexivity.
Defined.

(** ** When the token is recorded *)

(** The token read when the volatile map has no token of the
    repository. *)
Lemma getCachedCommitSha_cold repo w :
  commitCache (w_store w) !! repo = None ->
  getCachedCommitSha repo w
  = if storage_get_throws (w_env w) then Ret None w
    else match Assoc.get (getCommitCacheKey repo) (localStorage (w_store w)) with
         | None => Ret None w
         | Some cached =>
             match JSON_parse_commit cached w with
             | Throw _ => Ret None w
             | Ret c _ =>
                 if (now (w_env w) - c_timestamp c >? MAX_CACHE_AGE)%Z
                 then Ret None
                        (with_store w
                           (set_localStorage (w_store w)
                              (Assoc.remove (getCommitCacheKey repo)
                                 (localStorage (w_store w)))))
                 else Ret (Some (c_commitSha c))
                        (with_store w
                           (set_commitCache (w_store w)
                              (<[repo := c]> (commitCache (w_store w)))))
             end
         end.
Proof.
  intros Hmem.
  unfold getCachedCommitSha, try_catch, or_else, bind, get_store, localStorage_getItem,
    Date_now.
  cbv beta zeta. rewrite Hmem. cbn [ret]. cbv beta iota.
  destruct (storage_get_throws (w_env w)); [reflexivity|].
  destruct (Assoc.get _ (localStorage (w_store w))) as [[|l|c]|]; try reflexivity;
    cbn [JSON_parse_commit ret]; cbv beta iota; destruct (_ >? _)%Z; reflexivity.
Qed.

(** A stale token of the volatile map is dropped and the read goes on
    as if it had never been there. *)
Lemma getCachedCommitSha_warm repo c w :
  commitCache (w_store w) !! repo = Some c ->
  getCachedCommitSha repo w
  = if String.eqb (c_version c) CACHE_VERSION
       && (now (w_env w) - c_timestamp c <? MAX_CACHE_AGE)%Z
    then Ret (Some (c_commitSha c)) w
    else getCachedCommitSha repo
           (with_store w
              (set_commitCache (w_store w) (delete repo (commitCache (w_store w))))).
Proof.
  intros Hmem.
  unfold getCachedCommitSha, try_catch, or_else, bind, get_store, Date_now.
  cbv beta zeta. cbn [w_store with_store commitCache set_commitCache].
  rewrite Hmem, lookup_delete_eq.
  destruct (String.eqb (c_version c) CACHE_VERSION && _); reflexivity.
Qed.

(** What the token read returns depends on the volatile token map, the
    durable tier and the environment only. *)
Lemma getCachedCommitSha_returned_ext repo w w' :
  w_env w' = w_env w ->
  localStorage (w_store w') = localStorage (w_store w) ->
  commitCache (w_store w') !! repo = commitCache (w_store w) !! repo ->
  returned (getCachedCommitSha repo w') = returned (getCachedCommitSha repo w).
Proof.
  intros Henv Hls Hcc.
  assert (Hcold : forall v v' : world,
            w_env v' = w_env v ->
            localStorage (w_store v') = localStorage (w_store v) ->
            commitCache (w_store v) !! repo = None ->
            commitCache (w_store v') !! repo = None ->
            returned (getCachedCommitSha repo v')
            = returned (getCachedCommitSha repo v)).
  { intros v v' He Hl Hv Hv'.
    rewrite !getCachedCommitSha_cold by assumption.
    rewrite He, Hl.
    destruct (storage_get_throws (w_env v)); [reflexivity|].
    destruct (Assoc.get _ (localStorage (w_store v))) as [[|l|c]|];
      try reflexivity; cbn [JSON_parse_commit ret];
      destruct (_ >? _)%Z; reflexivity. }
  destruct (commitCache (w_store w) !! repo) as [c|] eqn:Hc.
  - rewrite (getCachedCommitSha_warm repo c w' Hcc),
      (getCachedCommitSha_warm repo c w Hc), Henv.
    destruct (String.eqb (c_version c) CACHE_VERSION && _); [reflexivity|].
    apply Hcold; cbn [w_env w_store with_store localStorage commitCache
                       set_commitCache];
      try assumption; apply lookup_delete_eq.
  - now apply Hcold.
Qed.

Lemma getCachedCommitSha_memory_hit repo c w :
  commitCache (w_store w) !! repo = Some c ->
  c_version c = CACHE_VERSION ->
  now (w_env w) - c_timestamp c < MAX_CACHE_AGE ->
  getCachedCommitSha repo w = Ret (Some (c_commitSha c)) w.
Proof.
  intros Hcc Hv Hage.
  unfold getCachedCommitSha, try_catch, or_else, bind, get_store, Date_now.
  cbv beta zeta. rewrite Hcc, Hv, String.eqb_refl.
  apply Z.ltb_lt in Hage. rewrite Hage. reflexivity.
Qed.

(** X14: the token of a write is recorded by the deferred durable write,
    not by setCachedData itself.  Until the continuation has run the
    token read answers as before the write; once it has run on a tier
    that takes writes the token read returns the new token; and when the
    tier rejects writes no token is recorded at all, for any
    repository. *)
Theorem X14_token_follows_durable_write :
  forall (repo dir commit : string) (fs ds : option (list entry)) (w : world),
    let w1 := after (setCachedData repo dir commit fs ds) w in
    let w2 := after run_timers w1 in
    (forall r, returned (getCachedCommitSha r w1) = returned (getCachedCommitSha r w))
    /\ (storage_set_throws (w_env w) = false ->
        getCachedCommitSha repo w2 = Ret (Some commit) w2)
    /\ (storage_set_throws (w_env w) = true ->
        forall r,
          returned (getCachedCommitSha r w2) = returned (getCachedCommitSha r w)).
Proof.
  intros repo dir commit fs ds w w1 w2. split; [|split].
  - intros r. now apply getCachedCommitSha_returned_ext.
  - intros Hset.
    destruct (durable_after_write repo dir commit fs ds w Hset)
      as (Henv & _ & Hcc & _).
    fold w1 w2 in Henv, Hcc.
    apply (getCachedCommitSha_memory_hit repo _ w2 Hcc); [reflexivity|].
    cbn [c_timestamp]. rewrite Henv. unfold MAX_CACHE_AGE. lia.
  - intros Hset r.
    assert (Hrun : run_timers w1 = Ret tt (with_store w1 (set_timers (w_store w1) []))).
    { unfold run_timers, bind, get_store, put_store.
      now rewrite for_each_run_task_quota. }
    apply getCachedCommitSha_returned_ext;
      unfold w2, after; rewrite Hrun; reflexivity.
Qed.

Lemma X14_token_witness :
  getCachedCommitSha "demo"
    (after run_timers
       (after (setCachedData "demo" "docs" "abc123" (Some [plain_file "a.txt"]) None)
          (demo_world 5 no_host empty_store None)))
  = Ret (Some "abc123")
      (after run_timers
         (after (setCachedData "demo" "docs" "abc123" (Some [plain_file "a.txt"]) None)
            (demo_world 5 no_host empty_store None)))
  /\ returned (getCachedCommitSha "demo"
       (after run_timers
          (after (setCachedData "demo" "docs" "abc123" (Some [plain_file "a.txt"]) None)
             (quota_world 5 empty_store))))
     = returned (getCachedCommitSha "demo" (quota_world 5 empty_store)).
Proof.
  split.
  - apply (X14_token_follows_durable_write "demo" "docs" "abc123"
             (Some [plain_file "a.txt"]) None (demo_world 5 no_host empty_store None)).
    reflexivity.
  - apply (X14_token_follows_durable_write "demo" "docs" "abc123"
             (Some [plain_file "a.txt"]) None (quota_world 5 empty_store)).
    reflexivity.
Defined.

(** ** What the cached search finds *)

(** A read touches the volatile map under its own key only. *)
Lemma getCachedData_memory_other repo q key w :
  key <> getCacheKey repo q ->
  Assoc.get key (memoryCache (w_store (after (getCachedData repo q) w)))
  = Assoc.get key (memoryCache (w_store w)).
Proof.
  intros Hne. unfold after.
  destruct (memory_fresh (getCacheKey repo q) w) as [d|] eqn:Hf.
  - now rewrite (getCachedData_memory_hit _ _ _ _ Hf).
  - rewrite (getCachedData_stale _ _ _ Hf).
    rewrite getCachedData_cold
      by (cbn [w_env w_store with_store memoryCache set_memoryCache];
          apply assoc_get_remove_eq).
    cbn [w_env w_store with_store localStorage memoryCache set_memoryCache].
    assert (Hrm : Assoc.get key (Assoc.remove (getCacheKey repo q)
                                   (memoryCache (w_store w)))
                  = Assoc.get key (memoryCache (w_store w)))
      by (apply assoc_get_remove_ne; congruence).
    destruct (storage_get_throws (w_env w)); [exact Hrm|].
    destruct (Assoc.get _ (localStorage (w_store w))) as [[|l|c]|];
      try exact Hrm; cbn [JSON_parse_listing ret];
      (destruct (negb _ || _); cbn; [exact Hrm|]);
      (rewrite assoc_get_set_ne by congruence; exact Hrm).
Qed.

(** An entry the volatile map serves is still served after a read of
    any path. *)
Lemma memory_fresh_kept repo q key d w :
  memory_fresh key w = Some d ->
  memory_fresh key (after (getCachedData repo q) w) = Some d.
Proof.
  intros Hf. destruct (string_dec key (getCacheKey repo q)) as [->|Hne].
  - unfold after. now rewrite (getCachedData_memory_hit _ _ _ _ Hf).
  - unfold memory_fresh in *.
    rewrite getCachedData_memory_other by exact Hne.
    pose proof (env_kept_getCachedData repo q w) as He. unfold env_kept in He.
    unfold after. now rewrite He.
Qed.

Lemma set_add_in x y acc : In y acc \/ y = x -> In y (set_add x acc).
Proof.
  unfold set_add. destruct (existsb (String.eqb x) acc) eqn:E.
  - intros [H| ->]; [exact H|]. now apply existsb_eqb_in.
  - intros [H| ->]; apply in_or_app; [now left | right; now left].
Qed.

Lemma memory_paths_in repo (mem : list (string * cache_data)) acc p :
  In p acc \/ (exists k d, In (k, d) mem /\ repoName d = repo /\ cd_path d = p) ->
  In p (fold_left
          (fun acc kv =>
             if String.eqb (repoName (snd kv)) repo
             then set_add (cd_path (snd kv)) acc else acc)
          mem acc).
Proof.
  revert acc. induction mem as [|[k0 d0] mem IH]; intros acc.
  - intros [H | (k & d & [] & _)]. exact H.
  - cbn [fold_left snd]. intros [H | (k & d & [Heq | Hin] & Hr & Hp)]; apply IH.
    + left. destruct (String.eqb _ _); [apply set_add_in; now left | exact H].
    + injection Heq as -> ->. left. rewrite Hr, String.eqb_refl.
      apply set_add_in. now right.
    + right. now exists k, d.
Qed.

Lemma durable_paths_keep prefix keys acc p :
  In p acc ->
  In p (fold_left
          (fun acc key =>
             match match_path prefix key with
             | Some p => if String.eqb p "root" then set_add "" acc else set_add p acc
             | None => acc
             end)
          keys acc).
Proof.
  revert acc. induction keys as [|k keys IH]; intros acc H; [exact H|].
  cbn [fold_left]. apply IH.
  destruct (match_path prefix k) as [p'|]; [|exact H].
  destruct (String.eqb p' "root"); apply set_add_in; now left.
Qed.

(** The path of a volatile entry of the repository is among the cached
    paths when the durable tier can be read. *)
Lemma getAllCachedPaths_memory repo k d w :
  storage_get_throws (w_env w) = false ->
  In (k, d) (memoryCache (w_store w)) ->
  repoName d = repo ->
  exists paths, getAllCachedPaths repo w = Ret paths w /\ In (cd_path d) paths.
Proof.
  intros Hthrows Hin Hrepo.
  unfold getAllCachedPaths, try_catch, bind, get_store, localStorage_keys.
  rewrite Hthrows. cbv zeta. eexists. split; [reflexivity|].
  apply durable_paths_keep, memory_paths_in. right. now exists k, d.
Qed.

Section Found.
Variables (repo : string) (incFiles incFolders cs : bool) (searchTerm : string).

Lemma scan_cached_grows paths results w :
  exists hits w',
    scan_cached repo incFiles incFolders cs searchTerm paths results w = Ret hits w'
    /\ forall h, In h results -> In h hits.
Proof.
  revert results w. induction paths as [|q paths IH]; intros results w.
  - exists results, w. now split.
  - cbn [scan_cached].
    destruct (total_getCachedData repo q w) as (r & w1 & Hr).
    erewrite bind_ret_eq by exact Hr.
    destruct r as [d|]; [|apply IH].
    destruct (IH (results ++ scan_listing incFiles incFolders cs searchTerm q
                               (files d) (folders d)) w1)
      as (hits & w' & Hs & Hsub).
    exists hits, w'. split; [exact Hs|].
    intros h Hh. apply Hsub, in_or_app. now left.
Qed.

Lemma scan_cached_finds d paths results w :
  memory_fresh (getCacheKey repo (cd_path d)) w = Some d ->
  In (cd_path d) paths ->
  exists hits w',
    scan_cached repo incFiles incFolders cs searchTerm paths results w = Ret hits w'
    /\ forall h,
         In h (scan_listing incFiles incFolders cs searchTerm (cd_path d)
                 (files d) (folders d)) ->
         In h hits.
Proof.
  revert results w. induction paths as [|q paths IH]; intros results w Hf Hin;
    [destruct Hin|].
  cbn [scan_cached].
  destruct (total_getCachedData repo q w) as (r & w1 & Hr).
  erewrite bind_ret_eq by exact Hr.
  pose proof (memory_fresh_kept repo q _ _ _ Hf) as Hf1.
  unfold after in Hf1. rewrite Hr in Hf1. cbn [final_world] in Hf1.
  destruct (string_dec q (cd_path d)) as [->|Hne].
  - rewrite (getCachedData_memory_hit _ _ _ _ Hf) in Hr. injection Hr as <- <-.
    destruct (scan_cached_grows paths
                (results ++ scan_listing incFiles incFolders cs searchTerm (cd_path d)
                              (files d) (folders d)) w)
      as (hits & w' & Hs & Hsub).
    exists hits, w'. split; [exact Hs|].
    intros h Hh. apply Hsub, in_or_app. now right.
  - destruct Hin as [Heq | Hin]; [contradiction|].
    destruct r as [d'|]; now apply IH.
Qed.
End Found.



(** ** Favorites *)

Lemma type_eqb_eq a b : type_eqb a b = true <-> a = b.
Proof. destruct a, b; cbn; split; congruence. Qed.

Lemma same_target_eq x fav : same_target x fav = true <-> fav_target fav = x.
Proof.
  destruct x as [[i t] p]. unfold same_target, fav_target. cbn [fst snd].
  rewrite !andb_true_iff, !String.eqb_eq, type_eqb_eq.
  split; [intros [[-> ->] ->]; reflexivity | intros [= -> -> ->]; auto].
Qed.

Lemma find_index_none {A} (f : A -> bool) l :
  find_index f l = None <-> existsb f l = false.
Proof.
  induction l as [|x l IH]; cbn; [tauto|].
  destruct (f x); cbn; [split; discriminate|].
  rewrite <- IH. destruct (find_index f l); cbn; split; congruence.
Qed.

(** Without the first element that satisfies [f], a list whose elements
    have distinct targets has none that does; an element that satisfies
    [g] and not [f] stays. *)
Lemma delete_first_match (x : target) (favs : list favorite) i :
  find_index (same_target x) favs = Some i ->
  NoDup (map fav_target favs) ->
  existsb (same_target x) (delete i favs) = false
  /\ NoDup (map fav_target (delete i favs))
  /\ forall y, y <> x ->
       existsb (same_target y) (delete i favs) = existsb (same_target y) favs.
Proof.
  revert i. induction favs as [|fav favs IH]; intros i; [discriminate|].
  cbn [find_index map]. intros Hfind Hnd. inversion Hnd as [|? ? Hfresh Hnd']; subst.
  destruct (same_target x fav) eqn:E.
  - injection Hfind as <-. change (delete 0%nat (fav :: favs)) with favs.
    apply same_target_eq in E.
    split; [|split; [exact Hnd'|]].
    + destruct (existsb (same_target x) favs) eqn:Ex; [|reflexivity].
      apply existsb_exists in Ex as (fav' & Hin & E').
      apply same_target_eq in E'. exfalso. apply Hfresh.
      rewrite E, <- E'. apply list_elem_of_fmap_2. now apply list_elem_of_In.
    + intros y Hy. cbn [existsb].
      destruct (same_target y fav) eqn:Ey; [|reflexivity].
      apply same_target_eq in Ey. congruence.
  - destruct (find_index _ favs) as [j|] eqn:Ej; [|discriminate].
    injection Hfind as <-.
    change (delete (S j) (fav :: favs)) with (fav :: delete j favs).
    cbn [existsb map].
    destruct (IH j eq_refl Hnd') as (Hgone & Hnd'' & Hother).
    split; [|split].
    + now rewrite E, Hgone.
    + constructor; [|exact Hnd''].
      intros Hin. apply Hfresh.
      eapply elem_of_sublist; [exact Hin|].
      apply (fmap_sublist fav_target), sublist_delete.
    + intros y Hy. now rewrite (Hother y Hy).
Qed.

Lemma saveFavorites_value e st :
  favorites_value (saveFavorites e st) = favorites_value st.
Proof. unfold saveFavorites. now destruct (storage_set_throws e). Qed.

Lemma find_index_last {A} (f : A -> bool) l x :
  existsb f l = false -> f x = true ->
  find_index f (l ++ [x]) = Some (length l).
Proof.
  intros Hl Hx. induction l as [|y l IH]; cbn in *; [now rewrite Hx|].
  apply orb_false_elim in Hl as [-> Hl]. now rewrite (IH Hl).
Qed.

Lemma delete_last {A} (l : list A) x : delete (length l) (l ++ [x]) = l.
Proof.
  induction l as [|y l IH]; [reflexivity|].
  change (delete (length (y :: l)) ((y :: l) ++ [x]))
    with (y :: delete (length l) (l ++ [x])).
  now rewrite IH.
Qed.

(** X16: toggling a favorite on a list whose elements point at distinct
    targets (id, type and path) flips whether the item is a favorite and
    keeps the targets distinct; it leaves every item with another target
    as it was; toggling an item that was no favorite twice gives the
    list back; and removeFavorite leaves no favorite of that target. *)
Theorem X16_toggle_flips_favorite :
  forall (e : env) (st : fav_state) (item : entry),
    NoDup (map fav_target (favorites_value st)) ->
    let st' := toggleFavorite e st item in
    isFavorite st' item = negb (isFavorite st item)
    /\ NoDup (map fav_target (favorites_value st'))
    /\ (forall other,
          item_target other <> item_target item ->
          isFavorite st' other = isFavorite st other)
    /\ (isFavorite st item = false ->
        favorites_value (toggleFavorite e st' item) = favorites_value st)
    /\ (forall fav,
          existsb (same_target (fav_target fav))
            (favorites_value (removeFavorite e st fav)) = false).
Proof.
  intros e st item Hnd st'.
  assert (Hnew : same_target (item_target item)
                   {| fav_id := id item; fav_name := name item;
                      fav_type := type item; fav_path := path item;
                      addedAt := now e |} = true)
    by (now apply same_target_eq).
  assert (Hval : favorites_value st'
                 = match find_index (same_target (item_target item))
                           (favorites_value st) with
                   | Some i => delete i (favorites_value st)
                   | None =>
                       favorites_value st
                       ++ [ {| fav_id := id item; fav_name := name item;
                               fav_type := type item; fav_path := path item;
                               addedAt := now e |} ]
                   end).
  { unfold st', toggleFavorite. cbv zeta. now rewrite saveFavorites_value. }
  unfold isFavorite. rewrite Hval.
  destruct (find_index (same_target (item_target item)) (favorites_value st))
    as [i|] eqn:Hfind.
  - destruct (delete_first_match _ _ _ Hfind Hnd) as (Hgone & Hnd' & Hother).
    assert (Hwas : existsb (same_target (item_target item)) (favorites_value st) = true).
    { destruct (existsb (same_target (item_target item)) (favorites_value st))
        eqn:E; [reflexivity|].
      apply find_index_none in E. congruence. }
    rewrite Hgone, Hwas. split; [reflexivity|]. split; [exact Hnd'|].
    split; [intros other Ho; now apply Hother|]. split; [discriminate|].
    intros fav. unfold removeFavorite. cbv zeta.
    destruct (find_index (same_target (fav_target fav)) (favorites_value st))
      as [j|] eqn:Hj.
    + rewrite saveFavorites_value. cbn [favorites_value set_favorites].
      now destruct (delete_first_match _ _ _ Hj Hnd).
    + now apply find_index_none.
  - pose proof (proj1 (find_index_none _ _) Hfind) as Hnot.
    rewrite Hnot, existsb_app. cbn [existsb]. rewrite Hnew, orb_true_r.
    split; [reflexivity|]. split; [|split; [|split]].
    + rewrite map_app. apply NoDup_app. split; [exact Hnd|]. split.
      * intros x Hin Hx. apply list_elem_of_singleton in Hx. subst x.
        apply list_elem_of_fmap in Hin as (fav & Hf & Hin).
        assert (Ex : existsb (same_target (item_target item)) (favorites_value st)
                     = true).
        { apply existsb_exists. exists fav. split; [now apply list_elem_of_In|].
          apply same_target_eq. now rewrite <- Hf. }
        congruence.
      * apply NoDup_singleton.
    + intros other Ho. rewrite existsb_app. cbn [existsb].
      destruct (same_target (item_target other) _) eqn:E;
        [|now rewrite !orb_false_r].
      apply same_target_eq in E. exfalso. apply Ho. now rewrite <- E.
    + intros _. unfold toggleFavorite at 1. cbv zeta.
      rewrite saveFavorites_value. cbn [favorites_value set_favorites].
      rewrite Hval.
      rewrite (find_index_last _ _ _ Hnot Hnew). apply delete_last.
    + intros fav. unfold removeFavorite. cbv zeta.
      destruct (find_index (same_target (fav_target fav)) (favorites_value st))
        as [j|] eqn:Hj.
      * rewrite saveFavorites_value. cbn [favorites_value set_favorites].
        now destruct (delete_first_match _ _ _ Hj Hnd).
      * now apply find_index_none.
Qed.

Lemma X16_toggle_witness :
  let st := {| favorites_value := []; workspace_id := "7";
               favorites_storage := [] |} in
  isFavorite (toggleFavorite (demo_env 5 no_host) st (plain_file "a.txt"))
    (plain_file "a.txt")
  = true.
Proof.
  intros st.
  destruct (X16_toggle_flips_favorite (demo_env 5 no_host) st (plain_file "a.txt"))
    as [H _]; [constructor|].
  rewrite H. reflexivity.
Defined.

(** X17: a change of the favorites outlives a reload exactly when the
    durable tier takes the write.  With working storage, the list a
    reloaded page loads is the list toggleFavorite left.  When the write
    throws, toggleFavorite still makes a new item a favorite in the list
    shown, but the stored text is as it was, and a reloaded page loads
    what it would have loaded before the change. *)
Theorem X17_favorites_persist :
  forall (e : env) (st : fav_state) (item : entry),
    let st' := toggleFavorite e st item in
    (storage_set_throws e = false ->
     storage_get_throws e = false ->
     favorites_value (reload_favorites e st') = favorites_value st')
    /\ (storage_set_throws e = true ->
        favorites_storage st' = favorites_storage st
        /\ (isFavorite st item = false -> isFavorite st' item = true)
        /\ favorites_value (reload_favorites e st')
           = favorites_value (reload_favorites e st)).
Proof.
  intros e st item st'. split.
  - intros Hset Hget.
    unfold reload_favorites, loadFavorites. rewrite Hget.
    unfold st', toggleFavorite, saveFavorites. rewrite Hset. cbv zeta.
    cbn [favorites_storage favorites_value workspace_id set_favorites favorites_key].
    now rewrite assoc_get_set_eq.
  - intros Hset.
    assert (Hst : favorites_storage st' = favorites_storage st
                  /\ workspace_id st' = workspace_id st)
      by (unfold st', toggleFavorite, saveFavorites; now rewrite Hset).
    destruct Hst as [Hsto Hws].
    split; [exact Hsto|]. split.
    + intros Hfav. unfold st', toggleFavorite, isFavorite in *. cbv zeta.
      rewrite saveFavorites_value. cbn [favorites_value set_favorites].
      apply find_index_none in Hfav. rewrite Hfav, existsb_app. cbn [existsb].
      assert (Hnew : same_target (item_target item)
                       {| fav_id := id item; fav_name := name item;
                          fav_type := type item; fav_path := path item;
                          addedAt := now e |} = true)
        by (now apply same_target_eq).
      now rewrite Hnew, orb_true_r.
    + unfold reload_favorites, loadFavorites, favorites_key.
      cbn [favorites_storage workspace_id set_favorites].
      rewrite Hsto, Hws.
      destruct (storage_get_throws e); [reflexivity|].
      destruct (Assoc.get _ _) as [[|l]|]; reflexivity.
Qed.

Lemma X17_favorites_witness :
  let st := {| favorites_value := []; workspace_id := "7";
               favorites_storage := [] |} in
  favorites_value
    (reload_favorites (demo_env 5 no_host)
       (toggleFavorite (demo_env 5 no_host) st (plain_file "a.txt")))
  = favorites_value (toggleFavorite (demo_env 5 no_host) st (plain_file "a.txt"))
  /\ favorites_value
       (reload_favorites (w_env (quota_world 5 empty_store))
          (toggleFavorite (w_env (quota_world 5 empty_store)) st (plain_file "a.txt")))
     = [].
Proof.
  intros st. split.
  - apply (X17_favorites_persist (demo_env 5 no_host) st (plain_file "a.txt"));
      reflexivity.
  - destruct (X17_favorites_persist (w_env (quota_world 5 empty_store)) st
                (plain_file "a.txt")) as [_ H].
    destruct (H eq_refl) as (_ & _ & Hreload). rewrite Hreload. reflexivity.
Defined.

(** X18: loadFavorites does not reset the list.  After a change to a
    workspace that has no favorites stored, the list shown is still the
    list of the workspace before; and the next toggleFavorite, on a tier
    that takes writes, stores under the key of the new workspace the
    whole list it leaves, which has every favorite of the workspace
    before when the toggled item was none of them. *)
Theorem X18_favorites_follow_to_next_workspace :
  forall (e : env) (st : fav_state) (next : string) (item : entry),
    storage_get_throws e = false ->
    Assoc.get ("favorites_" +:+ next) (favorites_storage st) = None ->
    let st1 := loadFavorites e (set_workspace st next) in
    let st2 := toggleFavorite e st1 item in
    favorites_value st1 = favorites_value st
    /\ (storage_set_throws e = false ->
        Assoc.get ("favorites_" +:+ next) (favorites_storage st2)
        = Some (FavJson (favorites_value st2)))
    /\ (isFavorite st item = false ->
        forall fav, In fav (favorites_value st) -> In fav (favorites_value st2)).
Proof.
  intros e st next item Hget Hnone st1 st2.
  assert (H1 : st1 = set_workspace st next).
  { unfold st1, loadFavorites, favorites_key. rewrite Hget.
    cbn [workspace_id favorites_storage set_workspace]. now rewrite Hnone. }
  split; [now rewrite H1|]. split.
  - intros Hset. unfold st2, toggleFavorite, saveFavorites. rewrite Hset, H1.
    cbv zeta.
    cbn [favorites_storage favorites_value workspace_id set_favorites set_workspace
         favorites_key].
    apply assoc_get_set_eq.
  - intros Hfav fav Hin. unfold st2, toggleFavorite. cbv zeta.
    rewrite saveFavorites_value, H1.
    cbn [favorites_value set_favorites set_workspace].
    unfold isFavorite in Hfav. apply find_index_none in Hfav. rewrite Hfav.
    apply in_or_app. now left.
Qed.

Lemma X18_favorites_witness :
  let st := {| favorites_value :=
                 [ {| fav_id := "a.txt"; fav_name := "a.txt"; fav_type := TFile;
                      fav_path := "a.txt"; addedAt := 1 |} ];
               workspace_id := "7";
               favorites_storage := [] |} in
  favorites_value (loadFavorites (demo_env 5 no_host) (set_workspace st "8"))
  = favorites_value st.
Proof.
  intros st.
  apply (X18_favorites_follow_to_next_workspace (demo_env 5 no_host) st "8"
           (plain_file "b.txt")); reflexivity.
Defined.

(** ** Searches that ask the host nothing *)

Lemma store_only_getAllCachedPaths repo : preserves store_only (getAllCachedPaths repo).
Proof. unfold getAllCachedPaths. frame. Qed.

Lemma store_only_scan_cached repo f d cs term paths results :
  preserves store_only (scan_cached repo f d cs term paths results).
Proof.
  pose proof store_only_getCachedData.
  revert results. induction paths as [|p paths IH]; intros results;
    cbn [scan_cached]; frame.
Qed.

Lemma store_only_searchCachedData repo term o :
  preserves store_only (searchCachedData repo term o).
Proof.
  pose proof store_only_getAllCachedPaths.
  pose proof store_only_scan_cached.
  unfold searchCachedData, cached_hits, sort_hits. frame.
Qed.

(** X19: searchCachedData asks the host nothing and leaves the view
    alone.  searchCachedDataEnhanced does the same when the term is
    blank, or when the cached search already gave as many hits as its
    own bound allows: it then returns the hits of the cached search, in
    some order. *)
Theorem X19_blank_term_costs_no_request :
  forall (repo term : string) (o : search_options) (w : world),
    exists (cached : list search_hit) (w1 : world),
      searchCachedData repo term o w = Ret cached w1
      /\ w_log w1 = w_log w
      /\ w_view w1 = w_view w
      /\ (Js.trim_truthy term = false
          \/ (default 200 (maxResults o) <= length cached)%nat ->
          exists hits,
            searchCachedDataEnhanced repo term o w = Ret hits w1
            /\ Permutation hits cached).
Proof.
  intros repo term o w.
  destruct (searchCachedData_sorted_slice repo term o w)
    as (found & w1 & _ & Henv & Hsearch).
  pose proof (store_only_searchCachedData repo term o w) as Hso.
  rewrite Hsearch in Hso. cbn [final_world] in Hso. destruct Hso as (_ & Hlog & Hview).
  eexists _, w1. split; [exact Hsearch|]. split; [exact Hlog|]. split; [exact Hview|].
  set (cached := slice0 _ _).
  assert (Hlen : (length cached <= default 200 (maxResults o))%nat).
  { unfold cached, slice0. rewrite length_take.
    destruct (maxResults o); cbn [default]; lia. }
  intros Hskip.
  assert (Hcond : Js.trim_truthy term
                  && (length cached <? default 200 (maxResults o))%nat = false).
  { destruct Hskip as [-> | Hfull]; [reflexivity|].
    apply andb_false_iff. right. apply Nat.ltb_ge. exact Hfull. }
  exists (slice0 (default 200%nat (maxResults o))
            (sort (compare_hits (localeCompare (w_env w))) cached)).
  split.
  - unfold searchCachedDataEnhanced. cbv zeta. apply try_catch_ret_eq.
    erewrite bind_ret_eq by exact Hsearch. cbv beta. fold cached.
    rewrite Hcond.
    unfold sort_hits, get_env, ret, bind. now rewrite Henv.
  - unfold slice0. rewrite take_ge.
    + apply sort_perm.
    + erewrite Permutation_length by apply sort_perm. exact Hlen.
Qed.

Lemma X19_blank_term_witness :
  exists (cached : list search_hit) (w1 : world),
    searchCachedData "demo" "  " no_options (demo_world 5 live_host warm_store None)
    = Ret cached w1
    /\ w_log w1 = []
    /\ exists hits,
         searchCachedDataEnhanced "demo" "  " no_options
           (demo_world 5 live_host warm_store None) = Ret hits w1
         /\ Permutation hits cached.
Proof.
  destruct (X19_blank_term_costs_no_request "demo" "  " no_options
              (demo_world 5 live_host warm_store None))
    as (cached & w1 & Hs & Hlog & _ & Hblank).
  exists cached, w1. split; [exact Hs|]. split; [exact Hlog|].
  apply Hblank. left. reflexivity.
Defined.

(** ** What a refused read leaves on the durable tier *)

(** X20: a read that finds nothing usable cleans up after itself, except
    for text it cannot parse.  When the volatile map serves nothing for
    the key and the durable tier can be read, a read that returns null
    leaves no durable entry under the key - an entry of another schema
    version or older than 24 hours is removed - unless the text under
    the key is not JSON: that text stays where it is, and every later
    read of the path returns null as long as nothing is written. *)
Theorem X20_refused_entries_are_purged :
  forall (repo dir : string) (w : world),
    memory_fresh (getCacheKey repo dir) w = None ->
    storage_get_throws (w_env w) = false ->
    returned (getCachedData repo dir w) = Some None ->
    let w' := after (getCachedData repo dir) w in
    (Assoc.get (getCacheKey repo dir) (localStorage (w_store w)) <> Some Garbage ->
     Assoc.get (getCacheKey repo dir) (localStorage (w_store w')) = None)
    /\ (Assoc.get (getCacheKey repo dir) (localStorage (w_store w)) = Some Garbage ->
        localStorage (w_store w') = localStorage (w_store w)
        /\ forall t, returned (getCachedData repo dir (at_time t w')) = Some None).
Proof.
  intros repo dir w Hf Hthrows Hnone w'.
  assert (Hcold : Assoc.get (getCacheKey repo dir)
                    (memoryCache (w_store
                       (with_store w
                          (set_memoryCache (w_store w)
                             (Assoc.remove (getCacheKey repo dir)
                                (memoryCache (w_store w))))))) = None)
    by (cbn [w_store with_store memoryCache set_memoryCache];
        apply assoc_get_remove_eq).
  unfold w', after. rewrite (getCachedData_stale _ _ _ Hf) in Hnone |- *.
  rewrite (getCachedData_cold _ _ _ Hcold) in Hnone |- *.
  cbn [w_env w_store with_store localStorage memoryCache set_memoryCache]
    in Hnone |- *.
  rewrite Hthrows in Hnone |- *.
  destruct (Assoc.get (getCacheKey repo dir) (localStorage (w_store w)))
    as [[|l|c]|] eqn:Hls.
  - split; [congruence|]. intros _. cbn [JSON_parse_listing throw final_world].
    split; [reflexivity|]. intros t.
    set (w1 := with_store w _).
    assert (Hc1 : Assoc.get (getCacheKey repo dir)
                    (memoryCache (w_store (at_time t w1))) = None) by exact Hcold.
    rewrite (getCachedData_cold _ _ _ Hc1).
    change (storage_get_throws (w_env (at_time t w1)))
      with (storage_get_throws (w_env w)).
    change (localStorage (w_store (at_time t w1))) with (localStorage (w_store w)).
    now rewrite Hthrows, Hls.
  - split; [|discriminate]. intros _.
    cbn [JSON_parse_listing ret] in Hnone |- *.
    destruct (negb _ || _); [|discriminate].
    cbn. apply assoc_get_remove_eq.
  - split; [|discriminate]. intros _.
    cbn [JSON_parse_listing ret] in Hnone |- *.
    destruct (negb _ || _); [|discriminate].
    cbn. apply assoc_get_remove_eq.
  - split; [|discriminate]. intros _. exact Hls.
Qed.

Lemma X20_purge_witness :
  Assoc.get (getCacheKey "demo" "")
    (localStorage (w_store (after (getCachedData "demo" "")
                              (demo_world (MAX_CACHE_AGE + 1) no_host
                                 day_old_store None))))
  = None
  /\ let corrupt := {| memoryCache := []; commitCache := ∅;
                       localStorage := [ (getCacheKey "demo" "", Garbage) ];
                       timers := [] |} in
     localStorage (w_store (after (getCachedData "demo" "")
                              (demo_world 5 no_host corrupt None)))
     = [ (getCacheKey "demo" "", Garbage) ].
Proof.
  split.
  - apply (X20_refused_entries_are_purged "demo" ""
             (demo_world (MAX_CACHE_AGE + 1) no_host day_old_store None)
             eq_refl eq_refl eq_refl).
    discriminate.
  - intros corrupt.
    apply (X20_refused_entries_are_purged "demo" ""
             (demo_world 5 no_host corrupt None) eq_refl eq_refl eq_refl).
    reflexivity.
Defined.

(** ** Patching with a refresh marker *)

Lemma getCommitChanges_refresh repo fromCommit toCommit w :
  is_pseudo_commit fromCommit = true \/
  is_pseudo_commit toCommit = true \/
  compare_failed (get_compare (host (w_env w)) repo fromCommit toCommit) = true ->
  exists w', getCommitChanges repo fromCommit toCommit w = Ret refresh_needed w'
             /\ w_env w' = w_env w.
Proof.
  intros H. unfold getCommitChanges, try_catch.
  destruct (is_pseudo_commit fromCommit || is_pseudo_commit toCommit) eqn:Ep.
  - now exists w.
  - apply orb_false_elim in Ep as [E1 E2].
    destruct H as [H | [H | H]]; [congruence | congruence |].
    unfold bind at 1, fetch. unfold compare_failed in H.
    destruct (get_compare (host (w_env w)) repo fromCommit toCommit) as [|r];
      [eexists; split; reflexivity|].
    destruct (ok r); cbn [negb orb] in H |- *; [|eexists; split; reflexivity].
    unfold bind at 1, json.
    destruct (body r); try discriminate; eexists; split; reflexivity.
Qed.

(** X21: the marker getCommitChanges returns - for a placeholder token,
    a failed or unreadable comparison - patches nothing:
    applyChangesToCache given that result returns the files and folders
    of the cached listing as they are, for every path. *)
Theorem X21_refresh_marker_patches_nothing :
  forall (repo fromCommit toCommit dir : string) (d : cache_data) (w : world),
    is_pseudo_commit fromCommit = true \/
    is_pseudo_commit toCommit = true \/
    compare_failed (get_compare (host (w_env w)) repo fromCommit toCommit) = true ->
    returned ((chs <- getCommitChanges repo fromCommit toCommit ;;
               applyChangesToCache repo dir chs d) w)
    = Some (files d, folders d).
Proof.
  intros repo fromCommit toCommit dir d w H.
  destruct (getCommitChanges_refresh repo fromCommit toCommit w H) as (w' & Hc & _).
  erewrite bind_ret_eq by exact Hc. reflexivity.
Qed.

Lemma X21_refresh_marker_witness :
  returned ((chs <- getCommitChanges "demo" "empty-repo-5" "abc123" ;;
             applyChangesToCache "demo" "dir" chs
               (listing_of "dir" [plain_file "a.txt"] []))
              (demo_world 5 live_host empty_store None))
  = Some ([plain_file "a.txt"], []).
Proof.
  apply (X21_refresh_marker_patches_nothing "demo" "empty-repo-5" "abc123" "dir"
           (listing_of "dir" [plain_file "a.txt"] [])
           (demo_world 5 live_host empty_store None)).
  left. reflexivity.
Defined.
